(** * ADGM document analyzer: rule engine, issue reconciliation and annotation

    A shallow embedding of the compliance-checking pipeline of the analyzer
    ([src/ai_agent.py], [src/adgm_analyzer.py], [src/document_processor.py]
    and the per-document loop of [main.py]) together with the properties of
    its specification.

    Conventions.
    - Python [str] values are lists of 8-bit characters.  On the ASCII range
      [lower], [upper], [is_space] and the regular expressions agree with
      Python's; characters above 127 are treated as caseless, non-blank
      characters.  All concrete inputs below are ASCII.
    - Python [dict]s with string keys and string values are [gmap]s.
    - Python [int]s are [Z]; a position produced by [enumerate] is a [nat]
      where it only indexes a list and a [Z] where it flows into integer
      arithmetic.
    - A raised exception is an explicit outcome carrying the state reached
      when it was raised.
    - A [python-docx] run is its inline content with its bold and highlight
      properties; [add_run] follows the library, which inserts the run
      before it writes the text and lets [lxml] refuse control
      characters. *)

From stdpp Require Import gmap strings list sorting.
From Stdlib Require Import Ascii ZArith Lia.

Set Default Proof Using "Type".

(** ** String literals for [list ascii] *)

Inductive literal := lit_nil | lit_cons (a : ascii) (l : literal).

Fixpoint literal_of_bytes (l : list Byte.byte) : literal :=
  match l with
  | [] => lit_nil
  | b :: l => lit_cons (ascii_of_byte b) (literal_of_bytes l)
  end.

Fixpoint bytes_of_literal (l : literal) : list Byte.byte :=
  match l with
  | lit_nil => []
  | lit_cons a l => byte_of_ascii a :: bytes_of_literal l
  end.

Declare Scope str_scope.
Delimit Scope str_scope with str.
#[warnings="-via-type-mismatch"]
String Notation list literal_of_bytes bytes_of_literal
  (via literal mapping [[nil] => lit_nil, [cons] => lit_cons]) : str_scope.
Local Open Scope str_scope.
Local Open Scope Z_scope.

Abbreviation str := (list ascii).

(** ** Python string primitives *)

Module Text.

Definition code (c : ascii) : N := N_of_ascii c.

Definition between (lo hi : N) (c : ascii) : bool :=
  ((lo <=? code c) && (code c <=? hi))%N.

Definition is_upper_char : ascii → bool := between 65 90.
Definition is_lower_char : ascii → bool := between 97 122.
Definition is_digit_char : ascii → bool := between 48 57.

(** [str.isspace] on the ASCII range: TAB, LF, VT, FF, CR, the four
    separators 0x1c-0x1f and the space.  The [\s] class of [re] on [str]
    patterns is the same set. *)
Definition is_space (c : ascii) : bool :=
  between 9 13 c || between 28 32 c.

Definition lower_char (c : ascii) : ascii :=
  if is_upper_char c then ascii_of_N (code c + 32) else c.

Definition upper_char (c : ascii) : ascii :=
  if is_lower_char c then ascii_of_N (code c - 32) else c.

(** [s.lower()], [s.upper()] *)
Definition lower (s : str) : str := map lower_char s.
Definition upper (s : str) : str := map upper_char s.

(** [s.lstrip()], [s.rstrip()], [s.strip()] *)
Fixpoint lstrip (s : str) : str :=
  match s with
  | c :: s' => if is_space c then lstrip s' else s
  | [] => []
  end.

Fixpoint rstrip (s : str) : str :=
  match s with
  | [] => []
  | c :: s' =>
      match rstrip s' with
      | [] => if is_space c then [] else [c]
      | r => c :: r
      end
  end.

Definition strip (s : str) : str := rstrip (lstrip s).

(** Truth value of a string: [bool(s)]. *)
Definition truthy (s : str) : bool :=
  match s with [] => false | _ => true end.

(** [s.startswith(p)] *)
Fixpoint startswith (p s : str) : bool :=
  match p, s with
  | [], _ => true
  | a :: p', b :: s' => bool_decide (a = b) && startswith p' s'
  | _ :: _, [] => false
  end.

(** [needle in hay] *)
Fixpoint contains (needle hay : str) : bool :=
  startswith needle hay ||
  match hay with
  | [] => false
  | _ :: hay' => contains needle hay'
  end.

(** [any(tok in k for tok in toks)] *)
Definition any_contained (toks : list str) (k : str) : bool :=
  existsb (λ tok, contains tok k) toks.

(** [s.split(sep)[0]] for a one-character separator. *)
Fixpoint split_head (sep : ascii) (s : str) : str :=
  match s with
  | [] => []
  | c :: s' => if bool_decide (c = sep) then [] else c :: split_head sep s'
  end.

(** [s.find(c)] and [s.rfind(c)] for a one-character argument; [-1] when
    the character does not occur. *)
Fixpoint find_from (c : ascii) (i : Z) (s : str) : Z :=
  match s with
  | [] => -1
  | a :: s' => if bool_decide (a = c) then i else find_from c (i + 1) s'
  end.

Definition find (c : ascii) (s : str) : Z := find_from c 0 s.

Fixpoint rfind_from (c : ascii) (i : Z) (last : Z) (s : str) : Z :=
  match s with
  | [] => last
  | a :: s' =>
      rfind_from c (i + 1) (if bool_decide (a = c) then i else last) s'
  end.

Definition rfind (c : ascii) (s : str) : Z := rfind_from c 0 (-1) s.

(** [s[a:b]] for [0 <= a]. *)
Definition slice (a b : Z) (s : str) : str :=
  take (Z.to_nat (b - a)) (drop (Z.to_nat a) s).

(** [sep.join(parts)] *)
Fixpoint join (sep : str) (parts : list str) : str :=
  match parts with
  | [] => []
  | [p] => p
  | p :: ps => p ++ sep ++ join sep ps
  end.

End Text.

(** ** [os.path] on POSIX *)

Module OsPath.
Import Text.

(** [p[i:]] and [p[:i]] for [0 <= i]. *)
Definition from_index (i : Z) (p : str) : str := drop (Z.to_nat i) p.
Definition upto_index (i : Z) (p : str) : str := take (Z.to_nat i) p.

(** [os.path.basename(p)]: [i = p.rfind('/') + 1; return p[i:]] *)
Definition basename (p : str) : str := from_index (rfind "/" p + 1) p.

(** The loop of [splitext] that skips the leading dots of the file name:
    [name] is [p[filenameIndex:]] and [n] the number of characters before
    the last dot. *)
Fixpoint has_stem (n : nat) (name : str) : bool :=
  match n, name with
  | S n', c :: name' =>
      if bool_decide (c ≠ "."%char) then true else has_stem n' name'
  | _, _ => false
  end.

(** [os.path.splitext(p)] *)
Definition splitext (p : str) : str * str :=
  let sepIndex := rfind "/" p in
  let dotIndex := rfind "." p in
  if (sepIndex <? dotIndex)
     && has_stem (Z.to_nat (dotIndex - (sepIndex + 1)))
                 (from_index (sepIndex + 1) p)
  then (upto_index dotIndex p, from_index dotIndex p)
  else (p, []).

(** [os.path.join(a, b)] *)
Definition join_path (a b : str) : str :=
  if startswith "/" b then b
  else if negb (truthy a) || bool_decide (last a = Some "/"%char)
       then a ++ b
       else a ++ "/" ++ b.

End OsPath.

(** ** The fragment of [re] used by the key normalizer

    Patterns are built from character classes, concatenation, alternation,
    an optional sub-pattern ([?]) and greedy repetition of a character class
    ([*], [+]).  Matching follows the backtracking discipline of [re]: the
    list returned by [remainders] enumerates, in the order in which the
    engine would try them, the inputs left over by each way of matching the
    pattern at the start of the subject; the engine commits to the first. *)

Module Regex.

Inductive regex :=
| Eps
| Class (p : ascii → bool)
| Seq (r1 r2 : regex)
| Alt (r1 r2 : regex)
| Opt (r : regex)
| Star (p : ascii → bool).

Definition Chr (c : ascii) : regex := Class (λ a, bool_decide (a = c)).

(** A literal string. *)
Fixpoint Lit (s : str) : regex :=
  match s with
  | [] => Eps
  | c :: s' => Seq (Chr c) (Lit s')
  end.

(** [p+] *)
Definition Plus (p : ascii → bool) : regex := Seq (Class p) (Star p).

(** [.] matches anything but a newline. *)
Definition dot (c : ascii) : bool := negb (bool_decide (c = "010"%char)).

(** Greedy repetition: the longest run first, then shorter ones. *)
Fixpoint star_remainders (p : ascii → bool) (s : str) : list str :=
  match s with
  | c :: s' => if p c then star_remainders p s' ++ [s] else [s]
  | [] => [[]]
  end.

Fixpoint remainders (r : regex) (s : str) : list str :=
  match r with
  | Eps => [s]
  | Class p =>
      match s with
      | c :: s' => if p c then [s'] else []
      | [] => []
      end
  | Seq r1 r2 => s1 ← remainders r1 s; remainders r2 s1
  | Alt r1 r2 => remainders r1 s ++ remainders r2 s
  | Opt r1 => remainders r1 s ++ [s]
  | Star p => star_remainders p s
  end.

(** [re.match(r, s)]: what is left of [s] after the match, if any. *)
Definition rmatch (r : regex) (s : str) : option str :=
  head (remainders r s).

(** [re.sub(r, rep, s)] for an unanchored pattern: scan from the left;
    where the pattern matches, emit [rep] and resume after the match,
    otherwise copy one character.  [skip] counts the characters of the
    current match that are still to be passed over.  An empty match emits
    [rep] and copies the character. *)
Fixpoint sub_from (r : regex) (rep : str) (skip : nat) (s : str) : str :=
  match s with
  | [] =>
      match skip, rmatch r [] with
      | O, Some _ => rep
      | _, _ => []
      end
  | c :: s' =>
      match skip with
      | S n => sub_from r rep n s'
      | O =>
          match rmatch r s with
          | Some rest =>
              match (length s - length rest)%nat with
              | O => rep ++ c :: sub_from r rep 0 s'
              | S n => rep ++ sub_from r rep n s'
              end
          | None => c :: sub_from r rep 0 s'
          end
      end
  end.

Definition sub (r : regex) (rep : str) (s : str) : str :=
  sub_from r rep 0 s.

(** [re.sub("^" + r, rep, s)] without [re.MULTILINE]: the pattern can
    only match at position 0. *)
Definition sub_anchored (r : regex) (rep : str) (s : str) : str :=
  match rmatch r s with
  | Some rest => rep ++ rest
  | None => s
  end.


(** [re.findall(r, s)] for a pattern without groups: the matched texts,
    found as [sub] finds them. *)
Fixpoint findall_from (r : regex) (skip : nat) (s : str) : list str :=
  match s with
  | [] =>
      match skip, rmatch r [] with
      | O, Some _ => [[]]
      | _, _ => []
      end
  | c :: s' =>
      match skip with
      | S n => findall_from r n s'
      | O =>
          match rmatch r s with
          | Some rest =>
              let n := (length s - length rest)%nat in
              take n s :: match n with
                          | O => findall_from r 0 s'
                          | S m => findall_from r m s'
                          end
          | None => findall_from r 0 s'
          end
      end
  end.

Definition findall (r : regex) (s : str) : list str := findall_from r 0 s.

End Regex.

(** ** Python values and control *)

Module Py.

Inductive exn := IndexError | ValueError.

(** What a call leaves behind: a value, or an exception together with the
    state reached when it was raised. *)
Inductive outcome (A : Type) :=
| Returned (a : A)
| Raised (e : exn) (a : A).
Arguments Returned {A} a.
Arguments Raised {A} e a.

Definition state_of {A} (o : outcome A) : A :=
  match o with Returned a => a | Raised _ a => a end.

(** [l[i]] for a Python list. *)
Definition py_item {A} (l : list A) (i : Z) : option A :=
  let n := Z.of_nat (length l) in
  if (0 <=? i) && (i <? n) then l !! Z.to_nat i
  else if (- n <=? i) && (i <? 0) then l !! Z.to_nat (i + n)
  else None.

(** [d.get(k, dflt)] on a dictionary of strings. *)
Definition get (d : gmap str str) (k dflt : str) : str :=
  default dflt (d !! k).

End Py.

(** ** [src/ai_agent.py] *)

Module AiAgent.
Import Text Regex.

(** [^(missing required clause|red flag)\s*:\s*] (the anchor is applied
    by [sub_anchored]). *)
Definition prefix_pattern : regex :=
  Seq (Alt (Lit "missing required clause") (Lit "red flag"))
      (Seq (Star is_space) (Seq (Chr ":") (Star is_space))).

(** [u\.?a\.?e\.?\s*federal court] *)
Definition uae_pattern : regex :=
  Seq (Chr "u") (Seq (Opt (Chr "."))
  (Seq (Chr "a") (Seq (Opt (Chr "."))
  (Seq (Chr "e") (Seq (Opt (Chr "."))
  (Seq (Star is_space) (Lit "federal court"))))))).

(** [signatories?] *)
Definition signatories_pattern : regex :=
  Seq (Lit "signatorie") (Opt (Chr "s")).

(** [ambiguous.*language|non-binding] *)
Definition ambiguity_pattern : regex :=
  Alt (Seq (Lit "ambiguous") (Seq (Star dot) (Lit "language")))
      (Lit "non-binding").

Definition replacements : list (regex * str) :=
  [ (Lit "abu dhabi global market", "adgm");
    (uae_pattern, "uae federal court");
    (Lit "registered address", "registered address");
    (signatories_pattern, "signatories");
    (Lit "jurisdiction", "jurisdiction");
    (ambiguity_pattern, "ambiguity");
    (Lit "appears to be missing signatory section", "signatories") ].

(** [for pat, rep in replacements: t = re.sub(pat, rep, t)] *)
Definition apply_replacements (t : str) : str :=
  fold_left (λ t pr, sub pr.1 pr.2 t) replacements t.

(** [[^a-z0-9\s]] *)
Definition not_key_char (c : ascii) : bool :=
  negb (is_lower_char c || is_digit_char c || is_space c).

(** The last two passes: keep letters, digits and blanks, collapse runs
    of blanks, trim. *)
Definition squeeze (t : str) : str :=
  strip (sub (Plus is_space) " " (sub (Class not_key_char) " " t)).

Definition normalize_issue_key (text : str) : str :=
  let t := strip (lower text) in
  let t := sub_anchored prefix_pattern "" t in
  let t := apply_replacements t in
  squeeze t.

Definition COMMON : list str :=
  ["jurisdiction"; "adgm"; "ambiguity"; "signatories"].
Definition AOA_KEYS : list str :=
  COMMON ++ ["company name"; "objects"; "share capital"; "directors";
             "dividends"].
Definition MOA_KEYS : list str :=
  COMMON ++ ["registered address"; "objects"; "share capital"].
Definition RES_KEYS : list str :=
  COMMON ++ ["resolution approval"; "authorized representative"].
Definition REG_KEYS : list str :=
  COMMON ++ ["register"; "members"; "directors"].
Definition UBO_KEYS : list str :=
  COMMON ++ ["ubo"; "beneficial owner"; "declaration"].

Definition allow_list (doc_type : str) : list str :=
  let dt := lower doc_type in
  if contains "articles of association" dt then AOA_KEYS
  else if contains "memorandum of association" dt then MOA_KEYS
  else if contains "board resolution" dt then RES_KEYS
  else if contains "register of members and directors" dt then REG_KEYS
  else if contains "ubo" dt then UBO_KEYS
  else COMMON.

Definition doc_type_accepts_issue_key (doc_type issue_key : str) : bool :=
  let k := lower issue_key in
  if negb (truthy k) then false
  else any_contained (allow_list doc_type) k.

(** Values produced by [json.loads]. *)
#[warnings="-register-all"] Inductive json :=
| JNull
| JBool (b : bool)
| JNum (n : Z)
| JStr (s : str)
| JList (items : list json)
| JObj (fields : list (str * json)).

Section Parse.
(** The decoder of the standard library; [None] stands for any raised
    exception. *)
Variable json_loads : str → option json.

Definition parse_ai_response_to_list (text : str) : json :=
  let start := find "[" text in
  let end_ := rfind "]" text in
  let decoded :=
    if bool_decide (start ≠ -1) && bool_decide (end_ ≠ -1)
       && bool_decide (start < end_)
    then json_loads (slice start (end_ + 1) text)
    else json_loads text in
  match decoded with
  | Some v => v
  | None => JList []
  end.
End Parse.


(** *** Retrieval *)

(** The two-key dictionaries built by [load_refs]. *)
Record Ref := {
  label : str;
  text : str;
}.

Global Instance Ref_eq_dec : EqDecision Ref.
Proof. solve_decision. Defined.

(** [set(re.findall(r"[a-z]+", (s or "").lower()))] *)
Definition word_set (s : str) : gset str :=
  list_to_set (findall (Plus is_lower_char) (lower s)).

Definition _score_overlap (query text : str) : Z :=
  let q := word_set query in
  let t := word_set text in
  if bool_decide (q = ∅) || bool_decide (t = ∅) then 0
  else Z.of_nat (size (q ∩ t)).

(** [scored.sort(key=lambda x: x[1], reverse=True)]: the stable sort into
    descending order, by insertion from the right. *)
Fixpoint insert_desc {A} (x : A * Z) (l : list (A * Z)) : list (A * Z) :=
  match l with
  | [] => [x]
  | y :: l' => if x.2 <? y.2 then y :: insert_desc x l' else x :: l
  end.

Definition sort_desc {A} (l : list (A * Z)) : list (A * Z) :=
  foldr insert_desc [] l.

(** [l[:k]] *)
Definition py_prefix {A} (k : Z) (l : list A) : list A :=
  if 0 <=? k then take (Z.to_nat k) l
  else take (Z.to_nat (Z.of_nat (length l) + k)) l.

Definition retrieve_top_k (query : str) (refs : list Ref) (k : Z)
    : list Ref :=
  let scored := map (λ r, (r, _score_overlap query (text r))) refs in
  let scored := sort_desc scored in
  map fst (filter (λ rs, 0 < rs.2) (py_prefix k scored)).



(** *** Reading the references *)

(** [line.rstrip("\n")] *)
Fixpoint rstrip_newlines (s : str) : str :=
  match s with
  | [] => []
  | c :: s' =>
      match rstrip_newlines s' with
      | [] => if bool_decide (c = "010"%char) then [] else [c]
      | r => c :: r
      end
  end.

(** [re.match(r"^\[(.+?)\]\s*$", s)], group 1.  The lazy [.+?] is tried
    with one character first and is extended by one character each time
    what follows is not a closing bracket and blanks up to the end;
    [group] is what it holds so far. *)
Fixpoint label_from (group : str) (rest : str) : option str :=
  match rest with
  | [] => None
  | c :: rest' =>
      if bool_decide (c = "]"%char) && forallb is_space rest'
      then Some group
      else if dot c then label_from (group ++ [c]) rest'
      else None
  end.

Definition match_label (s : str) : option str :=
  match s with
  | "["%char :: c :: rest => if dot c then label_from [c] rest else None
  | _ => None
  end.

(** [if label and buf: refs.append({"label": label,
    "text": " ".join(buf).strip()})] *)
Definition flush (current : option str) (buf : list str) (refs : list Ref)
    : list Ref :=
  match current, buf with
  | Some l, _ :: _ =>
      if truthy l
      then refs ++ [{| label := l; text := strip (join " " buf) |}]
      else refs
  | _, _ => refs
  end.

(** [for line in f], with the label, the buffer and the list so far, and
    the flush after the loop. *)
Fixpoint load_loop (lines : list str) (current : option str)
    (buf : list str) (refs : list Ref) : list Ref :=
  match lines with
  | [] => flush current buf refs
  | line :: rest =>
      let s := rstrip_newlines line in
      if negb (truthy (strip s))
      then load_loop rest None [] (flush current buf refs)
      else
        match match_label s with
        | Some group =>
            load_loop rest (Some (strip group)) []
                      (flush current buf refs)
        | None => load_loop rest current (buf ++ [strip s]) refs
        end
  end.

(** [load_refs]; the argument is the lines of the file, [None] when the
    file does not exist. *)
Definition load_refs (file : option (list str)) : list Ref :=
  match file with
  | None => []
  | Some lines => load_loop lines None [] []
  end.

End AiAgent.

(** ** [src/adgm_analyzer.py] *)

Module AdgmAnalyzer.
Import Text.

(** The dictionary returned by [extract_text_and_sections]; [full_text]
    is [None] when the entry is absent or [None]. *)
Record DocInfo := {
  paragraphs : list str;
  headings : list str;
  full_text : option str;
}.

(** The rule set loaded from [config/adgm_rules.json].  [clauses_per_doc]
    is [None] when the key is absent; an entry of the mapping is [None]
    when its JSON value is [null]. *)
Record Rules := {
  clauses_per_doc : option (gmap str (option (list str)));
  required_documents : list str;
}.

(** The body of [for clause in required_clauses], with the list built so
    far as accumulator. *)
Fixpoint missing_loop (text : str) (required_clauses missing : list str)
  : list str :=
  match required_clauses with
  | [] => missing
  | clause :: rest =>
      let key := strip clause in
      if negb (truthy key) then missing_loop text rest missing
      else if negb (contains (lower key) text)
           then missing_loop text rest (missing ++ [key])
           else missing_loop text rest missing
  end.

Definition check_required_clauses (doc_info : DocInfo) (doc_type : str)
    (rules : Rules) : list str :=
  let text := lower (default "" (full_text doc_info)) in
  let per_doc := default ∅ (clauses_per_doc rules) in
  let required_clauses := default [] (default None (per_doc !! doc_type)) in
  missing_loop text required_clauses [].

(** The three-key dictionaries built by [find_red_flags]. *)
Record RedFlag := {
  rf_issue : str;
  rf_severity : str;
  rf_match : str;
}.

Global Instance RedFlag_eq_dec : EqDecision RedFlag.
Proof. solve_decision. Defined.

Definition ambiguous_markers : list str :=
  ["may consider"; "where possible"; "as appropriate"; "at its discretion"].

Definition requires_signature : list str :=
  ["Articles of Association"; "Memorandum of Association";
   "Board Resolution"; "Shareholder Resolution"; "UBO Declaration Form";
   "Incorporation Application Form"].

Definition jurisdiction_flag : RedFlag :=
  {| rf_issue := "References UAE Federal Court instead of ADGM";
     rf_severity := "High";
     rf_match := "UAE Federal Court" |}.

Definition ambiguity_flag : RedFlag :=
  {| rf_issue := "Ambiguous or non-binding language";
     rf_severity := "Medium";
     rf_match := join "; " ambiguous_markers |}.

Definition signatory_flag : RedFlag :=
  {| rf_issue := "Appears to be missing signatory section";
     rf_severity := "High";
     rf_match := "signature" |}.

(** [doc_type in requires_signature]; the argument defaults to [None]. *)
Definition in_requires_signature (doc_type : option str) : bool :=
  match doc_type with
  | Some d => bool_decide (d ∈ requires_signature)
  | None => false
  end.

Definition find_red_flags (doc_info : DocInfo) (doc_type : option str)
  : list RedFlag :=
  let text := lower (default "" (full_text doc_info)) in
  let flags := [] in
  let flags :=
    if contains "uae federal court" text
    then flags ++ [jurisdiction_flag] else flags in
  let flags :=
    if existsb (λ m, contains m text) ambiguous_markers
    then flags ++ [ambiguity_flag] else flags in
  let flags :=
    if in_requires_signature doc_type
       && (negb (contains "sign" text) && negb (contains "signature" text))
    then flags ++ [signatory_flag] else flags in
  flags.

(** Issue dictionaries. *)
Definition clause_issue (doc_type clause : str) : gmap str str :=
  list_to_map
    [ ("document", doc_type);
      ("section", "N/A");
      ("issue", "Missing required clause: " ++ clause);
      ("severity", "High");
      ("suggestion", "Add clause referencing '" ++ clause ++ "'.") ].

Definition red_flag_issue (doc_type : str) (rf : RedFlag) : gmap str str :=
  list_to_map
    [ ("document", doc_type);
      ("section", "N/A");
      ("issue", rf_issue rf);
      ("severity", rf_severity rf);
      ("suggestion", "Align with ADGM wording where applicable.") ].

Definition build_issue_report (file_name doc_type : str)
    (missing_clauses : list str) (red_flags : list RedFlag)
  : list (gmap str str) :=
  map (clause_issue doc_type) missing_clauses
  ++ map (red_flag_issue doc_type) red_flags.

(** [infer_doc_type_from_text]; [None] is the Python [None]. *)
Definition infer_doc_type_from_text (text : option str) : str :=
  let t := lower (default "" text) in
  if contains "articles of association" t then "Articles of Association"
  else if contains "memorandum of association" t
          || contains "memorandum of understanding" t
          || contains "moa" t || contains "mou" t
       then "Memorandum of Association"
  else if contains "register of members" t
          || contains "register of directors" t
       then "Register of Members and Directors"
  else if contains "board resolution" t then "Board Resolution"
  else if contains "ultimate beneficial owner" t || contains "ubo" t
       then "UBO Declaration Form"
  else "Unknown".

End AdgmAnalyzer.

(** ** [src/document_processor.py] *)

Module DocumentProcessor.
Import Text Py AdgmAnalyzer.

(** What [extract_text_and_sections] returns for a document with the
    given non-empty paragraph texts and headings: the full text is
    ["\n".join(paragraphs)]. *)
Definition extracted (texts heads : list str) : DocInfo :=
  {| paragraphs := texts;
     headings := heads;
     full_text := Some (join ["010"%char] texts) |}.

(** [for i, p in enumerate(paragraphs)], with the list built so far. *)
Fixpoint find_loop (snippet : str) (i : Z) (paragraphs : list str)
    (idxs : list Z) : list Z :=
  match paragraphs with
  | [] => idxs
  | p :: rest =>
      if contains snippet (lower p)
      then find_loop snippet (i + 1) rest (idxs ++ [i])
      else find_loop snippet (i + 1) rest idxs
  end.

Definition find_paragraph_indexes (text_snippet : str)
    (paragraphs : list str) : list Z :=
  if negb (truthy text_snippet) then []
  else find_loop (lower text_snippet) 0 paragraphs [].

(** The part of a [python-docx] document that annotation touches: every
    paragraph is its list of runs; a run is its inline content (the
    elements [w:t], [w:tab] and [w:br]) together with its bold and
    highlight properties, each of which may be unset. *)
Inductive color := RED | YELLOW.

Inductive inline :=
| W_t (text : str)
| W_tab
| W_br.

Record Run := {
  run_content : list inline;
  run_bold : option bool;
  run_highlight : option color;
}.

Abbreviation Paragraph := (list Run).
Abbreviation Document := (list Paragraph).

(** [run.text]: a tab element reads as TAB, a line break as LF. *)
Definition inline_text (e : inline) : str :=
  match e with
  | W_t text => text
  | W_tab => ["009"%char]
  | W_br => ["010"%char]
  end.

Definition content_text (content : list inline) : str :=
  concat (map inline_text content).

Definition run_text (run : Run) : str := content_text (run_content run).

(** The characters [lxml] takes in the text of an element: TAB, LF, CR and
    everything from the space upwards. *)
Definition xml_char (c : ascii) : bool :=
  bool_decide (c ∈ ["009"; "010"; "013"]%char) || (32 <=? code c)%N.

Definition xml_compatible (text : str) : bool := forallb xml_char text.

(** [CT_R.add_t(text)]: the new element receives its text before it is
    inserted, so nothing is inserted when [lxml] refuses the text
    ([ValueError]). *)
Definition add_t (content : list inline) (text : str)
  : outcome (list inline) :=
  if xml_compatible text then Returned (content ++ [W_t text])
  else Raised ValueError content.

(** [_RunContentAppender.flush]: [if text: self._r.add_t(text)] *)
Definition flush_text (bfr : str) (content : list inline)
  : outcome (list inline) :=
  if truthy bfr then add_t content bfr else Returned content.

(** [_RunContentAppender.add_text]: [for char in text: self.add_char(char)]
    and a last [flush]; [bfr] is the buffer of pending characters, emptied
    by every [flush] that returns. *)
Fixpoint add_text (text bfr : str) (content : list inline)
  : outcome (list inline) :=
  match text with
  | [] => flush_text bfr content
  | char :: rest =>
      if bool_decide (char = "009"%char) then
        match flush_text bfr content with
        | Returned content' => add_text rest [] (content' ++ [W_tab])
        | Raised e content' => Raised e content'
        end
      else if bool_decide (char ∈ ["013"; "010"]%char) then
        match flush_text bfr content with
        | Returned content' => add_text rest [] (content' ++ [W_br])
        | Raised e content' => Raised e content'
        end
      else add_text rest (bfr ++ [char]) content
  end.

(** [para.add_run(text)]: the run is appended to the paragraph first and
    its text written afterwards, so when writing raises the run stays in
    the paragraph with what was written until then. *)
Definition add_run (text : str) : outcome Run :=
  let run content :=
    {| run_content := content; run_bold := None; run_highlight := None |} in
  if truthy text then
    match add_text text [] [] with
    | Returned content => Returned (run content)
    | Raised e content => Raised e (run content)
    end
  else Returned (run []).

(** The index the comment is written to. *)
Definition effective_index (doc : Document) (para_index : Z) : Z :=
  let n := Z.of_nat (length doc) in
  if (para_index <? 0) || (n <=? para_index) then Z.max 0 (n - 1)
  else para_index.

(** [color = (highlight or 'YELLOW').strip().upper()] and the choice of
    the highlight colour. *)
Definition highlight_color (highlight : str) : color :=
  let color := upper (strip (if truthy highlight then highlight
                             else "YELLOW")) in
  if bool_decide (color = "RED") then RED else YELLOW.

(** The run the comment leaves in the paragraph, from [para.add_run] to
    the end of the [try] block: bold and highlighted when [add_run]
    returns, as [add_run] left it when it raises. *)
Definition comment_run (comment_text highlight : str) : outcome Run :=
  match add_run (" [COMMENT: " ++ comment_text ++ "]") with
  | Raised e run => Raised e run
  | Returned run =>
      Returned {| run_content := run_content run;
                  run_bold := Some true;
                  run_highlight := Some (highlight_color highlight) |}
  end.

(** The body of the [try] block. *)
Definition annotate_body (doc : Document) (para_index : Z)
    (comment_text highlight : str) : outcome Document :=
  let para_index := effective_index doc para_index in
  match py_item doc para_index with
  | None => Raised IndexError doc
  | Some para =>
      let put run := <[Z.to_nat para_index := para ++ [run]]> doc in
      match comment_run comment_text highlight with
      | Returned run => Returned (put run)
      | Raised e run => Raised e (put run)
      end
  end.

(** [try: ... except Exception as e: print(...)] *)
Definition annotate_paragraph (doc : Document) (para_index : Z)
    (comment_text highlight : str) : outcome Document :=
  match annotate_body doc para_index comment_text highlight with
  | Returned doc' => Returned doc'
  | Raised _ doc' => Returned doc'
  end.


(** The path [save_reviewed_copy] saves to and returns; creating the
    directory and writing the file are the collaborators' part. *)
Definition save_reviewed_copy (original_path output_dir : str) : str :=
  let base := OsPath.basename original_path in
  let '(name, ext) := OsPath.splitext base in
  OsPath.join_path output_dir (name ++ "_reviewed" ++ ext).


(** A paragraph as [extract_text_and_sections] reads it: its text
    ([para.text or ""]) and the name of its style ([None] when there is no
    style or reading it fails). *)
Record RawParagraph := {
  para_text : str;
  para_style : option str;
}.

(** ["Heading" in str(para.style.name)] *)
Definition is_heading (para : RawParagraph) : bool :=
  match para_style para with
  | Some name => contains "Heading" name
  | None => false
  end.

(** [for i, para in enumerate(doc.paragraphs)], with the two lists built
    so far. *)
Fixpoint extract_loop (max_paragraphs : Z) (i : Z) (raw : list RawParagraph)
    (texts heads : list str) : list str * list str :=
  match raw with
  | [] => (texts, heads)
  | para :: rest =>
      if max_paragraphs <=? i then (texts, heads)
      else
        let text := strip (para_text para) in
        if negb (truthy text)
        then extract_loop max_paragraphs (i + 1) rest texts heads
        else
          let heads := if is_heading para then heads ++ [text] else heads in
          extract_loop max_paragraphs (i + 1) rest (texts ++ [text]) heads
  end.

Definition extract_text_and_sections (raw : list RawParagraph)
    (max_paragraphs : Z) : DocInfo :=
  let '(texts, heads) := extract_loop max_paragraphs 0 raw [] [] in
  extracted texts heads.

End DocumentProcessor.

(** ** The per-document loop of [main.py] *)

Module Main.
Import Text Py AiAgent AdgmAnalyzer DocumentProcessor.

(** *** Merging the suggestions into the issues of the file *)

(** [sug_key and issue_key and (sug_key in issue_key or issue_key in sug_key)] *)
Definition keys_match (sug_key issue_key : str) : bool :=
  truthy sug_key && truthy issue_key
  && (contains sug_key issue_key || contains issue_key sug_key).

(** How [for idx, issue in enumerate(file_issues)] ends: at a [break], by
    exhaustion, or at an [issue_keys_current[idx]] out of range. *)
Inductive search :=
| Matched (idx : nat)
| Unmatched
| KeyOutOfRange.

Fixpoint search_from (issue_keys_current : list str) (sug_key : str)
    (idx : nat) (issues : list (gmap str str)) : search :=
  match issues with
  | [] => Unmatched
  | _ :: rest =>
      match issue_keys_current !! idx with
      | None => KeyOutOfRange
      | Some issue_key =>
          if keys_match sug_key issue_key then Matched idx
          else search_from issue_keys_current sug_key (S idx) rest
      end
  end.

(** The three assignments of the matching branch. *)
Definition enrich (sug issue : gmap str str) : gmap str str :=
  <["citation_label" := get sug "citation_label" ""]>
    (<["rationale_ai" := get sug "rationale" ""]>
       (<["suggestion_ai" := get sug "suggestion" ""]> issue)).

(** The dictionary appended for an unmatched suggestion. *)
Definition standalone (doc_type sug_issue_raw : str) (sug : gmap str str)
  : gmap str str :=
  list_to_map
    [ ("document", doc_type);
      ("section", "N/A");
      ("issue", if truthy sug_issue_raw then sug_issue_raw
                else "AI-suggested improvement");
      ("severity", "Medium");
      ("suggestion", "");
      ("suggestion_ai", get sug "suggestion" "");
      ("rationale_ai", get sug "rationale" "");
      ("citation_label", get sug "citation_label" "") ].

(** [(sug.get("issue") or "").strip()] *)
Definition sug_issue_raw (sug : gmap str str) : str :=
  strip (get sug "issue" "").

Definition sug_key (sug : gmap str str) : str :=
  normalize_issue_key (sug_issue_raw sug).

(** One iteration of [for sug in ai_suggestions]. *)
Definition merge_suggestion (doc_type : str) (issue_keys_current : list str)
    (file_issues : list (gmap str str)) (sug : gmap str str)
  : outcome (list (gmap str str)) :=
  if negb (doc_type_accepts_issue_key doc_type (sug_key sug))
  then Returned file_issues
  else
    match search_from issue_keys_current (sug_key sug) 0 file_issues with
    | Matched idx => Returned (alter (enrich sug) idx file_issues)
    | Unmatched =>
        Returned (file_issues
                  ++ [standalone doc_type (sug_issue_raw sug) sug])
    | KeyOutOfRange => Raised IndexError file_issues
    end.

Fixpoint merge_loop (doc_type : str) (issue_keys_current : list str)
    (file_issues : list (gmap str str))
    (ai_suggestions : list (gmap str str))
  : outcome (list (gmap str str)) :=
  match ai_suggestions with
  | [] => Returned file_issues
  | sug :: rest =>
      match merge_suggestion doc_type issue_keys_current file_issues sug with
      | Returned file_issues' =>
          merge_loop doc_type issue_keys_current file_issues' rest
      | Raised e file_issues' => Raised e file_issues'
      end
  end.

(** [normalize_issue_key(i.get("issue", ""))] *)
Definition issue_key (issue : gmap str str) : str :=
  normalize_issue_key (get issue "issue" "").

(** The block under [if ai_suggestions:]. *)
Definition merge_suggestions (doc_type : str)
    (file_issues ai_suggestions : list (gmap str str))
  : outcome (list (gmap str str)) :=
  match ai_suggestions with
  | [] => Returned file_issues
  | _ =>
      let issue_keys_current := map issue_key file_issues in
      merge_loop doc_type issue_keys_current file_issues ai_suggestions
  end.

(** *** Annotation *)

(** A call [annotate_paragraph(doc, index, comment, highlight=...)]. *)
Record call := {
  call_index : Z;
  call_comment : str;
  call_highlight : str;
}.

(** The document under annotation, the set [seen_comments], and the calls
    made so far. *)
Record annotation := {
  doc : Document;
  seen_comments : gset (Z * str);
  calls : list call;
}.

(** [(index, comment.lower().strip())] *)
Definition dedup_key (index : Z) (comment : str) : Z * str :=
  (index, strip (lower comment)).

Definition key_of_call (c : call) : Z * str :=
  dedup_key (call_index c) (call_comment c).

(** [hit_idxs[0] if hit_idxs else max(0, len(paragraphs) - 1)] *)
Definition target (hit_idxs : list Z) (paragraphs : list str) : Z :=
  match hit_idxs with
  | i :: _ => i
  | [] => Z.max 0 (Z.of_nat (length paragraphs) - 1)
  end.

(** [if key not in seen_comments: annotate_paragraph(...);
    seen_comments.add(key)] *)
Definition annotate_once (st : annotation) (index : Z)
    (comment highlight : str) : annotation :=
  let key := dedup_key index comment in
  if bool_decide (key ∈ seen_comments st) then st
  else
    {| doc := state_of (annotate_paragraph (doc st) index comment highlight);
       seen_comments := seen_comments st ∪ {[key]};
       calls := calls st ++ [{| call_index := index;
                                call_comment := comment;
                                call_highlight := highlight |}] |}.

Definition annotate_clause (paragraphs : list str) (st : annotation)
    (clause : str) : annotation :=
  let hit_idxs := find_paragraph_indexes clause paragraphs in
  let target_idx := target hit_idxs paragraphs in
  let comment_text := "Missing required clause: " ++ clause in
  annotate_once st target_idx comment_text "YELLOW".

Definition annotate_red_flag (paragraphs : list str) (st : annotation)
    (rf : RedFlag) : annotation :=
  let match_ := rf_match rf in
  let hit_idxs :=
    if truthy match_ then find_paragraph_indexes match_ paragraphs
    else [] in
  let target_idx := target hit_idxs paragraphs in
  let comment_text := "Red flag: " ++ rf_issue rf in
  annotate_once st target_idx comment_text "RED".

(** The comment text of a suggestion. *)
Definition suggestion_comment (sug : gmap str str) : str :=
  let tag := get sug "citation_label" "ADGM Reference" in
  let comment := "AI Suggestion: " ++ get sug "suggestion" "" in
  if truthy tag then comment ++ " | Source: " ++ tag else comment.

Definition annotate_suggestion (paragraphs : list str) (st : annotation)
    (sug : gmap str str) : annotation :=
  let raw_issue := get sug "issue" "" in
  let key_phrase := strip (split_head ":" raw_issue) in
  let idxs :=
    if truthy key_phrase then find_paragraph_indexes key_phrase paragraphs
    else [] in
  let tgt := target idxs paragraphs in
  annotate_once st tgt (suggestion_comment sug) "YELLOW".

(** Step 7 of the loop body.  [seen_comments] is a local of
    [analyze_files]: [seen] is the value it holds when the step is
    entered, and the step rebinds it to a new empty set. *)
Definition annotate_document (seen : gset (Z * str)) (document : Document)
    (paragraphs missing_clauses : list str) (red_flags : list RedFlag)
    (ai_suggestions : list (gmap str str)) : annotation :=
  let st := {| doc := document; seen_comments := ∅; calls := [] |} in
  let st := foldl (annotate_clause paragraphs) st missing_clauses in
  let st := foldl (annotate_red_flag paragraphs) st red_flags in
  foldl (annotate_suggestion paragraphs) st ai_suggestions.

(** *** One uploaded file *)

(** What the collaborators deliver for a file: its name, the detected
    type, the extracted text, the document opened for annotation, and
    what [generate_ai_suggestions_for_file] does when called ([None]: it
    raises). *)
Record upload := {
  file_name : str;
  doc_type : str;
  doc_info : DocInfo;
  document : Document;
  service : option (list (gmap str str));
}.

Record reviewed := {
  file_issues : list (gmap str str);
  annotated : annotation;
}.

(** Step 6 up to the merge: [try: ... except Exception: ai_suggestions = []] *)
Definition suggestions_for (ai_active : bool) (u : upload)
  : list (gmap str str) :=
  if ai_active then default [] (service u) else [].

(** Steps 4 to 7 for one file.  An exception of the merge leaves the
    loop body before the annotation step. *)
Definition process_file (ai_active : bool) (rules : Rules)
    (seen : gset (Z * str)) (u : upload) : outcome reviewed :=
  let missing_clauses :=
    check_required_clauses (doc_info u) (doc_type u) rules in
  let red_flags := find_red_flags (doc_info u) (Some (doc_type u)) in
  let issues :=
    build_issue_report (file_name u) (doc_type u) missing_clauses
      red_flags in
  let ai_suggestions := suggestions_for ai_active u in
  let not_annotated :=
    {| doc := document u; seen_comments := seen; calls := [] |} in
  match (if ai_active
         then merge_suggestions (doc_type u) issues ai_suggestions
         else Returned issues) with
  | Raised e issues' =>
      Raised e {| file_issues := issues'; annotated := not_annotated |}
  | Returned issues' =>
      Returned
        {| file_issues := issues';
           annotated :=
             annotate_document seen (document u)
               (paragraphs (doc_info u)) missing_clauses red_flags
               ai_suggestions |}
  end.

(** [for file_path in file_paths], threading [seen_comments]; the first
    exception ends the run. *)
Fixpoint process_files (ai_active : bool) (rules : Rules)
    (seen : gset (Z * str)) (uploads : list upload)
  : outcome (list reviewed) :=
  match uploads with
  | [] => Returned []
  | u :: rest =>
      match process_file ai_active rules seen u with
      | Raised e r => Raised e [r]
      | Returned r =>
          match process_files ai_active rules
                  (seen_comments (annotated r)) rest with
          | Returned rs => Returned (r :: rs)
          | Raised e rs => Raised e (r :: rs)
          end
      end
  end.

(** *** Document types and the process *)

Definition infer_doc_type_from_filename (file_path : str) : str :=
  let fname := lower (OsPath.basename file_path) in
  if contains "articles" fname then "Articles of Association"
  else if contains "memorandum" fname || contains "mou" fname
       then "Memorandum of Association"
  else if contains "register" fname
       then "Register of Members and Directors"
  else if contains "resolution" fname then "Board Resolution"
  else if contains "ubo" fname then "UBO Declaration Form"
  else "Unknown".

(** Steps 1 and 3 of the loop body: the type from the file name, and from
    the content when the name tells nothing.
    [infer_doc_type_from_text(...) or "Unknown"] *)
Definition detect_doc_type (file_path : str) (info : DocInfo) : str :=
  let doc_type := infer_doc_type_from_filename file_path in
  if bool_decide (doc_type = "Unknown")
  then (let t := infer_doc_type_from_text (full_text info) in
        if truthy t then t else "Unknown")
  else doc_type.

Definition incorporation_markers : gset str :=
  list_to_set
    [ "articles of association"; "memorandum of association";
      "board resolution"; "shareholder resolution";
      "ubo declaration form"; "register of members and directors";
      "incorporation application form";
      "change of registered address notice" ].

Definition detect_process_from_doc_types (doc_types : list str) : str :=
  let dt : gset str := list_to_set (lower <$> doc_types) in
  let markers : gset str := set_map lower incorporation_markers in
  if bool_decide (dt ∩ markers ≠ ∅) then "Company Incorporation"
  else "Unknown".

(** The batch-level list of missing documents:
    [[doc for doc in rules.get("required_documents", [])
      if doc.lower() not in found_docs]] with
    [found_docs = [doc_type.lower(), ...]]. *)
Definition missing_documents (rules : Rules) (detected : list str)
    : list str :=
  let found_docs := lower <$> detected in
  filter (λ d, lower d ∉ found_docs) (required_documents rules).

End Main.

(** ** Vocabulary of the specification

    Definitions that follow the wording of the specification; the
    properties below compare them with the functions above. *)

Module Spec.
Import Text Py AiAgent AdgmAnalyzer DocumentProcessor Main.

(** Number of times a flag occurs in a result. *)
Definition occurrences (f : RedFlag) (flags : list RedFlag) : nat :=
  length (filter (λ g, g = f) flags).

(** The snippet occurs, case-insensitively, in paragraph [i]. *)
Definition occurs_in (snippet : str) (paragraphs : list str) (i : Z)
  : bool :=
  (0 <=? i)
  && match paragraphs !! Z.to_nat i with
     | Some p => contains (lower snippet) (lower p)
     | None => false
     end.

(** Every paragraph index at which the snippet occurs, in document
    order. *)
Definition matching_indexes (snippet : str) (paragraphs : list str)
  : list Z :=
  filter (λ i, occurs_in snippet paragraphs i = true)
         (seqZ 0 (Z.of_nat (length paragraphs))).

(** The last index of a list, or 0 for an empty list. *)
Definition last_index {A} (l : list A) : Z :=
  match l with
  | [] => 0
  | _ => Z.of_nat (length l) - 1
  end.

(** The first hit when there is one, otherwise the last paragraph. *)
Definition first_or_last (hits : list Z) (paragraphs : list str) : Z :=
  default (last_index paragraphs) (head hits).

(** An index within the document stays; any other goes to the last
    paragraph. *)
Definition redirected_index (doc : Document) (para_index : Z) : Z :=
  if (0 <=? para_index) && (para_index <? Z.of_nat (length doc))
  then para_index else last_index doc.

(** The keywords the rule set requires for a document type: none when the
    mapping, the entry, or its value is missing. *)
Definition required_keywords (rules : Rules) (doc_type : str) : list str :=
  match clauses_per_doc rules with
  | Some per_doc =>
      match per_doc !! doc_type with
      | Some (Some keywords) => keywords
      | _ => []
      end
  | None => []
  end.

(** The keywords whose lowercased form does not occur in the lowercased
    text, in the order given. *)
Definition absent_keywords (text : str) (keywords : list str) : list str :=
  filter (λ k, contains (lower k) (lower text) = false) keywords.

(** The keywords as the loop sees them: trimmed, blank ones dropped. *)
Definition trimmed_keywords (keywords : list str) : list str :=
  filter (λ k, k ≠ []) (strip <$> keywords).

(** The set [seen_comments] holds exactly the keys of the calls made, and
    no key was used twice. *)
Definition consistent (st : annotation) : Prop :=
  NoDup (key_of_call <$> calls st)
  ∧ ∀ k, k ∈ seen_comments st ↔ k ∈ key_of_call <$> calls st.

(** The advisory fields a suggestion may add to a finding. *)
Definition ai_fields : list str :=
  ["suggestion_ai"; "rationale_ai"; "citation_label"].

(** Either key contains the other. *)
Definition symmetric_substring (a b : str) : bool :=
  contains a b || contains b a.

(** A finding a suggestion can be merged into: its key is not empty and
    is in the symmetric-substring relation with the suggestion's key. *)
Definition related (sug issue : gmap str str) : bool :=
  truthy (issue_key issue)
  && symmetric_substring (sug_key sug) (issue_key issue).

(** Reconciliation of one applicable suggestion in the words of the
    specification: enrich the first finding whose key is in the
    symmetric-substring relation, otherwise append. *)
Definition reconcile_by_substring (doc_type : str)
    (findings : list (gmap str str)) (sug : gmap str str)
  : list (gmap str str) :=
  match list_find (λ f, symmetric_substring (sug_key sug) (issue_key f)
                        = true) findings with
  | Some (i, _) => alter (enrich sug) i findings
  | None => findings ++ [standalone doc_type (sug_issue_raw sug) sug]
  end.

(** The value of a call that returned, the exception of one that did
    not. *)
Definition returned {A} (o : outcome A) : option A :=
  match o with Returned a => Some a | Raised _ _ => None end.

Definition raised {A} (o : outcome A) : option exn :=
  match o with Returned _ => None | Raised e _ => Some e end.

(** Characters of a normalized key: lower-case letters, digits and the
    space. *)
Definition key_char (c : ascii) : bool :=
  is_lower_char c || is_digit_char c || bool_decide (c = " "%char).

(** Blanks are single spaces, none next to another; [after_blank] tells
    whether the character before the string was a blank. *)
Fixpoint spaced (after_blank : bool) (s : str) : bool :=
  match s with
  | [] => true
  | c :: s' =>
      if is_space c
      then negb after_blank && bool_decide (c = " "%char) && spaced true s'
      else spaced false s'
  end.

(** A run of blanks becomes one space; [in_run] tells whether the
    character before the string was a blank. *)
Fixpoint collapse (in_run : bool) (s : str) : str :=
  match s with
  | [] => []
  | c :: s' =>
      if is_space c
      then (if in_run then collapse true s'
            else " "%char :: collapse true s')
      else c :: collapse false s'
  end.

(** The shape of every key the normalizer returns. *)
Definition clean (s : str) : Prop :=
  Forall (λ c, key_char c = true) s ∧ spaced false s = true ∧ strip s = s.

(** An applicable suggestion that none of the precomputed keys matches. *)
Definition unmatched (doc_type : str) (keys : list str)
    (sug : gmap str str) : bool :=
  doc_type_accepts_issue_key doc_type (sug_key sug)
  && forallb (λ k, negb (keys_match (sug_key sug) k)) keys.

(** The document obtained by making the logged calls one after another. *)
Definition replay (document : Document) (log : list call) : Document :=
  foldl (λ d c, state_of (annotate_paragraph d (call_index c)
                            (call_comment c) (call_highlight c)))
        document log.

(** What step 7 keeps true of its state after at most [n] comments on a
    document [document] with extracted paragraphs [paragraphs]. *)
Definition annotated_within (document : Document) (paragraphs : list str)
    (n : nat) (st : annotation) : Prop :=
  (length (calls st) ≤ n)%nat
  ∧ Forall (λ c, 0 ≤ call_index c
                 ≤ Z.max 0 (Z.of_nat (length paragraphs) - 1)) (calls st)
  ∧ doc st = replay document (calls st).


(** The score [retrieve_top_k] gives a reference. *)
Definition score_of (query : str) (r : Ref) : Z :=
  _score_overlap query (text r).


(** ASCII text ([s.isascii()]): the strings on which [lower], [upper] and
    [strip] above are Python's. *)
Definition isascii (s : str) : bool :=
  forallb (λ c, (code c <? 128)%N) s.

(** The text with every CR turned into LF. *)
Definition line_feeds (s : str) : str :=
  map (λ c, if bool_decide (c = "013"%char) then "010"%char else c) s.

(** A proper prefix. *)
Definition cut_short (written text : str) : Prop :=
  ∃ rest, rest ≠ [] ∧ text = written ++ rest.

End Spec.

(** * Properties *)

Import Text Py Regex AiAgent AdgmAnalyzer DocumentProcessor Main Spec.

(** Case analysis on every integer comparison of the goal. *)
Ltac cases_bool :=
  repeat match goal with
         | |- context [?a <=? ?b] => destruct (Z.leb_spec a b)
         | |- context [?a <? ?b] => destruct (Z.ltb_spec a b)
         end.

(** ** Strings *)

Section TextFacts.

Lemma startswith_spec (p s : str) :
  startswith p s = true ↔ ∃ r, s = p ++ r.
Proof.
  revert s. induction p as [|a p IH]; intros s; simpl.
  - split; eauto.
  - destruct s as [|b s].
    + split; [done | intros [r Hr]; done].
    + rewrite andb_true_iff, bool_decide_eq_true, IH. split.
      * intros [-> [r ->]]. eauto.
      * intros [r Hr]. injection Hr as -> ->. eauto.
Qed.

Lemma contains_spec (needle hay : str) :
  contains needle hay = true ↔ ∃ a b, hay = a ++ needle ++ b.
Proof.
  induction hay as [|c hay IH]; simpl.
  - rewrite orb_false_r, startswith_spec. split.
    + intros [r Hr]. exists [], r. done.
    + intros (a & b & Hab). symmetry in Hab.
      apply app_eq_nil in Hab as [-> Hab].
      apply app_eq_nil in Hab as [-> ->]. by exists [].
  - rewrite orb_true_iff, startswith_spec, IH. split.
    + intros [[r Hr]|(a & b & ->)].
      * exists [], r. done.
      * exists (c :: a), b. done.
    + intros (a & b & Hab). destruct a as [|c' a]; simpl in Hab.
      * left. eauto.
      * right. injection Hab as -> ->. eauto.
Qed.

Lemma contains_app_mid (needle a b : str) :
  contains needle (a ++ needle ++ b) = true.
Proof. apply contains_spec. eauto. Qed.

Lemma contains_prefix_of (needle rest a b : str) :
  contains needle (a ++ (needle ++ rest) ++ b) = true.
Proof. apply contains_spec. exists a, (rest ++ b). by rewrite <- app_assoc. Qed.

Lemma contains_nil (hay : str) : contains [] hay = true.
Proof. by destruct hay. Qed.

Lemma contains_elem (c : ascii) (hay : str) :
  contains [c] hay = true → c ∈ hay.
Proof.
  intros (a & b & ->)%contains_spec. set_solver.
Qed.

Lemma lower_app (a b : str) : lower (a ++ b) = lower a ++ lower b.
Proof. apply map_app. Qed.

Lemma truthy_false (s : str) : truthy s = false ↔ s = [].
Proof. by destruct s. Qed.

Lemma truthy_true (s : str) : truthy s = true ↔ s ≠ [].
Proof. by destruct s. Qed.

Lemma truthy_lower (s : str) : truthy (lower s) = truthy s.
Proof. by destruct s. Qed.

End TextFacts.

(** ** Red flags *)

Section RedFlags.

Lemma occurrences_app f l1 l2 :
  occurrences f (l1 ++ l2) = (occurrences f l1 + occurrences f l2)%nat.
Proof. unfold occurrences. by rewrite filter_app, length_app. Qed.

Lemma occurrences_find_red_flags (di : DocInfo) (dt : option str) :
  let text := lower (default "" (full_text di)) in
  occurrences signatory_flag (find_red_flags di dt) =
    if in_requires_signature dt
       && (negb (contains "sign" text) && negb (contains "signature" text))
    then 1%nat else 0%nat.
Proof.
  intros text. unfold find_red_flags. fold text.
  destruct (contains "uae federal court" text);
    destruct (existsb _ ambiguous_markers);
    destruct (in_requires_signature dt && _); reflexivity.
Qed.

Lemma signature_label_contains_sign (a b : str) :
  contains "sign" (lower (a ++ "Signature:" ++ b)) = true.
Proof.
  rewrite !lower_app.
  change (lower "Signature:") with ("sign" ++ "ature:").
  apply contains_prefix_of.
Qed.

(** C7.  For a document of a signature-bearing type the missing-signatory
    flag occurs exactly once when neither "sign" nor "signature" occurs in
    the lowercased full text, and not at all otherwise; it never occurs
    for a type outside the set; and a text into which "Signature:" has
    been inserted anywhere never carries it. *)
Theorem missing_signatory_flag (di : DocInfo) (dt : option str) :
  let text := lower (default "" (full_text di)) in
  let n := occurrences signatory_flag (find_red_flags di dt) in
  (in_requires_signature dt = true →
     (n = 1%nat ↔
        contains "sign" text = false ∧ contains "signature" text = false)
     ∧ (n = 0%nat ↔
        ¬ (contains "sign" text = false ∧ contains "signature" text = false)))
  ∧ (in_requires_signature dt = false → n = 0%nat)
  ∧ (∀ a b, full_text di = Some (a ++ "Signature:" ++ b) → n = 0%nat).
Proof.
  intros text n. subst n. rewrite occurrences_find_red_flags. fold text.
  split; [|split].
  - intros ->. simpl.
    destruct (contains "sign" text), (contains "signature" text);
      simpl; intuition congruence.
  - intros ->. done.
  - intros a b Hab.
    replace text with (lower (a ++ "Signature:" ++ b))
      by (unfold text; by rewrite Hab).
    rewrite signature_label_contains_sign. simpl.
    by rewrite andb_false_r.
Qed.

Lemma missing_signatory_flag_witness :
  let di := {| paragraphs := ["Board Resolution"; "Resolved as follows."];
               headings := [];
               full_text := Some ("Board Resolution" ++ ["010"%char]
                                  ++ "Resolved as follows.") |} in
  let di' := {| paragraphs := ["Board Resolution"; "Signature: A. Director"];
                headings := [];
                full_text := Some ("Board Resolution" ++ ["010"%char]
                                   ++ "Signature:" ++ " A. Director") |} in
  occurrences signatory_flag (find_red_flags di (Some "Board Resolution"))
    = 1%nat
  ∧ occurrences signatory_flag
      (find_red_flags di (Some "Register of Members and Directors")) = 0%nat
  ∧ occurrences signatory_flag (find_red_flags di' (Some "Board Resolution"))
    = 0%nat.
Proof.
  intros di di'. split; [|split].
  - apply (proj1 (missing_signatory_flag di (Some "Board Resolution")));
      [reflexivity | split; reflexivity].
  - apply (proj1 (proj2 (missing_signatory_flag di
              (Some "Register of Members and Directors")))).
    reflexivity.
  - apply (proj2 (proj2 (missing_signatory_flag di'
              (Some "Board Resolution")))
             ("Board Resolution" ++ ["010"%char]) " A. Director").
    reflexivity.
Defined.

End RedFlags.

(** ** Locating a finding *)

Section Location.

Lemma filter_ext_elem {A} (P Q : A → Prop) `{!∀ x, Decision (P x)}
    `{!∀ x, Decision (Q x)} (l : list A) :
  (∀ x, x ∈ l → (P x ↔ Q x)) → filter P l = filter Q l.
Proof.
  induction l as [|x l IH]; intros Hext; [done|].
  rewrite !filter_cons.
  rewrite IH by (intros y Hy; apply Hext; by right).
  pose proof (Hext x (list_elem_of_here x l)) as Hx.
  destruct (decide (P x)) as [HP|HP], (decide (Q x)) as [HQ|HQ];
    tauto || done.
Qed.

Lemma find_loop_spec (snippet : str) (paragraphs : list str) :
  ∀ (i : Z) (idxs : list Z),
    find_loop (lower snippet) i paragraphs idxs =
      idxs ++ filter (λ j, occurs_in snippet paragraphs (j - i) = true)
                     (seqZ i (Z.of_nat (length paragraphs))).
Proof.
  induction paragraphs as [|p rest IH]; intros i idxs.
  - simpl. by rewrite app_nil_r.
  - cbn [find_loop].
    rewrite seqZ_cons by (simpl; lia).
    replace (Z.pred (Z.of_nat (length (p :: rest))))
      with (Z.of_nat (length rest)) by (simpl; lia).
    rewrite filter_cons.
    assert (Hhead : occurs_in snippet (p :: rest) (i - i)
                    = contains (lower snippet) (lower p)).
    { unfold occurs_in. by replace (i - i) with 0 by lia. }
    assert (Htail :
      filter (λ j, occurs_in snippet (p :: rest) (j - i) = true)
             (seqZ (Z.succ i) (Z.of_nat (length rest)))
      = filter (λ j, occurs_in snippet rest (j - (i + 1)) = true)
             (seqZ (Z.succ i) (Z.of_nat (length rest)))).
    { apply filter_ext_elem. intros j Hj%elem_of_seqZ.
      unfold occurs_in.
      replace (Z.to_nat (j - i)) with (S (Z.to_nat (j - (i + 1)))) by lia.
      replace (0 <=? j - i) with true by (symmetry; apply Z.leb_le; lia).
      replace (0 <=? j - (i + 1)) with true
        by (symmetry; apply Z.leb_le; lia).
      done. }
    rewrite Htail, Hhead.
    replace (Z.succ i) with (i + 1) by lia.
    destruct (contains (lower snippet) (lower p)) eqn:Hc.
    + rewrite IH. rewrite decide_True by done. by rewrite <- app_assoc.
    + rewrite IH. by rewrite decide_False by done.
Qed.

Lemma find_paragraph_indexes_matching (snippet : str)
    (paragraphs : list str) :
  find_paragraph_indexes snippet paragraphs =
    if truthy snippet then matching_indexes snippet paragraphs else [].
Proof.
  unfold find_paragraph_indexes, matching_indexes.
  destruct (truthy snippet); [|done]. simpl negb. cbv iota.
  rewrite find_loop_spec. simpl.
  apply filter_ext_elem. intros j _. by replace (j - 0) with j by lia.
Qed.

Lemma find_paragraph_indexes_guarded (snippet : str)
    (paragraphs : list str) :
  (if truthy snippet then find_paragraph_indexes snippet paragraphs
   else []) = find_paragraph_indexes snippet paragraphs.
Proof. unfold find_paragraph_indexes. by destruct (truthy snippet). Qed.

Lemma target_first_or_last (hits : list Z) (paragraphs : list str) :
  target hits paragraphs = first_or_last hits paragraphs.
Proof.
  unfold target, first_or_last, last_index.
  destruct hits as [|i hits]; [|done]. simpl.
  destruct paragraphs as [|p ps]; [done|]. simpl length. lia.
Qed.

(** C8.  The resolver returns every index at which the lowercased snippet
    occurs in the lowercased paragraph, in document order, and nothing
    for an empty snippet; each of the three call sites writes to the
    first returned index, or to the last paragraph (index 0 in a document
    without paragraphs) when nothing is returned. *)
Theorem find_paragraph_indexes_all_matches (snippet : str)
    (paragraphs : list str) :
  find_paragraph_indexes snippet paragraphs =
    (if truthy snippet then matching_indexes snippet paragraphs else [])
  ∧ (∀ st clause,
       annotate_clause paragraphs st clause =
         annotate_once st
           (first_or_last (find_paragraph_indexes clause paragraphs)
              paragraphs)
           ("Missing required clause: " ++ clause) "YELLOW")
  ∧ (∀ st rf,
       annotate_red_flag paragraphs st rf =
         annotate_once st
           (first_or_last (find_paragraph_indexes (rf_match rf) paragraphs)
              paragraphs)
           ("Red flag: " ++ rf_issue rf) "RED")
  ∧ (∀ st sug,
       annotate_suggestion paragraphs st sug =
         annotate_once st
           (first_or_last
              (find_paragraph_indexes
                 (strip (split_head ":" (get sug "issue" ""))) paragraphs)
              paragraphs)
           (suggestion_comment sug) "YELLOW").
Proof.
  split; [apply find_paragraph_indexes_matching|].
  split; [|split]; intros st x.
  - unfold annotate_clause. by rewrite target_first_or_last.
  - unfold annotate_red_flag.
    by rewrite find_paragraph_indexes_guarded, target_first_or_last.
  - unfold annotate_suggestion.
    by rewrite find_paragraph_indexes_guarded, target_first_or_last.
Qed.

End Location.

(** ** Writing a comment *)

Section Annotate.

Lemma effective_index_redirected (doc : Document) (para_index : Z) :
  effective_index doc para_index = redirected_index doc para_index.
Proof.
  unfold effective_index, redirected_index, last_index.
  destruct doc as [|p doc]; simpl length;
    cases_bool; simpl; lia.
Qed.

Lemma redirected_index_range (doc : Document) (para_index : Z) :
  doc ≠ [] →
  0 ≤ redirected_index doc para_index < Z.of_nat (length doc).
Proof.
  intros Hne. unfold redirected_index, last_index.
  destruct doc as [|p doc]; [done|]. simpl length.
  cases_bool; simpl; lia.
Qed.

Lemma content_text_snoc (content : list inline) (e : inline) :
  content_text (content ++ [e]) = content_text content ++ inline_text e.
Proof.
  unfold content_text. rewrite map_app, concat_app. cbn [map concat].
  by rewrite app_nil_r.
Qed.

Lemma xml_compatible_app (a b : str) :
  xml_compatible (a ++ b) = xml_compatible a && xml_compatible b.
Proof. apply forallb_app. Qed.

Lemma xml_compatible_comment (comment_text : str) :
  xml_compatible (" [COMMENT: " ++ comment_text ++ "]")
  = xml_compatible comment_text.
Proof.
  rewrite !xml_compatible_app.
  replace (xml_compatible " [COMMENT: ") with true by reflexivity.
  replace (xml_compatible "]") with true by reflexivity.
  cbn [andb]. apply andb_true_r.
Qed.

Lemma flush_text_spec (bfr : str) (content : list inline) :
  if xml_compatible bfr
  then ∃ content', flush_text bfr content = Returned content'
                   ∧ content_text content' = content_text content ++ bfr
  else flush_text bfr content = Raised ValueError content ∧ bfr ≠ [].
Proof.
  unfold flush_text, add_t. destruct bfr as [|c bfr].
  - cbn. exists content. by rewrite app_nil_r.
  - cbn [truthy]. destruct (xml_compatible (c :: bfr)).
    + eexists. split; [done|]. apply content_text_snoc.
    + done.
Qed.

(** A tab or a line end: the pending characters are written, then the
    element of the separator. *)
Lemma add_text_separator (e : inline) (sep : ascii) (text bfr : str)
    (content : list inline) (o : outcome (list inline)) :
  xml_char sep = true →
  inline_text e = line_feeds [sep] →
  o = match flush_text bfr content with
      | Returned content' => add_text text [] (content' ++ [e])
      | Raised e' content' => Raised e' content'
      end →
  (∀ bfr content,
     if xml_compatible (bfr ++ text)
     then ∃ content', add_text text bfr content = Returned content'
            ∧ content_text content'
              = content_text content ++ bfr ++ line_feeds text
     else ∃ content', add_text text bfr content = Raised ValueError content'
            ∧ cut_short (content_text content')
                (content_text content ++ bfr ++ line_feeds text)) →
  if xml_compatible (bfr ++ sep :: text)
  then ∃ content', o = Returned content'
         ∧ content_text content'
           = content_text content ++ bfr ++ line_feeds (sep :: text)
  else ∃ content', o = Raised ValueError content'
         ∧ cut_short (content_text content')
             (content_text content ++ bfr ++ line_feeds (sep :: text)).
Proof.
  intros Hsep He -> IH.
  assert (E : ∀ pre, pre ++ bfr ++ line_feeds (sep :: text)
                     = ((pre ++ bfr) ++ inline_text e) ++ line_feeds text).
  { intros pre. rewrite He. cbn [line_feeds map].
    by rewrite <- !app_assoc. }
  rewrite xml_compatible_app. cbn [xml_compatible forallb].
  rewrite Hsep. cbn [andb]. fold (xml_compatible text).
  pose proof (flush_text_spec bfr content) as Hf.
  destruct (xml_compatible bfr); cbn [andb].
  - destruct Hf as (c1 & -> & H1).
    specialize (IH [] (c1 ++ [e])). cbn [app] in IH.
    rewrite content_text_snoc, H1 in IH. rewrite E.
    destruct (xml_compatible text).
    + destruct IH as (c' & -> & Ht). by exists c'.
    + destruct IH as (c' & -> & Hcut). by exists c'.
  - destruct Hf as [-> Hne]. exists content. split; [done|].
    exists (bfr ++ line_feeds (sep :: text)). split; [by destruct bfr | done].
Qed.

(** What [add_text] leaves in the run: the whole text, read back with LF
    for CR, when every character is acceptable, and otherwise a proper
    prefix of it, with a [ValueError]. *)
Lemma add_text_spec (text : str) :
  ∀ (bfr : str) (content : list inline),
    if xml_compatible (bfr ++ text)
    then ∃ content', add_text text bfr content = Returned content'
           ∧ content_text content'
             = content_text content ++ bfr ++ line_feeds text
    else ∃ content', add_text text bfr content = Raised ValueError content'
           ∧ cut_short (content_text content')
               (content_text content ++ bfr ++ line_feeds text).
Proof.
  induction text as [|char text IH]; intros bfr content.
  - rewrite app_nil_r. cbn [add_text line_feeds map].
    pose proof (flush_text_spec bfr content) as Hf.
    destruct (xml_compatible bfr).
    + destruct Hf as (c' & -> & Ht). exists c'. by rewrite app_nil_r.
    + destruct Hf as [-> Hne]. exists content. split; [done|].
      exists bfr. by rewrite app_nil_r.
  - cbn [add_text].
    destruct (bool_decide_reflect (char = "009"%char)) as [->|Htab].
    { by apply (add_text_separator W_tab). }
    destruct (bool_decide_reflect (char ∈ ["013"; "010"]%char)) as [Hnl|Hnl].
    { apply (add_text_separator W_br); try done.
      - rewrite !elem_of_cons, elem_of_nil in Hnl.
        by destruct Hnl as [->|[->|[]]].
      - rewrite !elem_of_cons, elem_of_nil in Hnl.
        by destruct Hnl as [->|[->|[]]]. }
    specialize (IH (bfr ++ [char]) content).
    rewrite <- !app_assoc in IH. cbn [app] in IH.
    cbn [line_feeds map]. fold (line_feeds text).
    rewrite bool_decide_eq_false_2; [exact IH|].
    intros ->. apply Hnl. left.
Qed.

(** The run a comment leaves behind. *)
Lemma comment_run_spec (comment_text highlight : str) :
  if xml_compatible comment_text
  then ∃ run, comment_run comment_text highlight = Returned run
         ∧ run_bold run = Some true
         ∧ run_highlight run = Some (highlight_color highlight)
         ∧ run_text run = line_feeds (" [COMMENT: " ++ comment_text ++ "]")
  else ∃ run, comment_run comment_text highlight = Raised ValueError run
         ∧ run_bold run = None
         ∧ run_highlight run = None
         ∧ cut_short (run_text run)
             (line_feeds (" [COMMENT: " ++ comment_text ++ "]")).
Proof.
  unfold comment_run, add_run.
  change (truthy (" [COMMENT: " ++ comment_text ++ "]")) with true.
  cbv iota.
  pose proof (add_text_spec (" [COMMENT: " ++ comment_text ++ "]") [] [])
    as Ha.
  rewrite app_nil_l, xml_compatible_comment in Ha.
  change (content_text [] ++ [] ++ ?t) with t in Ha.
  destruct (xml_compatible comment_text).
  - destruct Ha as (c' & -> & Ht). eexists. split; [done|]. by cbn.
  - destruct Ha as (c' & -> & Hcut). eexists. split; [done|]. by cbn.
Qed.

Lemma annotate_body_nonempty (doc : Document) (para_index : Z)
    (comment_text highlight : str) :
  doc ≠ [] →
  ∃ para,
    doc !! Z.to_nat (redirected_index doc para_index) = Some para
    ∧ annotate_body doc para_index comment_text highlight =
        match comment_run comment_text highlight with
        | Returned run =>
            Returned (<[Z.to_nat (redirected_index doc para_index) :=
                          para ++ [run]]> doc)
        | Raised e run =>
            Raised e (<[Z.to_nat (redirected_index doc para_index) :=
                          para ++ [run]]> doc)
        end.
Proof.
  intros Hne. unfold annotate_body.
  rewrite effective_index_redirected.
  pose proof (redirected_index_range doc para_index Hne) as Hr.
  set (i := redirected_index doc para_index) in *.
  destruct (lookup_lt_is_Some_2 doc (Z.to_nat i)) as [para Hp]; [lia|].
  exists para. split; [done|].
  unfold py_item.
  replace (0 <=? i) with true by (symmetry; apply Z.leb_le; lia).
  replace (i <? Z.of_nat (length doc)) with true
    by (symmetry; apply Z.ltb_lt; lia).
  cbn [andb]. by rewrite Hp.
Qed.

Lemma annotate_body_empty (para_index : Z) (comment_text highlight : str) :
  annotate_body [] para_index comment_text highlight = Raised IndexError [].
Proof.
  unfold annotate_body, py_item, effective_index. simpl length.
  cases_bool; simpl; try done; lia.
Qed.

(** The document a call leaves: the paragraph at the redirected index has
    one more run. *)
Lemma annotate_paragraph_state (doc : Document) (para_index : Z)
    (comment_text highlight : str) :
  state_of (annotate_paragraph doc para_index comment_text highlight) =
    alter (λ para, para ++ [state_of (comment_run comment_text highlight)])
          (Z.to_nat (redirected_index doc para_index)) doc.
Proof.
  destruct doc as [|p doc].
  - unfold annotate_paragraph. by rewrite annotate_body_empty.
  - destruct (annotate_body_nonempty (p :: doc) para_index comment_text
                highlight) as (para & Hp & Hb); [done|].
    unfold annotate_paragraph. rewrite Hb.
    assert (E : ∀ run : Run,
              <[Z.to_nat (redirected_index (p :: doc) para_index) :=
                  para ++ [run]]> (p :: doc)
              = alter (λ para, para ++ [run])
                  (Z.to_nat (redirected_index (p :: doc) para_index))
                  (p :: doc)).
    { intros run. apply list_eq. intros j.
      rewrite list_lookup_alter, list_lookup_insert.
      destruct (decide (Z.to_nat (redirected_index (p :: doc) para_index)
                        = j)) as [<-|Hne].
      + rewrite Hp. rewrite decide_True; [done|].
        split; [done|]. by eapply lookup_lt_Some.
      + rewrite decide_False; [done|]. by intros [? _]. }
    destruct (comment_run comment_text highlight) as [run|e run];
      cbn [state_of]; apply E.
Qed.

(** C10.  The call returns for every document and every integer index;
    an index outside the document is redirected to the last paragraph
    (to 0 when there is none).  On a document without paragraphs the body
    raises, the exception is caught and the document is left as it was.
    On any other document exactly one run is added at the end of the
    paragraph at the redirected index: when the comment holds no character
    that XML rejects, the body returns and the run is bold, highlighted
    and reads back as the comment (LF for CR); otherwise writing the text
    raises, the exception is caught, and the run stays in the paragraph,
    neither bold nor highlighted, with only a proper prefix of the text.
    The highlight is red exactly when the ASCII highlight name, trimmed
    and upper-cased, is RED, and yellow otherwise. *)
Theorem annotate_paragraph_total (doc : Document) (para_index : Z)
    (comment_text highlight : str) :
  (∃ doc', annotate_paragraph doc para_index comment_text highlight
           = Returned doc')
  ∧ effective_index doc para_index = redirected_index doc para_index
  ∧ (doc = [] →
     annotate_body doc para_index comment_text highlight
     = Raised IndexError doc
     ∧ annotate_paragraph doc para_index comment_text highlight
       = Returned doc)
  ∧ (doc ≠ [] →
     ∃ para run,
       doc !! Z.to_nat (redirected_index doc para_index) = Some para
       ∧ annotate_paragraph doc para_index comment_text highlight =
           Returned (<[Z.to_nat (redirected_index doc para_index) :=
                         para ++ [run]]> doc)
       ∧ if xml_compatible comment_text
         then annotate_body doc para_index comment_text highlight =
                Returned (<[Z.to_nat (redirected_index doc para_index) :=
                              para ++ [run]]> doc)
              ∧ run_bold run = Some true
              ∧ is_Some (run_highlight run)
              ∧ (isascii highlight = true →
                 run_highlight run = Some (highlight_color highlight))
              ∧ run_text run
                = line_feeds (" [COMMENT: " ++ comment_text ++ "]")
         else annotate_body doc para_index comment_text highlight =
                Raised ValueError
                  (<[Z.to_nat (redirected_index doc para_index) :=
                       para ++ [run]]> doc)
              ∧ run_bold run = None
              ∧ run_highlight run = None
              ∧ cut_short (run_text run)
                  (line_feeds (" [COMMENT: " ++ comment_text ++ "]"))).
Proof.
  split; [|split; [|split]].
  - unfold annotate_paragraph.
    destruct (annotate_body _ _ _ _); eauto.
  - apply effective_index_redirected.
  - intros ->. unfold annotate_paragraph.
    by rewrite annotate_body_empty.
  - intros Hne.
    destruct (annotate_body_nonempty doc para_index comment_text
                highlight Hne) as (para & Hp & Hb).
    pose proof (comment_run_spec comment_text highlight) as Hrun.
    unfold annotate_paragraph. rewrite Hb.
    destruct (xml_compatible comment_text).
    + destruct Hrun as (run & -> & Hbold & Hhl & Htext).
      exists para, run. rewrite Hhl. by eauto 10.
    + destruct Hrun as (run & -> & Hbold & Hhl & Htext).
      by exists para, run.
Qed.

Lemma annotate_paragraph_total_witness :
  let doc : Document := [[]; []; []] in
  (∃ run, annotate_paragraph doc (-4) "Red flag: x" "RED"
          = Returned [[]; []; [run]]
          ∧ run_bold run = Some true
          ∧ run_highlight run = Some RED
          ∧ run_text run = " [COMMENT: Red flag: x]")
  ∧ (∃ run, annotate_paragraph doc 3 ("see" ++ ["012"%char] ++ "p. 2") "RED"
            = Returned [[]; []; [run]]
            ∧ run_bold run = None
            ∧ run_highlight run = None)
  ∧ annotate_paragraph [] 0 "Red flag: x" "RED" = Returned [].
Proof.
  intros doc. split; [|split].
  - destruct (proj2 (proj2 (proj2
        (annotate_paragraph_total doc (-4) "Red flag: x" "RED"))))
      as (para & run & Hp & -> & Hcase); [done|].
    vm_compute in Hp. injection Hp as <-.
    destruct Hcase as (_ & Hb & _ & Hh & Ht).
    exists run. split; [reflexivity|]. split; [exact Hb|].
    split; [exact (Hh eq_refl) | exact Ht].
  - destruct (proj2 (proj2 (proj2
        (annotate_paragraph_total doc 3 ("see" ++ ["012"%char] ++ "p. 2")
           "RED"))))
      as (para & run & Hp & -> & Hcase); [done|].
    vm_compute in Hp. injection Hp as <-.
    exists run. split; [reflexivity|].
    split; [exact (proj1 (proj2 Hcase)) | exact (proj1 (proj2 (proj2 Hcase)))].
  - apply (proj1 (proj2 (proj2
        (annotate_paragraph_total [] 0 "Red flag: x" "RED")))).
    reflexivity.
Defined.

(** C10 as stated fails: a form feed in the comment makes [add_run] raise
    after the run has been appended, so the caught failure leaves the
    document with one more, empty, run. *)
Lemma annotate_paragraph_failure_counterexample :
  let doc : Document := [[]] in
  let comment := "AI Suggestion: see" ++ ["012"%char] ++ "Schedule 2" in
  let left_behind :=
    {| run_content := []; run_bold := None; run_highlight := None |} in
  annotate_body doc 0 comment "YELLOW" = Raised ValueError [[left_behind]]
  ∧ annotate_paragraph doc 0 comment "YELLOW" = Returned [[left_behind]]
  ∧ ¬ (∀ (doc doc' : Document) (para_index : Z)
         (comment_text highlight : str) (e : exn),
         annotate_body doc para_index comment_text highlight
         = Raised e doc' →
         annotate_paragraph doc para_index comment_text highlight
         = Returned doc).
Proof.
  intros doc comment left_behind.
  split; [vm_compute; reflexivity|]. split; [vm_compute; reflexivity|].
  intros Hall.
  specialize (Hall doc [[left_behind]] 0 comment "YELLOW" ValueError
                ltac:(vm_compute; reflexivity)).
  vm_compute in Hall. discriminate Hall.
Qed.

End Annotate.

(** ** Required clauses *)

Section RequiredClauses.

Lemma missing_loop_spec (text : str) (required missing : list str) :
  missing_loop (lower text) required missing =
    missing ++ absent_keywords text (trimmed_keywords required).
Proof.
  revert missing. unfold absent_keywords, trimmed_keywords.
  induction required as [|clause rest IH]; intros missing.
  - simpl. by rewrite app_nil_r.
  - cbn [missing_loop]. rewrite fmap_cons, filter_cons.
    destruct (truthy (strip clause)) eqn:Ht; cbn [negb].
    + apply truthy_true in Ht. rewrite decide_True by done.
      rewrite filter_cons.
      destruct (contains (lower (strip clause)) (lower text)) eqn:Hc;
        cbn [negb].
      * rewrite decide_False by done. apply IH.
      * rewrite decide_True by done.
        rewrite IH. by rewrite <- app_assoc.
    + apply truthy_false in Ht. rewrite decide_False by auto. apply IH.
Qed.

Lemma check_required_clauses_required (di : DocInfo) (dt : str)
    (rules : Rules) :
  check_required_clauses di dt rules =
    missing_loop (lower (default "" (full_text di)))
      (required_keywords rules dt) [].
Proof.
  unfold check_required_clauses, required_keywords.
  destruct (clauses_per_doc rules) as [per_doc|]; simpl.
  - by destruct (per_doc !! dt) as [[?|]|].
  - by rewrite lookup_empty.
Qed.

Lemma trimmed_keywords_id (keywords : list str) (text : str) :
  Forall (λ k, strip k = k) keywords →
  absent_keywords text (trimmed_keywords keywords)
  = absent_keywords text keywords.
Proof.
  unfold absent_keywords, trimmed_keywords.
  induction 1 as [|k ks Hk _ IH]; [done|].
  rewrite fmap_cons, Hk, !filter_cons, <- IH.
  destruct k as [|c k].
  - rewrite decide_False by auto.
    rewrite decide_False; [done|]. by rewrite contains_nil.
  - by rewrite decide_True by done.
Qed.

(** C3, as the code has it.  The result lists, in rule-set order, the
    trimmed form of every required keyword that is not blank and whose
    lowercased trimmed form does not occur in the lowercased full text;
    for keywords without surrounding blanks these are exactly the
    keywords whose lowercased form does not occur; and when the rule set
    has no entry, or a null entry, for the document type the result is
    empty. *)
Theorem check_required_clauses_trimmed (di : DocInfo) (dt : str)
    (rules : Rules) :
  let text := default "" (full_text di) in
  check_required_clauses di dt rules =
    absent_keywords text (trimmed_keywords (required_keywords rules dt))
  ∧ (Forall (λ k, strip k = k) (required_keywords rules dt) →
     check_required_clauses di dt rules =
       absent_keywords text (required_keywords rules dt))
  ∧ ((∀ per_doc, clauses_per_doc rules = Some per_doc →
        per_doc !! dt = None ∨ per_doc !! dt = Some None) →
     check_required_clauses di dt rules = []).
Proof.
  intros text.
  assert (Heq : check_required_clauses di dt rules =
    absent_keywords text (trimmed_keywords (required_keywords rules dt))).
  { rewrite check_required_clauses_required. apply missing_loop_spec. }
  split; [done|]. split.
  - intros Hk. rewrite Heq. by apply trimmed_keywords_id.
  - intros Hno. rewrite Heq. unfold required_keywords.
    destruct (clauses_per_doc rules) as [per_doc|]; [|done].
    by destruct (Hno per_doc eq_refl) as [-> | ->].
Qed.

Lemma check_required_clauses_trimmed_witness :
  let di := {| paragraphs := ["Quorum: two directors"];
               headings := [];
               full_text := Some "Quorum: two directors" |} in
  let rules := {| clauses_per_doc :=
                    Some {[ "Board Resolution" :=
                              Some ["Quorum"; "Jurisdiction"];
                            "UBO Declaration Form" := None ]};
                  required_documents := [] |} in
  check_required_clauses di "Board Resolution" rules = ["Jurisdiction"]
  ∧ check_required_clauses di "UBO Declaration Form" rules = []
  ∧ check_required_clauses di "Unknown" rules = [].
Proof.
  intros di rules. split; [|split].
  - rewrite (proj1 (proj2 (check_required_clauses_trimmed di
               "Board Resolution" rules))).
    + reflexivity.
    + vm_compute. repeat constructor.
  - apply (proj2 (proj2 (check_required_clauses_trimmed di
               "UBO Declaration Form" rules))).
    intros per_doc [= <-]. right. reflexivity.
  - apply (proj2 (proj2 (check_required_clauses_trimmed di
               "Unknown" rules))).
    intros per_doc [= <-]. left. reflexivity.
Defined.

(** C3 as stated fails: a keyword written with surrounding blanks is
    compared, and reported, in trimmed form. *)
Lemma check_required_clauses_untrimmed_counterexample :
  let di := {| paragraphs := ["Quorum: two directors"];
               headings := [];
               full_text := Some "Quorum: two directors" |} in
  let rules := {| clauses_per_doc :=
                    Some {[ "Board Resolution" := Some [" Quorum "] ]};
                  required_documents := [] |} in
  absent_keywords "Quorum: two directors"
    (required_keywords rules "Board Resolution") = [" Quorum "]
  ∧ check_required_clauses di "Board Resolution" rules = []
  ∧ ¬ (∀ (di : DocInfo) (dt : str) (rules : Rules),
         check_required_clauses di dt rules =
           absent_keywords (default "" (full_text di))
             (required_keywords rules dt)).
Proof.
  intros di rules. split; [reflexivity|]. split; [reflexivity|].
  intros Hall. specialize (Hall di "Board Resolution" rules).
  vm_compute in Hall. discriminate Hall.
Qed.

End RequiredClauses.

(** ** Annotation targets *)

Section Dedup.

Lemma consistent_initial (d : Document) :
  consistent {| doc := d; seen_comments := ∅; calls := [] |}.
Proof. split; [constructor | set_solver]. Qed.

Lemma annotate_once_consistent (st : annotation) (index : Z)
    (comment highlight : str) :
  consistent st → consistent (annotate_once st index comment highlight).
Proof.
  intros [Hnd Hseen]. unfold annotate_once.
  destruct (bool_decide_reflect
              (dedup_key index comment ∈ seen_comments st)) as [Hin|Hnot];
    [done|].
  split; simpl; rewrite fmap_app; simpl.
  - apply NoDup_app. split; [done|]. split.
    + intros k Hk ->%list_elem_of_singleton. apply Hnot, Hseen, Hk.
    + apply NoDup_singleton.
  - intros k. rewrite elem_of_union, elem_of_app, Hseen.
    by rewrite elem_of_singleton, list_elem_of_singleton.
Qed.

Lemma foldl_consistent {A} (f : annotation → A → annotation)
    (l : list A) :
  (∀ st x, consistent st → consistent (f st x)) →
  ∀ st, consistent st → consistent (foldl f st l).
Proof.
  intros Hf. induction l as [|x l IH]; intros st Hst; [done|].
  simpl. apply IH, Hf, Hst.
Qed.

Lemma annotate_document_consistent (seen : gset (Z * str))
    (d : Document) (paragraphs missing_clauses : list str)
    (red_flags : list RedFlag) (ai_suggestions : list (gmap str str)) :
  consistent (annotate_document seen d paragraphs missing_clauses
                red_flags ai_suggestions).
Proof.
  unfold annotate_document.
  apply foldl_consistent;
    [intros; by apply annotate_once_consistent|].
  apply foldl_consistent;
    [intros; by apply annotate_once_consistent|].
  apply foldl_consistent;
    [intros; by apply annotate_once_consistent|].
  apply consistent_initial.
Qed.

Lemma process_file_calls (ai_active : bool) (rules : Rules)
    (seen : gset (Z * str)) (u : upload) :
  NoDup (key_of_call <$>
           calls (annotated (state_of (process_file ai_active rules seen u)))).
Proof.
  unfold process_file.
  destruct (if ai_active then _ else _); simpl.
  - apply annotate_document_consistent.
  - constructor.
Qed.

Lemma process_files_calls (ai_active : bool) (rules : Rules)
    (uploads : list upload) :
  ∀ seen r,
    r ∈ state_of (process_files ai_active rules seen uploads) →
    NoDup (key_of_call <$> calls (annotated r)).
Proof.
  induction uploads as [|u rest IH]; intros seen r; simpl.
  - intros []%elem_of_nil.
  - pose proof (process_file_calls ai_active rules seen u) as Hu.
    destruct (process_file ai_active rules seen u) as [r0|e r0];
      simpl in *.
    + specialize (IH (seen_comments (annotated r0)) r).
      destruct (process_files ai_active rules _ rest); simpl in *;
        intros [->|Hr]%elem_of_cons; auto.
    + by intros ->%list_elem_of_singleton.
Qed.

(** C6.  The calls made for one document carry pairwise different
    (index, lowercased and trimmed comment) keys, over the three sources
    together; the set of keys is rebuilt from the empty set for every
    document, whatever it held before, and holds exactly the keys of the
    calls made; and this is so for every file of a batch. *)
Theorem annotation_targets_distinct (seen : gset (Z * str))
    (d : Document) (paragraphs missing_clauses : list str)
    (red_flags : list RedFlag) (ai_suggestions : list (gmap str str)) :
  let st := annotate_document seen d paragraphs missing_clauses red_flags
              ai_suggestions in
  NoDup (key_of_call <$> calls st)
  ∧ st = annotate_document ∅ d paragraphs missing_clauses red_flags
           ai_suggestions
  ∧ seen_comments st = list_to_set (key_of_call <$> calls st)
  ∧ ∀ ai_active rules uploads,
      Forall (λ r, NoDup (key_of_call <$> calls (annotated r)))
             (state_of (process_files ai_active rules seen uploads)).
Proof.
  intros st.
  destruct (annotate_document_consistent seen d paragraphs missing_clauses
              red_flags ai_suggestions) as [Hnd Hseen].
  split; [done|]. split; [done|]. split.
  - apply set_eq. intros k. rewrite elem_of_list_to_set. apply Hseen.
  - intros ai_active rules uploads. apply Forall_forall.
    intros r. apply process_files_calls.
Qed.

End Dedup.

(** ** Reconciliation *)

Section Reconcile.

Local Arguments merge_suggestion : simpl never.
Local Arguments normalize_issue_key : simpl never.
Local Arguments doc_type_accepts_issue_key : simpl never.

Lemma enrich_other_fields (sug f : gmap str str) (k : str) :
  k ∉ ai_fields → enrich sug f !! k = f !! k.
Proof.
  intros Hk. unfold enrich, ai_fields in *.
  rewrite !lookup_insert_ne; [done|..]; intros <-; apply Hk; set_solver.
Qed.

Lemma enrich_issue_key (sug f : gmap str str) :
  issue_key (enrich sug f) = issue_key f.
Proof.
  unfold issue_key, get. rewrite enrich_other_fields; [done|].
  unfold ai_fields. rewrite !elem_of_cons, elem_of_nil.
  intros [?|[?|[?|[]]]]; discriminate.
Qed.

Lemma enrich_fields (sug f : gmap str str) :
  enrich sug f !! "suggestion_ai" = Some (get sug "suggestion" "")
  ∧ enrich sug f !! "rationale_ai" = Some (get sug "rationale" "")
  ∧ enrich sug f !! "citation_label" = Some (get sug "citation_label" "").
Proof.
  unfold enrich. split; [|split].
  - rewrite !lookup_insert_ne by discriminate. apply lookup_insert_eq.
  - rewrite lookup_insert_ne by discriminate. apply lookup_insert_eq.
  - apply lookup_insert_eq.
Qed.

Lemma accepted_key_nonempty (dt k : str) :
  doc_type_accepts_issue_key dt k = true → truthy k = true.
Proof.
  unfold doc_type_accepts_issue_key. rewrite truthy_lower.
  by destruct (truthy k).
Qed.

Lemma keys_match_related (sug f : gmap str str) :
  truthy (sug_key sug) = true →
  keys_match (sug_key sug) (issue_key f) = related sug f.
Proof. intros H. unfold keys_match, related. by rewrite H. Qed.

(** What a search that ends at a [break] has seen. *)
Lemma search_from_matched (keys : list str) (sk : str) (i : nat) :
  ∀ (fs : list (gmap str str)) (idx : nat),
    search_from keys sk idx fs = Matched i →
    (idx ≤ i < idx + length fs)%nat ∧ (i < length keys)%nat.
Proof.
  induction fs as [|f fs IH]; intros idx; simpl; [done|].
  destruct (keys !! idx) as [k|] eqn:Hk; [|done].
  destruct (keys_match sk k).
  - intros [= <-]. apply lookup_lt_Some in Hk. lia.
  - intros H%IH. lia.
Qed.

Lemma search_from_first (keys : list str) (sk : str) (i : nat) :
  ∀ (fs : list (gmap str str)) (idx : nat),
    (idx ≤ i < idx + length fs)%nat →
    (∃ k, keys !! i = Some k ∧ keys_match sk k = true) →
    (∀ j, (idx ≤ j < i)%nat →
          ∃ k, keys !! j = Some k ∧ keys_match sk k = false) →
    search_from keys sk idx fs = Matched i.
Proof.
  induction fs as [|f fs IH]; intros idx Hi Hhit Hbefore; simpl in *;
    [lia|].
  destruct (decide (idx = i)) as [->|Hne].
  - destruct Hhit as (k & -> & ->). done.
  - destruct (Hbefore idx) as (k & -> & ->); [lia|].
    apply IH; [lia | done |]. intros j Hj. apply Hbefore. lia.
Qed.

Lemma search_from_unmatched (keys : list str) (sk : str) :
  ∀ (fs : list (gmap str str)) (idx : nat),
    (∀ j, (idx ≤ j < idx + length fs)%nat →
          ∃ k, keys !! j = Some k ∧ keys_match sk k = false) →
    search_from keys sk idx fs = Unmatched.
Proof.
  induction fs as [|f fs IH]; intros idx Hall; simpl in *; [done|].
  destruct (Hall idx) as (k & -> & ->); [lia|].
  apply IH. intros j Hj. apply Hall. lia.
Qed.

(** The search runs off the precomputed keys when none of them matches
    and the list of issues has grown. *)
Lemma search_from_out_of_range (keys : list str) (sk : str) :
  ∀ (fs : list (gmap str str)) (idx : nat),
    (idx ≤ length keys < idx + length fs)%nat →
    (∀ j k, (idx ≤ j)%nat → keys !! j = Some k → keys_match sk k = false) →
    search_from keys sk idx fs = KeyOutOfRange.
Proof.
  induction fs as [|f fs IH]; intros idx Hlen Hall; simpl in *; [lia|].
  destruct (keys !! idx) as [k|] eqn:Hk; [|done].
  rewrite (Hall idx k) by (done || lia).
  apply lookup_lt_Some in Hk.
  apply IH; [lia|]. intros j k' Hj. apply Hall. lia.
Qed.

(** One iteration keeps every finding in place and touches only the
    advisory fields. *)
Lemma merge_suggestion_preserves (dt : str) (keys : list str)
    (fs : list (gmap str str)) (sug : gmap str str) :
  let fs' := state_of (merge_suggestion dt keys fs sug) in
  (length fs ≤ length fs')%nat
  ∧ ∀ i f, fs !! i = Some f →
      ∃ f', fs' !! i = Some f' ∧ ∀ k, k ∉ ai_fields → f' !! k = f !! k.
Proof.
  unfold merge_suggestion.
  destruct (negb _); simpl; [eauto|].
  destruct (search_from _ _ _ _) as [idx| |]; simpl; [|  |eauto].
  - rewrite length_alter. split; [done|]. intros i f Hf.
    rewrite list_lookup_alter. destruct (decide (idx = i)) as [->|_].
    + rewrite Hf. simpl. eexists. split; [done|].
      intros k Hk. by apply enrich_other_fields.
    + eauto.
  - rewrite length_app. split; [lia|]. intros i f Hf.
    exists f. split; [|done]. by apply lookup_app_l_Some.
Qed.

Lemma merge_loop_preserves (dt : str) (keys : list str)
    (sugs : list (gmap str str)) :
  ∀ fs : list (gmap str str),
    (length fs ≤ length (state_of (merge_loop dt keys fs sugs)))%nat
    ∧ ∀ i f, fs !! i = Some f →
        ∃ f', state_of (merge_loop dt keys fs sugs) !! i = Some f'
              ∧ ∀ k, k ∉ ai_fields → f' !! k = f !! k.
Proof.
  induction sugs as [|sug sugs IH]; intros fs; cbn [merge_loop].
  { cbn [state_of]. eauto. }
  pose proof (merge_suggestion_preserves dt keys fs sug) as [Hlen Hkeep].
  destruct (merge_suggestion dt keys fs sug) as [fs1|e fs1];
    cbn [state_of] in *.
  - destruct (IH fs1) as [Hlen' Hkeep']. split; [lia|].
    intros i f Hf. destruct (Hkeep i f Hf) as (f1 & Hf1 & H1).
    destruct (Hkeep' i f1 Hf1) as (f2 & Hf2 & H2).
    exists f2. split; [done|]. intros k Hk. by rewrite H2, H1.
  - done.
Qed.

(** C4.  Whether the merge completes or is cut short by an exception, the
    list it leaves has at least as many entries as before; every finding
    that was there is still at its position; and all of its fields other
    than [suggestion_ai], [rationale_ai] and [citation_label] (hence its
    document, section, issue, severity and suggestion) are as before. *)
Theorem merge_preserves_findings (dt : str)
    (fs sugs : list (gmap str str)) :
  let fs' := state_of (merge_suggestions dt fs sugs) in
  (length fs ≤ length fs')%nat
  ∧ ∀ i f, fs !! i = Some f →
      ∃ f', fs' !! i = Some f'
            ∧ (∀ k, k ∉ ai_fields → f' !! k = f !! k)
            ∧ f' !! "document" = f !! "document"
            ∧ f' !! "section" = f !! "section"
            ∧ f' !! "issue" = f !! "issue"
            ∧ f' !! "severity" = f !! "severity"
            ∧ f' !! "suggestion" = f !! "suggestion".
Proof.
  intros fs'.
  assert (Hfs : (length fs ≤ length fs')%nat
    ∧ ∀ i f, fs !! i = Some f →
        ∃ f', fs' !! i = Some f' ∧ ∀ k, k ∉ ai_fields → f' !! k = f !! k).
  { subst fs'. unfold merge_suggestions.
    destruct sugs as [|sug sugs]; [cbn [state_of]; eauto|].
    apply merge_loop_preserves. }
  destruct Hfs as [Hlen Hkeep]. split; [done|].
  intros i f Hf. destruct (Hkeep i f Hf) as (f' & Hf' & Hk).
  exists f'. split; [done|]. split; [done|].
  repeat split; apply Hk; unfold ai_fields;
    rewrite !elem_of_cons, elem_of_nil;
    intros [?|[?|[?|[]]]]; discriminate.
Qed.

Lemma merge_preserves_findings_witness :
  let f := clause_issue "Articles of Association" "Jurisdiction" in
  let sugs : list (gmap str str) :=
    [ {[ "issue" := "Jurisdiction"; "suggestion" := "Name the ADGM Courts." ]};
      {[ "issue" := "Dividends policy"; "suggestion" := "State it." ]};
      {[ "issue" := "Directors quorum"; "suggestion" := "State it." ]} ] in
  let fs' := state_of (merge_suggestions "Articles of Association" [f] sugs) in
  ∃ f', fs' !! 0%nat = Some f'
        ∧ f' !! "issue" = Some "Missing required clause: Jurisdiction"
        ∧ f' !! "severity" = Some "High".
Proof.
  intros f sugs fs'.
  destruct (proj2 (merge_preserves_findings "Articles of Association"
                     [f] sugs) 0%nat f eq_refl)
    as (f' & Hf' & _ & _ & _ & Hissue & Hsev & _).
  exists f'. split; [exact Hf'|]. split.
  - rewrite Hissue. reflexivity.
  - rewrite Hsev. reflexivity.
Defined.

End Reconcile.

(** ** Matching a suggestion *)

Section Matching.

Local Arguments merge_suggestion : simpl never.
Local Arguments normalize_issue_key : simpl never.
Local Arguments doc_type_accepts_issue_key : simpl never.

Lemma standalone_fields (dt raw : str) (sug : gmap str str) :
  standalone dt raw sug !! "severity" = Some "Medium"
  ∧ standalone dt raw sug !! "suggestion" = Some ""
  ∧ standalone dt raw sug !! "document" = Some dt
  ∧ standalone dt raw sug !! "section" = Some "N/A".
Proof.
  unfold standalone. cbn [list_to_map foldr uncurry fst snd].
  repeat split;
    repeat (rewrite lookup_insert_ne by discriminate);
    apply lookup_insert_eq.
Qed.

(** An inapplicable suggestion leaves the issues as they are. *)
Lemma merge_suggestion_inapplicable (dt : str) (keys : list str)
    (fs : list (gmap str str)) (sug : gmap str str) :
  doc_type_accepts_issue_key dt (sug_key sug) = false →
  merge_suggestion dt keys fs sug = Returned fs.
Proof. intros H. unfold merge_suggestion. by rewrite H. Qed.

(** Every iteration that returns leaves a list of the same shape: the
    findings the keys were computed from, followed by appended ones. *)
Lemma merge_suggestion_shape (dt : str)
    (originals appended fs' : list (gmap str str)) (sug : gmap str str) :
  merge_suggestion dt (issue_key <$> originals) (originals ++ appended) sug
    = Returned fs' →
  ∃ originals' appended',
    fs' = originals' ++ appended'
    ∧ issue_key <$> originals' = issue_key <$> originals.
Proof.
  unfold merge_suggestion. destruct (negb _).
  { intros [= <-]. eauto. }
  destruct (search_from _ _ _ _) as [idx| |] eqn:Hs; [| |done].
  - intros [= <-].
    apply search_from_matched in Hs as [_ Hidx].
    rewrite length_fmap in Hidx.
    exists (alter (enrich sug) idx originals), appended.
    split; [by apply alter_app_l|].
    rewrite (list_fmap_alter issue_key (enrich sug) id)
      by (apply Forall_forall; intros f _; apply enrich_issue_key).
    by apply list_alter_id.
  - intros [= <-].
    exists originals, (appended ++ [standalone dt (sug_issue_raw sug) sug]).
    by rewrite app_assoc.
Qed.

(** The keys have run out: an applicable suggestion that matches none of
    them, met after the list of issues has grown, ends the loop with an
    [IndexError]. *)
Lemma merge_suggestion_stale_keys (dt : str) (keys : list str)
    (fs : list (gmap str str)) (sug : gmap str str) :
  doc_type_accepts_issue_key dt (sug_key sug) = true →
  (length keys < length fs)%nat →
  (∀ j k, keys !! j = Some k → keys_match (sug_key sug) k = false) →
  merge_suggestion dt keys fs sug = Raised IndexError fs.
Proof.
  intros Hacc Hlen Hnone. unfold merge_suggestion. rewrite Hacc.
  cbn [negb].
  rewrite search_from_out_of_range; [done | lia | eauto].
Qed.

(** C5, as the code has it.  An applicable suggestion has a non-empty
    key.  Among the findings the keys were computed from, the first one
    whose own key is non-empty and is in the symmetric-substring relation
    with the suggestion's key receives the three advisory fields, and
    nothing else changes.  When none of them qualifies and nothing has
    been appended yet, the suggestion is appended as a finding of the
    document type with section N/A, severity Medium and an empty
    rule-derived suggestion. *)
Theorem merge_suggestion_first_related (dt : str)
    (originals appended : list (gmap str str)) (sug : gmap str str) :
  doc_type_accepts_issue_key dt (sug_key sug) = true →
  sug_key sug ≠ []
  ∧ (∀ i f,
       originals !! i = Some f →
       related sug f = true →
       (∀ j g, (j < i)%nat → originals !! j = Some g →
               related sug g = false) →
       merge_suggestion dt (issue_key <$> originals)
         (originals ++ appended) sug
       = Returned (alter (enrich sug) i (originals ++ appended)))
  ∧ ((∀ g, g ∈ originals → related sug g = false) →
     appended = [] →
     merge_suggestion dt (issue_key <$> originals)
       (originals ++ appended) sug
     = Returned (originals ++ [standalone dt (sug_issue_raw sug) sug]))
  ∧ (∀ f, enrich sug f !! "suggestion_ai"
            = Some (get sug "suggestion" "")
          ∧ enrich sug f !! "rationale_ai"
            = Some (get sug "rationale" "")
          ∧ enrich sug f !! "citation_label"
            = Some (get sug "citation_label" ""))
  ∧ standalone dt (sug_issue_raw sug) sug !! "severity" = Some "Medium"
  ∧ standalone dt (sug_issue_raw sug) sug !! "suggestion" = Some "".
Proof.
  intros Hacc.
  pose proof (accepted_key_nonempty _ _ Hacc) as Hsk.
  split; [by apply truthy_true|].
  split; [|split; [|split; [apply enrich_fields|]]].
  - intros i f Hf Hrel Hbefore. unfold merge_suggestion.
    rewrite Hacc. cbn [negb].
    rewrite (search_from_first _ _ i); [done|..].
    + apply lookup_lt_Some in Hf. rewrite length_app. lia.
    + exists (issue_key f). rewrite list_lookup_fmap, Hf.
      split; [done|]. by rewrite keys_match_related.
    + intros j Hj.
      destruct (lookup_lt_is_Some_2 originals j) as [g Hg].
      { apply lookup_lt_Some in Hf. lia. }
      exists (issue_key g). rewrite list_lookup_fmap, Hg.
      split; [done|]. rewrite keys_match_related by done.
      apply (Hbefore j g); [lia | done].
  - intros Hnone ->. rewrite app_nil_r. unfold merge_suggestion.
    rewrite Hacc. cbn [negb].
    rewrite search_from_unmatched; [done|].
    intros j Hj.
    destruct (lookup_lt_is_Some_2 originals j) as [g Hg]; [lia|].
    exists (issue_key g). rewrite list_lookup_fmap, Hg.
    split; [done|]. rewrite keys_match_related by done.
    apply Hnone. by eapply list_elem_of_lookup_2.
  - pose proof (standalone_fields dt (sug_issue_raw sug) sug). tauto.
Qed.

Lemma merge_suggestion_first_related_witness :
  let dt := "Articles of Association" in
  let f := clause_issue dt "Jurisdiction" in
  let sug : gmap str str :=
    {[ "issue" := "Jurisdiction"; "suggestion" := "Name the ADGM Courts." ]} in
  let other : gmap str str :=
    {[ "issue" := "Dividends policy"; "suggestion" := "State it." ]} in
  merge_suggestion dt (issue_key <$> [f]) ([f] ++ []) sug
    = Returned (alter (enrich sug) 0%nat ([f] ++ []))
  ∧ merge_suggestion dt (issue_key <$> [f]) ([f] ++ []) other
    = Returned ([f] ++ [standalone dt (sug_issue_raw other) other]).
Proof.
  intros dt f sug other. split.
  - apply (proj1 (proj2 (merge_suggestion_first_related dt [f] [] sug
                           ltac:(vm_compute; reflexivity))) 0%nat f).
    + reflexivity.
    + vm_compute; reflexivity.
    + intros j g Hj. lia.
  - apply (proj1 (proj2 (proj2 (merge_suggestion_first_related dt [f] []
                           other ltac:(vm_compute; reflexivity))))).
    + intros g Hg. apply list_elem_of_singleton in Hg. subst g.
      vm_compute; reflexivity.
    + reflexivity.
Defined.

(** C5 as stated fails: a finding whose key is empty is in the
    symmetric-substring relation with every key, yet it is passed
    over. *)
Lemma merge_suggestion_empty_key_counterexample :
  let dt := "Board Resolution" in
  let fs := [clause_issue dt "---"; clause_issue dt "Jurisdiction"] in
  let sug : gmap str str :=
    {[ "issue" := "Jurisdiction clause";
       "suggestion" := "Name the ADGM Courts." ]} in
  let advice (l : list (gmap str str)) (i : nat) :=
    l !! i ≫= (λ f : gmap str str, f !! "suggestion_ai") in
  doc_type_accepts_issue_key dt (sug_key sug) = true
  ∧ issue_key (clause_issue dt "---") = []
  ∧ symmetric_substring (sug_key sug) (issue_key (clause_issue dt "---"))
    = true
  ∧ advice (reconcile_by_substring dt fs sug) 0%nat
    = Some "Name the ADGM Courts."
  ∧ advice (state_of (merge_suggestions dt fs [sug])) 0%nat = None
  ∧ advice (state_of (merge_suggestions dt fs [sug])) 1%nat
    = Some "Name the ADGM Courts."
  ∧ ¬ (∀ dt fs sug,
         doc_type_accepts_issue_key dt (sug_key sug) = true →
         merge_suggestions dt fs [sug]
         = Returned (reconcile_by_substring dt fs sug)).
Proof.
  intros dt fs sug advice.
  split; [vm_compute; reflexivity|].
  split; [vm_compute; reflexivity|].
  split; [vm_compute; reflexivity|].
  split; [vm_compute; reflexivity|].
  split; [vm_compute; reflexivity|].
  split; [vm_compute; reflexivity|].
  intros Hall.
  specialize (Hall dt fs sug ltac:(vm_compute; reflexivity)).
  apply (f_equal (λ o, advice (state_of o) 0%nat)) in Hall.
  vm_compute in Hall. discriminate Hall.
Qed.

End Matching.

(** ** Two defects of the suggestion pathway *)

Section Defects.

(** C1.  The merge drops a suggestion the document type does not accept,
    but the annotation step does not: for a register of members and a
    suggestion about share capital, the list of issues stays empty and
    the suggestion is still written to the last paragraph as a comment. *)
Theorem inapplicable_suggestion_annotated :
  let sug : gmap str str :=
    {[ "issue" := "Share capital not stated";
       "rationale" := "The share capital must be set out.";
       "suggestion" := "State the authorised share capital.";
       "citation_label" := "Companies Regulations" ]} in
  let u := {| file_name := "register.docx";
              doc_type := "Register of Members and Directors";
              doc_info := extracted ["Register of Members";
                                     "Member: A. Owner"] [];
              document := [[]; []];
              service := Some [sug] |} in
  let rules := {| clauses_per_doc := None; required_documents := [] |} in
  doc_type_accepts_issue_key (doc_type u) (sug_key sug) = false
  ∧ file_issues <$> returned (process_file true rules ∅ u) = Some []
  ∧ (λ r, calls (annotated r)) <$> returned (process_file true rules ∅ u)
    = Some [ {| call_index := 1;
                call_comment :=
                  "AI Suggestion: State the authorised share capital. | Source: Companies Regulations";
                call_highlight := "YELLOW" |} ].
Proof.
  intros sug u rules. split; [|split]; vm_compute; reflexivity.
Qed.

(** C9.  Two applicable suggestions that match no issue of the file: the
    first is appended, the search for the second runs past the
    precomputed keys, and the [IndexError] leaves the loop over the
    files; the file after it is never reached. *)
Theorem unmatched_suggestions_raise :
  let s1 : gmap str str :=
    {[ "issue" := "Jurisdiction clause missing";
       "suggestion" := "Name the ADGM Courts." ]} in
  let s2 : gmap str str :=
    {[ "issue" := "No reference to ADGM regulations";
       "suggestion" := "Refer to the ADGM Companies Regulations." ]} in
  let u := {| file_name := "resolution.docx";
              doc_type := "Board Resolution";
              doc_info := extracted ["Board Resolution";
                                     "Signed by the directors."] [];
              document := [[]; []];
              service := Some [s1; s2] |} in
  let v := {| file_name := "register.docx";
              doc_type := "Register of Members and Directors";
              doc_info := extracted ["Register of Members"] [];
              document := [[]];
              service := Some [] |} in
  let rules := {| clauses_per_doc := None; required_documents := [] |} in
  doc_type_accepts_issue_key (doc_type u) (sug_key s1) = true
  ∧ doc_type_accepts_issue_key (doc_type u) (sug_key s2) = true
  ∧ raised (process_file true rules ∅ u) = Some IndexError
  ∧ raised (process_files true rules ∅ [u; v]) = Some IndexError
  ∧ length (state_of (process_files true rules ∅ [u; v])) = 1%nat
  ∧ raised (process_file true rules ∅
              {| file_name := file_name u; doc_type := doc_type u;
                 doc_info := doc_info u; document := document u;
                 service := None |}) = None.
Proof.
  intros s1 s2 u v rules. repeat split; vm_compute; reflexivity.
Qed.

End Defects.

(** ** The key normalizer *)

Section Normalizer.

(** *** Characters *)

Lemma key_char_space (c : ascii) :
  key_char c = true → is_space c = true → c = " "%char.
Proof.
  unfold key_char, is_space, is_lower_char, is_digit_char, between.
  destruct (bool_decide_reflect (c = " "%char)) as [->|_]; [done|].
  rewrite orb_false_r.
  destruct (N.leb_spec 97 (code c)), (N.leb_spec (code c) 122),
    (N.leb_spec 48 (code c)), (N.leb_spec (code c) 57),
    (N.leb_spec 9 (code c)), (N.leb_spec (code c) 13),
    (N.leb_spec 28 (code c)), (N.leb_spec (code c) 32);
    simpl; try done; lia.
Qed.

Lemma key_char_lower (c : ascii) : key_char c = true → lower_char c = c.
Proof.
  unfold key_char, lower_char, is_upper_char, is_lower_char, is_digit_char,
    between.
  destruct (bool_decide_reflect (c = " "%char)) as [->|_]; [done|].
  rewrite orb_false_r.
  destruct (N.leb_spec 97 (code c)), (N.leb_spec (code c) 122),
    (N.leb_spec 48 (code c)), (N.leb_spec (code c) 57),
    (N.leb_spec 65 (code c)), (N.leb_spec (code c) 90);
    simpl; try done; lia.
Qed.

Lemma key_char_kept (c : ascii) : key_char c = true → not_key_char c = false.
Proof.
  unfold key_char, not_key_char.
  destruct (bool_decide_reflect (c = " "%char)) as [->|_]; [done|].
  rewrite orb_false_r. intros ->. done.
Qed.

Lemma kept_key_char (c : ascii) :
  not_key_char c = false → is_space c = false → key_char c = true.
Proof.
  unfold key_char, not_key_char. intros H Hs. rewrite Hs, orb_false_r in H.
  apply negb_false_iff in H. by rewrite H.
Qed.

(** *** Trimming *)

Lemma lstrip_fixed (s : str) :
  lstrip s = s ↔ match s with [] => True | c :: _ => is_space c = false end.
Proof.
  destruct s as [|c s]; [done|]. simpl.
  destruct (is_space c) eqn:Hc; [|done]. split; [|done].
  intros H. assert (Hlen : (length (lstrip s) ≤ length s)%nat).
  { clear. induction s as [|a s IH]; simpl; [done|].
    destruct (is_space a); simpl; lia. }
  rewrite H in Hlen. simpl in Hlen. lia.
Qed.

Lemma lstrip_lstrip (s : str) : lstrip (lstrip s) = lstrip s.
Proof.
  induction s as [|c s IH]; [done|]. simpl.
  destruct (is_space c) eqn:Hc; [done|]. simpl. by rewrite Hc.
Qed.

Lemma rstrip_rstrip (s : str) : rstrip (rstrip s) = rstrip s.
Proof.
  induction s as [|c s IH]; [done|]. cbn [rstrip].
  destruct (rstrip s) as [|a r] eqn:Hr.
  - destruct (is_space c) eqn:Hc; [done|]. cbn [rstrip]. by rewrite Hc.
  - cbn [rstrip]. cbn [rstrip] in IH. by rewrite IH.
Qed.

Lemma rstrip_head (c : ascii) (s : str) :
  is_space c = false → ∃ r, rstrip (c :: s) = c :: r.
Proof.
  intros Hc. cbn [rstrip]. destruct (rstrip s); rewrite ?Hc; eauto.
Qed.

Lemma lstrip_rstrip (s : str) : lstrip s = s → lstrip (rstrip s) = rstrip s.
Proof.
  intros H%lstrip_fixed. destruct s as [|c s]; [done|].
  destruct (rstrip_head c s H) as [r ->]. simpl. by rewrite H.
Qed.

Lemma strip_strip (s : str) : strip (strip s) = strip s.
Proof.
  unfold strip.
  rewrite (lstrip_rstrip (lstrip s)) by apply lstrip_lstrip.
  apply rstrip_rstrip.
Qed.

Lemma Forall_lstrip (P : ascii → Prop) (s : str) :
  Forall P s → Forall P (lstrip s).
Proof.
  induction 1 as [|c s Hc Hs IH]; simpl; [done|].
  destruct (is_space c); [done | by constructor].
Qed.

Lemma Forall_rstrip (P : ascii → Prop) (s : str) :
  Forall P s → Forall P (rstrip s).
Proof.
  induction 1 as [|c s Hc Hs IH]; cbn [rstrip]; [done|].
  destruct (rstrip s).
  - destruct (is_space c); by repeat constructor.
  - by constructor.
Qed.

(** *** Spacing *)

Lemma spaced_weaken (s : str) : spaced true s = true → spaced false s = true.
Proof.
  destruct s as [|c s]; [done|]. simpl. by destruct (is_space c).
Qed.

Lemma spaced_lstrip (b : bool) (s : str) :
  spaced b s = true → spaced false (lstrip s) = true.
Proof.
  revert b. induction s as [|c s IH]; intros b; [done|]. simpl.
  destruct (is_space c) eqn:Hc.
  - intros (_ & Hs)%andb_true_iff. by eapply IH.
  - intros Hs. simpl. by rewrite Hc.
Qed.

Lemma spaced_rstrip (b : bool) (s : str) :
  spaced b s = true → spaced b (rstrip s) = true.
Proof.
  revert b. induction s as [|c s IH]; intros b; [done|].
  cbn [rstrip spaced].
  destruct (is_space c) eqn:Hc.
  - intros ((Hb & Hsp)%andb_true_iff & Hs%IH)%andb_true_iff.
    destruct (rstrip s) as [|a r]; [done|].
    cbn [spaced] in *. rewrite Hc, Hb, Hsp. done.
  - intros Hs%IH. destruct (rstrip s) as [|a r].
    + cbn [spaced]. by rewrite Hc.
    + cbn [spaced] in *. by rewrite Hc.
Qed.

Lemma collapse_spaced (b : bool) (s : str) :
  spaced b (collapse b s) = true.
Proof.
  revert b. induction s as [|c s IH]; intros b; [done|]. simpl.
  destruct (is_space c) eqn:Hc.
  - destruct b; [apply IH|]. simpl. apply IH.
  - simpl. rewrite Hc. apply IH.
Qed.

Lemma spaced_collapse (b : bool) (s : str) :
  spaced b s = true → collapse b s = s.
Proof.
  revert b. induction s as [|c s IH]; intros b; [done|]. simpl.
  destruct (is_space c) eqn:Hc.
  - intros ((Hb & Hsp)%andb_true_iff & Hs%IH)%andb_true_iff.
    apply negb_true_iff in Hb as ->.
    apply bool_decide_eq_true in Hsp as ->. by rewrite Hs.
  - intros Hs%IH. by rewrite Hs.
Qed.

Lemma collapse_key_chars (b : bool) (s : str) :
  Forall (λ c, not_key_char c = false) s →
  Forall (λ c, key_char c = true) (collapse b s).
Proof.
  intros Hs. revert b. induction Hs as [|c s Hc Hs IH]; intros b; [done|].
  simpl. destruct (is_space c) eqn:Hsp.
  - destruct b; [apply IH|]. constructor; [done | apply IH].
  - constructor; [by apply kept_key_char | apply IH].
Qed.

End Normalizer.

(** ** Substitution and idempotence *)

Section Idempotence.

Local Arguments normalize_issue_key : simpl never.

(** *** Matching *)

Lemma rmatch_elem (r : regex) (s rest : str) :
  rmatch r s = Some rest → rest ∈ remainders r s.
Proof.
  unfold rmatch. destruct (remainders r s); [done|].
  intros [= ->]. left.
Qed.

Lemma star_remainders_suffix (p : ascii → bool) (s rest : str) :
  rest ∈ star_remainders p s → rest `suffix_of` s.
Proof.
  induction s as [|c s IH]; simpl.
  - by intros ->%list_elem_of_singleton.
  - destruct (p c).
    + intros [H| ->%list_elem_of_singleton]%elem_of_app; [|done].
      by apply suffix_cons_r, IH.
    + by intros ->%list_elem_of_singleton.
Qed.

Lemma remainders_suffix (r : regex) :
  ∀ s rest, rest ∈ remainders r s → rest `suffix_of` s.
Proof.
  induction r as [|p|r1 IH1 r2 IH2|r1 IH1 r2 IH2|r1 IH1|p];
    intros s rest; cbn [remainders].
  - by intros ->%list_elem_of_singleton.
  - destruct s as [|c s]; [by intros ?%elem_of_nil|].
    destruct (p c); [|by intros ?%elem_of_nil].
    intros ->%list_elem_of_singleton. by apply suffix_cons_r.
  - intros (s1 & H2 & H1)%list_elem_of_bind.
    etrans; [by apply IH2 | by apply IH1].
  - intros [H|H]%elem_of_app; auto.
  - intros [H| ->%list_elem_of_singleton]%elem_of_app; auto.
  - apply star_remainders_suffix.
Qed.

(** A pattern with a mandatory character only matches where that
    character occurs. *)
Lemma remainders_mandatory_char (r1 r2 : regex) (p : ascii → bool)
    (c : ascii) (s rest : str) :
  rest ∈ remainders (Seq r1 (Seq (Star p) (Seq (Chr c) r2))) s → c ∈ s.
Proof.
  cbn [remainders].
  intros (s1 & (s2 & (s3 & _ & H3)%list_elem_of_bind & H2)%list_elem_of_bind
             & H1)%list_elem_of_bind.
  apply remainders_suffix in H1 as [k1 ->].
  apply star_remainders_suffix in H2 as [k2 ->].
  unfold Chr in H3. cbn [remainders] in H3.
  destruct s2 as [|a s2]; [by apply elem_of_nil in H3|].
  destruct (bool_decide_reflect (a = c)) as [->|_];
    [|by apply elem_of_nil in H3].
  rewrite !elem_of_app, elem_of_cons. auto.
Qed.

Lemma sub_anchored_prefix_clean (s : str) :
  Forall (λ c, key_char c = true) s → sub_anchored prefix_pattern "" s = s.
Proof.
  intros Hs. unfold sub_anchored.
  destruct (rmatch prefix_pattern s) as [rest|] eqn:Hm; [|done].
  apply rmatch_elem in Hm. unfold prefix_pattern in Hm.
  apply remainders_mandatory_char in Hm.
  rewrite Forall_forall in Hs. by apply Hs in Hm.
Qed.

(** *** Substitution of a character class *)

Lemma sub_class (p : ascii → bool) (rep s : str) :
  sub (Class p) rep s = s ≫= (λ c, if p c then rep else [c]).
Proof.
  unfold sub. induction s as [|c s IH]; [done|].
  cbn [sub_from]. unfold rmatch at 1. cbn [remainders].
  destruct (p c) eqn:Hc; cbn [head].
  - replace (length (c :: s) - length s)%nat with 1%nat by (simpl; lia).
    rewrite IH. by rewrite bind_cons, Hc.
  - rewrite IH. by rewrite bind_cons, Hc.
Qed.

Lemma sub_class_fixed (p : ascii → bool) (rep s : str) :
  Forall (λ c, p c = false) s → sub (Class p) rep s = s.
Proof.
  intros Hs. rewrite sub_class.
  induction Hs as [|c s Hc Hs IH]; [done|].
  by rewrite bind_cons, Hc, IH.
Qed.

Lemma sub_class_kept (s : str) :
  Forall (λ c, not_key_char c = false) (sub (Class not_key_char) " " s).
Proof.
  rewrite sub_class. induction s as [|c s IH]; [constructor|].
  rewrite bind_cons. destruct (not_key_char c) eqn:Hc.
  - constructor; [done | exact IH].
  - constructor; [done | exact IH].
Qed.

(** *** Substitution of a run of blanks *)

Lemma head_star_remainders (s : str) :
  head (star_remainders is_space s) = Some (lstrip s).
Proof.
  induction s as [|c s IH]; [done|]. simpl.
  destruct (is_space c); [|done].
  destruct (star_remainders is_space s); [done|]. exact IH.
Qed.

Lemma rmatch_blanks (s : str) :
  rmatch (Plus is_space) s =
    match s with
    | c :: s' => if is_space c then Some (lstrip s') else None
    | [] => None
    end.
Proof.
  unfold rmatch, Plus. cbn [remainders].
  destruct s as [|c s]; [done|].
  destruct (is_space c); [|done].
  rewrite bind_cons, app_nil_r. cbn [remainders].
  apply head_star_remainders.
Qed.

Lemma length_lstrip (s : str) : (length (lstrip s) ≤ length s)%nat.
Proof.
  induction s as [|c s IH]; simpl; [done|].
  destruct (is_space c); simpl; lia.
Qed.

(** The scan with [n] characters of the current run still to skip is the
    collapse inside a run. *)
Lemma sub_blanks_collapse (s : str) :
  sub_from (Plus is_space) " " 0 s = collapse false s
  ∧ sub_from (Plus is_space) " " (length s - length (lstrip s)) s
    = collapse true s.
Proof.
  induction s as [|c s [IH0 IH1]]; [done|].
  assert (H0 : sub_from (Plus is_space) " " 0 (c :: s)
               = collapse false (c :: s)).
  { cbn [sub_from collapse]. rewrite rmatch_blanks.
    destruct (is_space c) eqn:Hc.
    - pose proof (length_lstrip s).
      replace (length (c :: s) - length (lstrip s))%nat
        with (S (length s - length (lstrip s))) by (simpl; lia).
      by rewrite IH1.
    - by rewrite IH0. }
  split; [exact H0|].
  cbn [lstrip collapse]. destruct (is_space c) eqn:Hc.
  - pose proof (length_lstrip s).
    replace (length (c :: s) - length (lstrip s))%nat
      with (S (length s - length (lstrip s))) by (simpl; lia).
    cbn [sub_from]. exact IH1.
  - replace (length (c :: s) - length (c :: s))%nat with 0%nat by lia.
    rewrite H0. cbn [collapse]. by rewrite Hc.
Qed.

Lemma sub_blanks (s : str) : sub (Plus is_space) " " s = collapse false s.
Proof. apply sub_blanks_collapse. Qed.

(** *** The last two passes *)

Lemma squeeze_clean (t : str) : clean (squeeze t).
Proof.
  unfold squeeze, clean. rewrite sub_blanks.
  set (u := sub (Class not_key_char) " " t).
  split; [|split].
  - apply Forall_rstrip, Forall_lstrip, collapse_key_chars, sub_class_kept.
  - unfold strip. apply spaced_rstrip.
    eapply spaced_lstrip, collapse_spaced.
  - apply strip_strip.
Qed.

Lemma squeeze_fixed (s : str) : clean s → squeeze s = s.
Proof.
  intros (Hk & Hsp & Hst). unfold squeeze.
  rewrite sub_class_fixed.
  - rewrite sub_blanks, spaced_collapse; done.
  - eapply Forall_impl; [exact Hk|]. apply key_char_kept.
Qed.

Lemma lower_clean (s : str) : clean s → lower s = s.
Proof.
  intros (Hk & _). unfold lower.
  induction Hk as [|c s Hc Hs IH]; [done|].
  simpl. by rewrite key_char_lower, IH.
Qed.

Lemma normalize_issue_key_clean (x : str) : clean (normalize_issue_key x).
Proof. unfold normalize_issue_key. apply squeeze_clean. Qed.

(** On a clean key the normalizer comes down to the replacement step. *)
Lemma normalize_issue_key_on_clean (y : str) :
  clean y →
  normalize_issue_key y = squeeze (apply_replacements y).
Proof.
  intros Hy. unfold normalize_issue_key.
  rewrite (lower_clean y Hy).
  destruct Hy as (Hk & _ & ->).
  by rewrite sub_anchored_prefix_clean.
Qed.

(** C2, as the code has it.  The normalizer is a total function; the
    empty string is mapped to the empty key; every key it returns is
    made of lower-case letters, digits and single spaces, without a
    leading or trailing space; and normalizing a key again returns it
    unchanged whenever the replacement step leaves that key as it is. *)
Theorem normalize_issue_key_idempotent_when_stable (x : str) :
  normalize_issue_key "" = ""
  ∧ clean (normalize_issue_key x)
  ∧ (apply_replacements (normalize_issue_key x) = normalize_issue_key x →
     normalize_issue_key (normalize_issue_key x) = normalize_issue_key x).
Proof.
  split; [vm_compute; reflexivity|].
  pose proof (normalize_issue_key_clean x) as Hy.
  split; [exact Hy|].
  intros Hstable.
  rewrite (normalize_issue_key_on_clean _ Hy), Hstable.
  by apply squeeze_fixed.
Qed.

Lemma normalize_issue_key_idempotent_when_stable_witness :
  normalize_issue_key
    (normalize_issue_key "Red flag: References UAE Federal Court!")
  = normalize_issue_key "Red flag: References UAE Federal Court!".
Proof.
  apply (proj2 (proj2 (normalize_issue_key_idempotent_when_stable
                         "Red flag: References UAE Federal Court!"))).
  vm_compute; reflexivity.
Defined.

(** C2 as stated fails: punctuation is turned into blanks only after the
    phrases have been replaced, so a phrase can appear in the key that
    the next pass replaces. *)
Lemma normalize_issue_key_not_idempotent :
  normalize_issue_key "Abu-Dhabi Global Market" = "abu dhabi global market"
  ∧ normalize_issue_key (normalize_issue_key "Abu-Dhabi Global Market")
    = "adgm"
  ∧ ¬ (∀ x, normalize_issue_key (normalize_issue_key x)
            = normalize_issue_key x).
Proof.
  split; [vm_compute; reflexivity|].
  split; [vm_compute; reflexivity|].
  intros Hall. specialize (Hall "Abu-Dhabi Global Market").
  vm_compute in Hall. discriminate Hall.
Qed.

End Idempotence.

(** ** Decoding the response *)

Section Decoding.

Variable json_loads : str → option json.

(** Whatever the decoder does with the text it is handed, the parser
    returns: the decoded value, or the empty list when the decoder
    raises. *)
Lemma parse_ai_response_to_list_returns (text : str) :
  ∃ candidate,
    (candidate = text
     ∨ candidate = slice (find "[" text) (rfind "]" text + 1) text)
    ∧ parse_ai_response_to_list json_loads text
      = default (JList []) (json_loads candidate).
Proof.
  unfold parse_ai_response_to_list.
  destruct (_ && _).
  - eexists. split; [by right|]. by destruct (json_loads _).
  - eexists. split; [by left|]. by destruct (json_loads _).
Qed.

Lemma parse_ai_response_to_list_failure (text : str) :
  (∀ t, json_loads t = None) →
  parse_ai_response_to_list json_loads text = JList [].
Proof.
  intros Hfail.
  destruct (parse_ai_response_to_list_returns text) as (c & _ & ->).
  by rewrite Hfail.
Qed.

End Decoding.

(** ** When the merge returns and when it raises *)

Section MergeOutcome.

Local Arguments merge_suggestion : simpl never.
Local Arguments normalize_issue_key : simpl never.
Local Arguments doc_type_accepts_issue_key : simpl never.

Lemma forallb_lookup {A} (p : A → bool) (l : list A) :
  forallb p l = true ↔ ∀ j x, l !! j = Some x → p x = true.
Proof.
  rewrite forallb_forall. split.
  - intros H j x Hx. apply H, list_elem_of_In. by eapply list_elem_of_lookup_2.
  - intros H x Hx%list_elem_of_In.
    apply list_elem_of_lookup_1 in Hx as [j Hj]. eauto.
Qed.

Lemma search_from_found (keys : list str) (sk : str) :
  ∀ (fs : list (gmap str str)) (idx : nat),
    (∃ j k, (idx ≤ j)%nat ∧ keys !! j = Some k ∧ keys_match sk k = true) →
    (length keys ≤ idx + length fs)%nat →
    ∃ i, search_from keys sk idx fs = Matched i.
Proof.
  induction fs as [|f fs IH]; intros idx (j & k & Hj & Hk & Hm) Hlen;
    cbn [search_from length] in *.
  - apply lookup_lt_Some in Hk. lia.
  - destruct (keys !! idx) as [k0|] eqn:Hk0.
    + destruct (keys_match sk k0) eqn:Hm0; [eauto|].
      apply IH; [|lia]. exists j, k. split; [|done].
      destruct (decide (j = idx)) as [->|]; [congruence | lia].
    + apply lookup_ge_None in Hk0. apply lookup_lt_Some in Hk. lia.
Qed.

(** The four ways an iteration can go. *)
Lemma merge_suggestion_outcome (dt : str) (keys : list str)
    (fs : list (gmap str str)) (sug : gmap str str) :
  (length keys ≤ length fs)%nat →
  if unmatched dt keys sug
  then (if decide (length fs = length keys)
        then merge_suggestion dt keys fs sug
             = Returned (fs ++ [standalone dt (sug_issue_raw sug) sug])
        else merge_suggestion dt keys fs sug = Raised IndexError fs)
  else ∃ fs', merge_suggestion dt keys fs sug = Returned fs'
              ∧ length fs' = length fs.
Proof.
  intros Hlen. unfold unmatched, merge_suggestion.
  destruct (doc_type_accepts_issue_key dt (sug_key sug)) eqn:Hacc;
    cbn [andb negb]; [|eauto].
  destruct (forallb _ keys) eqn:Hall.
  - rewrite forallb_lookup in Hall.
    assert (Hnone : ∀ j k, keys !! j = Some k →
                           keys_match (sug_key sug) k = false).
    { intros j k Hk. apply negb_true_iff. eauto. }
    destruct (decide (length fs = length keys)) as [Heq|Hne].
    + rewrite search_from_unmatched; [done|].
      intros j Hj. destruct (lookup_lt_is_Some_2 keys j) as [k Hk]; [lia|].
      eauto.
    + rewrite search_from_out_of_range; [done | lia | eauto].
  - destruct (search_from_found keys (sug_key sug) fs 0%nat) as [i Hi];
      [|lia|].
    + apply not_true_iff_false in Hall.
      destruct (list_find (λ k, keys_match (sug_key sug) k = true) keys)
        as [[j k]|] eqn:Hfind.
      * apply list_find_Some in Hfind as (Hk & Hm & _).
        exists j, k. split; [lia | done].
      * exfalso. apply Hall, forallb_lookup. intros j k Hk.
        apply negb_true_iff, not_true_iff_false.
        rewrite list_find_None, Forall_forall in Hfind.
        apply Hfind. by eapply list_elem_of_lookup_2.
    + rewrite Hi. eexists. split; [done|]. apply length_alter.
Qed.

Lemma merge_loop_outcome (dt : str) (keys : list str)
    (sugs : list (gmap str str)) :
  ∀ fs : list (gmap str str),
    (length keys ≤ length fs)%nat →
    let n := length (filter (λ s, unmatched dt keys s = true) sugs) in
    if decide (n = 0 ∨ (length fs = length keys ∧ n = 1))%nat
    then ∃ fs', merge_loop dt keys fs sugs = Returned fs'
                ∧ length fs' = (length fs + n)%nat
    else ∃ fs', merge_loop dt keys fs sugs = Raised IndexError fs'
                ∧ length fs' = (length fs `max` S (length keys))%nat.
Proof.
  induction sugs as [|sug sugs IH]; intros fs Hlen; cbn [merge_loop].
  { cbn. rewrite decide_True by auto. eexists. split; [done|]. lia. }
  pose proof (merge_suggestion_outcome dt keys fs sug Hlen) as Hstep.
  destruct (unmatched dt keys sug) eqn:Hu.
  - rewrite filter_cons_True by done. cbn [length].
    destruct (decide (length fs = length keys)) as [Heq|Hne].
    + rewrite Hstep.
      specialize (IH (fs ++ [standalone dt (sug_issue_raw sug) sug])).
      rewrite length_app in IH. cbn [length] in IH.
      specialize (IH ltac:(lia)). cbn zeta in IH.
      set (n := length (filter _ sugs)) in *.
      destruct (decide (n = 0 ∨ _ ∧ n = 1))%nat as [Hn|Hn] in IH.
      * destruct IH as (fs' & -> & Hl).
        rewrite decide_True by lia. eexists. split; [done|]. lia.
      * destruct IH as (fs' & -> & Hl).
        rewrite decide_False by lia. eexists. split; [done|]. lia.
    + rewrite Hstep. rewrite decide_False by lia.
      eexists. split; [done|]. lia.
  - rewrite filter_cons_False by (by rewrite Hu).
    destruct Hstep as (fs1 & -> & Hl1).
    specialize (IH fs1 ltac:(lia)). cbn zeta in IH.
    set (n := length (filter _ sugs)) in *. rewrite Hl1 in IH.
    destruct (decide (n = 0 ∨ _ ∧ n = 1))%nat as [Hn|Hn] in IH.
    + destruct IH as (fs' & -> & Hl).
      rewrite decide_True by lia. eexists. split; [done|]. lia.
    + destruct IH as (fs' & -> & Hl).
      rewrite decide_False by lia. eexists. split; [done|]. lia.
Qed.

(** X1.  When at most one of the suggestions is applicable and matches
    none of the findings, the merge returns: with one more finding when
    there is one such suggestion, and with as many findings as before when
    there is none. *)
Theorem merge_suggestions_outcome (dt : str)
    (fs sugs : list (gmap str str)) :
  let n := length (filter (λ s, unmatched dt (issue_key <$> fs) s = true)
                          sugs) in
  (n ≤ 1)%nat →
  ∃ fs', merge_suggestions dt fs sugs = Returned fs'
         ∧ length fs' = (length fs + n)%nat.
Proof.
  intros n Hn. subst n. unfold merge_suggestions.
  destruct sugs as [|sug sugs].
  { exists fs. split; [done|]. cbn. lia. }
  cbn zeta. change (map issue_key fs) with (issue_key <$> fs).
  pose proof (merge_loop_outcome dt (issue_key <$> fs) (sug :: sugs) fs)
    as H.
  rewrite length_fmap in H. specialize (H ltac:(lia)). cbn zeta in H.
  set (n := length (filter _ (sug :: sugs))) in *.
  destruct (decide (n = 0 ∨ _ ∧ n = 1))%nat as [Hd|Hd] in H; [done|].
  lia.
Qed.

Lemma merge_suggestions_outcome_witness :
  let dt := "Board Resolution" in
  let fs := [clause_issue dt "Quorum"] in
  let sugs : list (gmap str str) :=
    [ {[ "issue" := "Quorum" ]};
      {[ "issue" := "Dividends policy" ]};
      {[ "issue" := "Jurisdiction clause missing" ]} ] in
  ∃ fs', merge_suggestions dt fs sugs = Returned fs'
         ∧ length fs' = 2%nat.
Proof.
  intros dt fs sugs.
  apply (merge_suggestions_outcome dt fs sugs).
  vm_compute. lia.
Defined.

End MergeOutcome.

(** ** Keys and applicability *)

Section Applicability.

Local Arguments merge_suggestion : simpl never.
Local Arguments normalize_issue_key : simpl never.
Local Arguments doc_type_accepts_issue_key : simpl never.

(** *** Letter case and blanks *)

Lemma lower_char_upper_char (c : ascii) :
  lower_char (upper_char c) = lower_char c.
Proof.
  destruct c as [b0 b1 b2 b3 b4 b5 b6 b7].
  destruct b0, b1, b2, b3, b4, b5, b6, b7; reflexivity.
Qed.

Lemma lower_char_lower_char (c : ascii) :
  lower_char (lower_char c) = lower_char c.
Proof.
  destruct c as [b0 b1 b2 b3 b4 b5 b6 b7].
  destruct b0, b1, b2, b3, b4, b5, b6, b7; reflexivity.
Qed.

Lemma is_space_lower_char (c : ascii) : is_space (lower_char c) = is_space c.
Proof.
  destruct c as [b0 b1 b2 b3 b4 b5 b6 b7].
  destruct b0, b1, b2, b3, b4, b5, b6, b7; reflexivity.
Qed.

Lemma lower_upper (s : str) : lower (upper s) = lower s.
Proof.
  unfold lower, upper. rewrite map_map. apply map_ext.
  apply lower_char_upper_char.
Qed.

Lemma lower_lower (s : str) : lower (lower s) = lower s.
Proof.
  unfold lower. rewrite map_map. apply map_ext. apply lower_char_lower_char.
Qed.

Lemma lstrip_lower (s : str) : lstrip (lower s) = lower (lstrip s).
Proof.
  induction s as [|c s IH]; [done|]. cbn [lower map lstrip].
  rewrite is_space_lower_char. by destruct (is_space c).
Qed.

Lemma rstrip_lower (s : str) : rstrip (lower s) = lower (rstrip s).
Proof.
  induction s as [|c s IH]; [done|]. cbn [lower map rstrip].
  fold (lower s). rewrite IH, is_space_lower_char.
  destruct (rstrip s); [by destruct (is_space c) | done].
Qed.

Lemma strip_lower (s : str) : strip (lower s) = lower (strip s).
Proof. unfold strip. by rewrite lstrip_lower, rstrip_lower. Qed.

(** The normalizer only looks at the lowercased, trimmed text. *)
Lemma normalize_issue_key_ext (x y : str) :
  strip (lower x) = strip (lower y) →
  normalize_issue_key x = normalize_issue_key y.
Proof. intros H. unfold normalize_issue_key. by rewrite H. Qed.

(** X2.  On ASCII text the key does not depend on letter case or on
    blanks around the text: upper-casing, lower-casing or trimming the
    input leaves it unchanged. *)
Theorem normalize_issue_key_case_blind (x : str) :
  isascii x = true →
  normalize_issue_key (upper x) = normalize_issue_key x
  ∧ normalize_issue_key (lower x) = normalize_issue_key x
  ∧ normalize_issue_key (strip x) = normalize_issue_key x.
Proof.
  intros _. split; [|split]; apply normalize_issue_key_ext.
  - by rewrite lower_upper.
  - by rewrite lower_lower.
  - by rewrite <- strip_lower, strip_strip.
Qed.

Lemma normalize_issue_key_case_blind_witness :
  let x := "  Governing Law: ADGM Courts " in
  normalize_issue_key (upper x) = normalize_issue_key x
  ∧ normalize_issue_key (lower x) = normalize_issue_key x
  ∧ normalize_issue_key (strip x) = normalize_issue_key x.
Proof.
  intros x. apply (normalize_issue_key_case_blind x). reflexivity.
Defined.

(** *** The allow-lists *)

Lemma contains_trans (a b c : str) :
  contains a b = true → contains b c = true → contains a c = true.
Proof.
  rewrite !contains_spec.
  intros (p & q & ->) (p' & q' & ->).
  exists (p' ++ p), (q ++ q'). by rewrite <- !app_assoc.
Qed.

Lemma contains_refl (a : str) : contains a a = true.
Proof. apply contains_spec. exists [], []. by rewrite app_nil_r. Qed.

Lemma contains_truthy (a b : str) :
  truthy a = true → contains a b = true → truthy b = true.
Proof.
  intros Ha (p & q & ->)%contains_spec.
  destruct a; [done|]. by destruct p.
Qed.

Lemma any_contained_spec (toks : list str) (k : str) :
  any_contained toks k = true ↔ ∃ tok, tok ∈ toks ∧ contains tok k = true.
Proof.
  unfold any_contained. rewrite existsb_exists.
  split; intros (tok & Hin & Hc); exists tok; split; try done;
    by apply list_elem_of_In.
Qed.

Lemma allow_list_common (dt tok : str) :
  tok ∈ COMMON → tok ∈ allow_list dt.
Proof.
  intros H. unfold allow_list, AOA_KEYS, MOA_KEYS, RES_KEYS, REG_KEYS,
    UBO_KEYS.
  repeat case_match; try done; apply elem_of_app; by left.
Qed.

Lemma doc_type_accepts_issue_key_spec (dt k : str) :
  doc_type_accepts_issue_key dt k = true
  ↔ k ≠ [] ∧ ∃ tok, tok ∈ allow_list dt ∧ contains tok (lower k) = true.
Proof.
  unfold doc_type_accepts_issue_key. rewrite truthy_lower.
  destruct k as [|c k]; cbn [truthy negb].
  - split; [done | by intros [? _]].
  - rewrite any_contained_spec. split; [by intros ? | by intros [_ ?]].
Qed.

(** X3.  The empty key is accepted for no document type; a key that
    contains one of the common tokens (jurisdiction, adgm, ambiguity,
    signatories) is accepted for every document type; a key that contains
    an accepted key is accepted too; and for an ASCII document type and an
    ASCII key the letter case of neither matters. *)
Theorem doc_type_accepts_issue_key_common (dt k : str) :
  doc_type_accepts_issue_key dt "" = false
  ∧ (∀ tok, tok ∈ COMMON → contains tok (lower k) = true →
            doc_type_accepts_issue_key dt k = true)
  ∧ (∀ k', doc_type_accepts_issue_key dt k = true →
           contains (lower k) (lower k') = true →
           doc_type_accepts_issue_key dt k' = true)
  ∧ (isascii dt = true → isascii k = true →
     doc_type_accepts_issue_key (upper dt) (upper k)
     = doc_type_accepts_issue_key dt k).
Proof.
  split; [done|]. split; [|split].
  - intros tok Htok Hc. apply doc_type_accepts_issue_key_spec. split.
    + intros ->. assert (truthy tok = true) as Ht.
      { unfold COMMON in Htok. rewrite !elem_of_cons, elem_of_nil in Htok.
        by destruct Htok as [->|[->|[->|[->|[]]]]]. }
      by apply (contains_truthy _ _ Ht) in Hc.
    + exists tok. split; [by apply allow_list_common | done].
  - intros k' (Hk & tok & Htok & Hc)%doc_type_accepts_issue_key_spec Hkk'.
    apply doc_type_accepts_issue_key_spec. split.
    + intros ->. destruct k; [done|]. by apply contains_truthy in Hkk'.
    + exists tok. split; [done|]. by eapply contains_trans.
  - intros _ _. unfold doc_type_accepts_issue_key, allow_list.
    by rewrite !lower_upper.
Qed.

Lemma doc_type_accepts_issue_key_common_witness :
  doc_type_accepts_issue_key "Register of Members and Directors"
    "missing signatories block" = true
  ∧ doc_type_accepts_issue_key "Unknown" "the jurisdiction clause" = true
  ∧ doc_type_accepts_issue_key (upper "Board Resolution") (upper "quorum")
    = doc_type_accepts_issue_key "Board Resolution" "quorum".
Proof.
  split; [|split].
  - apply (proj1 (proj2 (doc_type_accepts_issue_key_common
             "Register of Members and Directors"
             "missing signatories block")) "signatories").
    + vm_compute. set_solver.
    + vm_compute; reflexivity.
  - apply (proj1 (proj2 (proj2 (doc_type_accepts_issue_key_common
             "Unknown" "jurisdiction"))) "the jurisdiction clause").
    + vm_compute; reflexivity.
    + vm_compute; reflexivity.
  - apply (proj2 (proj2 (proj2 (doc_type_accepts_issue_key_common
             "Board Resolution" "quorum")))); reflexivity.
Defined.

End Applicability.

(** ** Suggestions that repeat a finding *)

Section Repeats.

Local Arguments merge_suggestion : simpl never.
Local Arguments normalize_issue_key : simpl never.
Local Arguments doc_type_accepts_issue_key : simpl never.

Lemma normalize_issue_key_strip (x : str) :
  normalize_issue_key (strip x) = normalize_issue_key x.
Proof.
  apply normalize_issue_key_ext. by rewrite <- strip_lower, strip_strip.
Qed.

Lemma accepts_common_token (dt k tok : str) :
  tok ∈ COMMON → contains tok (lower k) = true →
  doc_type_accepts_issue_key dt k = true.
Proof.
  intros Htok Hc. apply doc_type_accepts_issue_key_spec. split.
  - intros ->. assert (truthy tok = true) as Ht.
    { unfold COMMON in Htok. rewrite !elem_of_cons, elem_of_nil in Htok.
      by destruct Htok as [->|[->|[->|[->|[]]]]]. }
    by apply (contains_truthy _ _ Ht) in Hc.
  - exists tok. split; [by apply allow_list_common | done].
Qed.

Lemma keys_match_refl (k : str) : truthy k = true → keys_match k k = true.
Proof. intros H. unfold keys_match. by rewrite H, contains_refl. Qed.

Lemma merge_suggestion_matched (dt : str) (keys : list str)
    (fs : list (gmap str str)) (sug : gmap str str) :
  doc_type_accepts_issue_key dt (sug_key sug) = true →
  (∃ j k, keys !! j = Some k ∧ keys_match (sug_key sug) k = true) →
  (length keys ≤ length fs)%nat →
  ∃ i, (i < length keys)%nat
       ∧ merge_suggestion dt keys fs sug = Returned (alter (enrich sug) i fs).
Proof.
  intros Hacc (j & k & Hk & Hm) Hlen. unfold merge_suggestion.
  rewrite Hacc. cbn [negb].
  destruct (search_from_found keys (sug_key sug) fs 0%nat) as [i Hi];
    [exists j, k; split; [lia | done] | lia |].
  rewrite Hi. exists i. split; [|done].
  by apply search_from_matched in Hi as [_ ?].
Qed.

Lemma merge_loop_app (dt : str) (keys : list str)
    (before after : list (gmap str str)) :
  ∀ fs : list (gmap str str),
    merge_loop dt keys fs (before ++ after) =
      match merge_loop dt keys fs before with
      | Returned fs' => merge_loop dt keys fs' after
      | Raised e fs' => Raised e fs'
      end.
Proof.
  induction before as [|sug before IH]; intros fs; cbn [app merge_loop];
    [done|].
  destruct (merge_suggestion dt keys fs sug); [apply IH | done].
Qed.

Lemma merge_suggestions_loop (dt : str) (fs sugs : list (gmap str str)) :
  merge_suggestions dt fs sugs = merge_loop dt (issue_key <$> fs) fs sugs.
Proof. unfold merge_suggestions. by destruct sugs. Qed.

(** A suggestion that repeats the text of one of the findings the keys
    were computed from is merged when its turn comes. *)
Lemma merge_same_text (dt : str) (fs before : list (gmap str str))
    (f sug : gmap str str) :
  f ∈ fs →
  strip (lower (get sug "issue" "")) = strip (lower (get f "issue" "")) →
  doc_type_accepts_issue_key dt (issue_key f) = true →
  raised (merge_suggestions dt fs before) = None →
  ∃ i, (i < length fs)%nat
       ∧ merge_suggestions dt fs (before ++ [sug])
         = Returned (alter (enrich sug) i
                       (state_of (merge_suggestions dt fs before))).
Proof.
  intros Hf Htext Hacc Hbefore.
  assert (Hkey : sug_key sug = issue_key f).
  { unfold sug_key, sug_issue_raw, issue_key.
    rewrite normalize_issue_key_strip.
    by apply normalize_issue_key_ext. }
  rewrite !merge_suggestions_loop in *. rewrite merge_loop_app.
  pose proof (proj1 (merge_loop_preserves dt (issue_key <$> fs) before fs))
    as Hlen.
  destruct (merge_loop dt (issue_key <$> fs) fs before) as [cur|e cur];
    [|done].
  cbn [state_of] in *. cbn [merge_loop].
  apply list_elem_of_lookup_1 in Hf as [j Hj].
  destruct (merge_suggestion_matched dt (issue_key <$> fs) cur sug)
    as (i & Hi & Hm).
  - by rewrite Hkey.
  - exists j, (issue_key f). rewrite list_lookup_fmap, Hj. split; [done|].
    rewrite Hkey. apply keys_match_refl.
    by eapply accepted_key_nonempty.
  - by rewrite length_fmap.
  - exists i. rewrite length_fmap in Hi. split; [done|]. by rewrite Hm.
Qed.

(** X4.  In a pass over any list of suggestions, a suggestion whose issue
    text is, up to letter case and blanks around it, the issue text of one
    of the findings the file had when the merge started, and whose key the
    document type accepts, is merged when its turn comes: if the
    suggestions before it were handled without an exception, the pass up
    to and including it returns, one of those findings is enriched and
    nothing is appended. *)
Theorem repeated_issue_is_merged (dt : str)
    (fs before : list (gmap str str)) (f sug : gmap str str) :
  f ∈ fs →
  strip (lower (get sug "issue" "")) = strip (lower (get f "issue" "")) →
  doc_type_accepts_issue_key dt (issue_key f) = true →
  raised (merge_suggestions dt fs before) = None →
  ∃ i, (i < length fs)%nat
       ∧ merge_suggestions dt fs (before ++ [sug])
         = Returned (alter (enrich sug) i
                       (state_of (merge_suggestions dt fs before))).
Proof. apply merge_same_text. Qed.

Lemma repeated_issue_is_merged_witness :
  let dt := "Memorandum of Association" in
  let f := clause_issue dt "Registered Address" in
  let g := clause_issue dt "Objects" in
  let new : gmap str str :=
    {[ "issue" := "Jurisdiction clause missing";
       "suggestion" := "Name the ADGM Courts." ]} in
  let sug : gmap str str :=
    {[ "issue" := "  MISSING REQUIRED CLAUSE: registered address ";
       "suggestion" := "State the registered address in ADGM." ]} in
  length (state_of (merge_suggestions dt [g; f] [new])) = 3%nat
  ∧ ∃ i, (i < 2)%nat
         ∧ merge_suggestions dt [g; f] ([new] ++ [sug])
           = Returned (alter (enrich sug) i
                         (state_of (merge_suggestions dt [g; f] [new]))).
Proof.
  intros dt f g new sug. split; [vm_compute; reflexivity|].
  apply (repeated_issue_is_merged dt [g; f] [new] f sug).
  - right. left.
  - vm_compute; reflexivity.
  - vm_compute; reflexivity.
  - vm_compute; reflexivity.
Defined.

Lemma red_flag_issue_key (dt : str) (rf : RedFlag) :
  issue_key (red_flag_issue dt rf) = normalize_issue_key (rf_issue rf).
Proof.
  unfold issue_key, get, red_flag_issue.
  cbn [list_to_map foldr uncurry fst snd].
  rewrite !lookup_insert_ne by discriminate.
  by rewrite lookup_insert_eq.
Qed.

Lemma find_red_flags_elem (di : DocInfo) (dt : option str) (rf : RedFlag) :
  rf ∈ find_red_flags di dt →
  rf = jurisdiction_flag ∨ rf = ambiguity_flag ∨ rf = signatory_flag.
Proof.
  unfold find_red_flags.
  repeat case_match; cbn [app]; rewrite ?elem_of_cons, elem_of_nil; tauto.
Qed.

(** X5.  Every red flag the rule engine can raise has a key that every
    document type accepts; so, whatever the document type, a suggestion
    that repeats the issue text of a red flag of the file is merged into
    a finding of the rule report when its turn comes: if the suggestions
    before it were handled without an exception, the pass up to and
    including it returns with one finding of the report enriched and
    nothing appended. *)
Theorem red_flag_suggestion_is_merged (di : DocInfo) (dt file : str)
    (missing : list str) (rf : RedFlag)
    (before : list (gmap str str)) (sug : gmap str str) :
  rf ∈ find_red_flags di (Some dt) →
  get sug "issue" "" = rf_issue rf →
  let report := build_issue_report file dt missing (find_red_flags di (Some dt)) in
  (∀ dt', doc_type_accepts_issue_key dt'
            (issue_key (red_flag_issue dt rf)) = true)
  ∧ (raised (merge_suggestions dt report before) = None →
     ∃ i, (i < length report)%nat
          ∧ merge_suggestions dt report (before ++ [sug])
            = Returned (alter (enrich sug) i
                          (state_of (merge_suggestions dt report before)))).
Proof.
  intros Hrf Hissue report.
  assert (Hacc : ∀ dt', doc_type_accepts_issue_key dt'
                          (issue_key (red_flag_issue dt rf)) = true).
  { intros dt'. rewrite red_flag_issue_key.
    destruct (find_red_flags_elem _ _ _ Hrf) as [->|[->| ->]].
    - apply (accepts_common_token dt' _ "adgm");
        [set_solver | vm_compute; reflexivity].
    - apply (accepts_common_token dt' _ "ambiguity");
        [set_solver | vm_compute; reflexivity].
    - apply (accepts_common_token dt' _ "signatories");
        [set_solver | vm_compute; reflexivity]. }
  split; [exact Hacc|].
  apply (merge_same_text dt report before (red_flag_issue dt rf) sug).
  - unfold report, build_issue_report. apply elem_of_app. right.
    change (red_flag_issue dt rf
            ∈ red_flag_issue dt <$> find_red_flags di (Some dt)).
    by apply list_elem_of_fmap_2.
  - rewrite Hissue. do 2 f_equal; unfold get, red_flag_issue;
      cbn [list_to_map foldr uncurry fst snd];
      rewrite !lookup_insert_ne by discriminate;
      by rewrite lookup_insert_eq.
  - apply Hacc.
Qed.

Lemma red_flag_suggestion_is_merged_witness :
  let di := extracted ["Disputes go to the UAE Federal Court."] [] in
  let dt := "Register of Members and Directors" in
  let new : gmap str str :=
    {[ "issue" := "Register of directors is incomplete";
       "suggestion" := "List every director." ]} in
  let sug : gmap str str :=
    {[ "issue" := "References UAE Federal Court instead of ADGM";
       "suggestion" := "Refer disputes to the ADGM Courts." ]} in
  let report := build_issue_report "register.docx" dt ["Members"]
                  (find_red_flags di (Some dt)) in
  ∃ i, (i < length report)%nat
       ∧ merge_suggestions dt report ([new] ++ [sug])
         = Returned (alter (enrich sug) i
                       (state_of (merge_suggestions dt report [new]))).
Proof.
  intros di dt new sug report.
  apply (proj2 (red_flag_suggestion_is_merged di dt "register.docx"
                  ["Members"] jurisdiction_flag [new] sug
                  ltac:(vm_compute; left) eq_refl)).
  vm_compute; reflexivity.
Defined.

End Repeats.

(** ** Where comments go *)

Section Targets.

Lemma StronglySorted_filter {A} (R : relation A) (P : A → Prop)
    `{!∀ x, Decision (P x)} (l : list A) :
  StronglySorted R l → StronglySorted R (filter P l).
Proof.
  induction 1 as [|x l Hl IH Hx]; [constructor|].
  rewrite filter_cons. destruct (decide (P x)); [|done].
  constructor; [done|].
  rewrite Forall_forall in Hx |- *.
  intros y [_ Hy]%list_elem_of_filter. by apply Hx.
Qed.

Lemma seqZ_sorted (n : nat) :
  ∀ m, StronglySorted Z.lt (seqZ m (Z.of_nat n)).
Proof.
  induction n as [|n IH]; intros m.
  - rewrite seqZ_nil by done. constructor.
  - rewrite seqZ_cons by lia.
    replace (Z.pred (Z.of_nat (S n))) with (Z.of_nat n) by lia.
    constructor; [apply IH|].
    apply Forall_forall. intros j Hj%elem_of_seqZ. lia.
Qed.

Lemma matching_indexes_range (snippet : str) (paragraphs : list str) :
  Forall (λ i, 0 ≤ i < Z.of_nat (length paragraphs))
         (matching_indexes snippet paragraphs).
Proof.
  apply Forall_forall. unfold matching_indexes.
  intros i [_ Hi%elem_of_seqZ]%list_elem_of_filter. lia.
Qed.

Lemma find_paragraph_indexes_range (snippet : str) (paragraphs : list str) :
  Forall (λ i, 0 ≤ i < Z.of_nat (length paragraphs))
         (find_paragraph_indexes snippet paragraphs).
Proof.
  rewrite find_paragraph_indexes_matching.
  destruct (truthy snippet); [apply matching_indexes_range | constructor].
Qed.

Lemma target_range (hits : list Z) (paragraphs : list str) :
  Forall (λ i, 0 ≤ i < Z.of_nat (length paragraphs)) hits →
  0 ≤ target hits paragraphs
      ≤ Z.max 0 (Z.of_nat (length paragraphs) - 1).
Proof.
  intros Hh. unfold target. destruct hits as [|i hits]; [lia|].
  apply Forall_cons in Hh as [Hi _]. lia.
Qed.

(** X6.  The indexes the resolver returns are positions of the paragraph
    list, strictly increasing (so none is returned twice) and no more than
    there are paragraphs; and the index chosen at a call site, first hit or
    fallback, is never negative and never beyond the last paragraph. *)
Theorem find_paragraph_indexes_in_range (snippet : str)
    (paragraphs : list str) :
  let hits := find_paragraph_indexes snippet paragraphs in
  StronglySorted Z.lt hits
  ∧ Forall (λ i, 0 ≤ i < Z.of_nat (length paragraphs)) hits
  ∧ (length hits ≤ length paragraphs)%nat
  ∧ 0 ≤ target hits paragraphs
        ≤ Z.max 0 (Z.of_nat (length paragraphs) - 1).
Proof.
  intros hits.
  pose proof (find_paragraph_indexes_range snippet paragraphs) as Hr.
  split; [|split; [exact Hr|split; [|by apply target_range]]].
  - subst hits. rewrite find_paragraph_indexes_matching.
    destruct (truthy snippet); [|constructor].
    apply StronglySorted_filter, seqZ_sorted.
  - subst hits. rewrite find_paragraph_indexes_matching.
    destruct (truthy snippet); [|simpl; lia].
    unfold matching_indexes.
    etrans; [apply length_filter|]. rewrite length_seqZ. lia.
Qed.

(** *** One comment *)

Lemma line_feeds_id (s : str) : "013"%char ∉ s → line_feeds s = s.
Proof.
  induction s as [|c s IH]; [done|]. intros Hc.
  apply not_elem_of_cons in Hc as [Hc Hs]. cbn [line_feeds map].
  fold (line_feeds s). rewrite IH by done.
  by rewrite bool_decide_eq_false_2 by (intros ->; by apply Hc).
Qed.

(** X7.  Writing a comment never changes the number of paragraphs, leaves
    every paragraph other than the one at the redirected index exactly as
    it was, and in that paragraph keeps all existing runs and adds exactly
    one run.  When the comment holds no character that XML rejects, the
    new run is bold, highlighted (red exactly when the ASCII highlight
    name, trimmed and upper-cased, is RED), and reads back as the comment
    text with LF for every CR, hence as the comment text itself when there
    is no CR in it. *)
Theorem annotate_paragraph_frame (doc : Document) (para_index : Z)
    (comment_text highlight : str) :
  let doc' := state_of (annotate_paragraph doc para_index comment_text
                          highlight) in
  let i := Z.to_nat (redirected_index doc para_index) in
  length doc' = length doc
  ∧ (∀ j, j ≠ i → doc' !! j = doc !! j)
  ∧ (∀ para, doc !! i = Some para →
       ∃ run, doc' !! i = Some (para ++ [run])
              ∧ (xml_compatible comment_text = true →
                 run_bold run = Some true
                 ∧ is_Some (run_highlight run)
                 ∧ (isascii highlight = true →
                    run_highlight run = Some (highlight_color highlight))
                 ∧ run_text run
                   = line_feeds (" [COMMENT: " ++ comment_text ++ "]")
                 ∧ ("013"%char ∉ comment_text →
                    run_text run = " [COMMENT: " ++ comment_text ++ "]"))).
Proof.
  intros doc' i. subst doc'. rewrite annotate_paragraph_state. fold i.
  split; [apply length_alter|]. split.
  - intros j Hj. by apply list_lookup_alter_ne.
  - intros para Hp.
    exists (state_of (comment_run comment_text highlight)).
    rewrite list_lookup_alter_eq, Hp. split; [done|]. intros Hxml.
    pose proof (comment_run_spec comment_text highlight) as Hrun.
    rewrite Hxml in Hrun. destruct Hrun as (run & -> & Hb & Hh & Ht).
    cbn [state_of]. rewrite Hh.
    split; [done|]. split; [by eauto|]. split; [done|]. split; [done|].
    intros Hcr. rewrite Ht. apply line_feeds_id.
    rewrite !elem_of_app. intros [Hin|[Hin|Hin]]; [|done|].
    + vm_compute in Hin. by repeat (apply elem_of_cons in Hin as [?|Hin]);
        try by apply elem_of_nil in Hin.
    + vm_compute in Hin. by repeat (apply elem_of_cons in Hin as [?|Hin]);
        try by apply elem_of_nil in Hin.
Qed.

Lemma annotate_paragraph_frame_witness :
  let old := {| run_content := [W_t "Quorum: two directors"];
                run_bold := None; run_highlight := None |} in
  let doc : Document := [[old]; []] in
  let doc' := state_of (annotate_paragraph doc 0 "Red flag: x" "red ") in
  doc' !! 1%nat = Some []
  ∧ ∃ run, doc' !! 0%nat = Some ([old] ++ [run])
           ∧ run_bold run = Some true
           ∧ run_highlight run = Some RED
           ∧ run_text run = " [COMMENT: Red flag: x]".
Proof.
  intros old doc doc'. split.
  - apply (proj1 (proj2 (annotate_paragraph_frame doc 0 "Red flag: x"
                           "red ")) 1%nat).
    vm_compute. discriminate.
  - destruct (proj2 (proj2 (annotate_paragraph_frame doc 0 "Red flag: x"
                              "red ")) [old] eq_refl)
      as (run & Hrun & Hprops).
    exists run. split; [exact Hrun|].
    destruct (Hprops eq_refl) as (Hb & _ & Hh & _ & Ht).
    split; [exact Hb|]. split; [exact (Hh eq_refl)|]. apply Ht.
    vm_compute. intros Hin.
    repeat (apply elem_of_cons in Hin as [Hin|Hin]; [discriminate Hin|]).
    by apply elem_of_nil in Hin.
Defined.

End Targets.

(** ** The annotation step as a whole *)

Section AnnotationStep.

Local Arguments annotate_paragraph : simpl never.

Lemma replay_length (d : Document) (log : list call) :
  length (replay d log) = length d.
Proof.
  unfold replay. revert d. induction log as [|c log IH]; intros d; [done|].
  cbn [foldl]. rewrite IH, annotate_paragraph_state. apply length_alter.
Qed.

Lemma replay_snoc (d : Document) (log : list call) (c : call) :
  replay d (log ++ [c]) =
    state_of (annotate_paragraph (replay d log) (call_index c)
                (call_comment c) (call_highlight c)).
Proof. unfold replay. by rewrite foldl_app. Qed.

Lemma annotate_once_within (d : Document) (ps : list str) (n : nat)
    (st : annotation) (index : Z) (comment highlight : str) :
  0 ≤ index ≤ Z.max 0 (Z.of_nat (length ps) - 1) →
  annotated_within d ps n st →
  annotated_within d ps (S n) (annotate_once st index comment highlight).
Proof.
  intros Hi (Hn & Hr & Hd). unfold annotate_once.
  destruct (bool_decide _).
  - split; [lia|]. done.
  - unfold annotated_within. cbn [calls doc]. split; [|split].
    + rewrite length_app. cbn [length]. lia.
    + apply Forall_app. split; [done|]. by apply Forall_singleton.
    + by rewrite replay_snoc, Hd.
Qed.

Lemma foldl_within {A} (d : Document) (ps : list str)
    (f : annotation → A → annotation) (l : list A) :
  (∀ n st x, annotated_within d ps n st →
             annotated_within d ps (S n) (f st x)) →
  ∀ n st, annotated_within d ps n st →
          annotated_within d ps (n + length l) (foldl f st l).
Proof.
  intros Hf. induction l as [|x l IH]; intros n st Hst; cbn [foldl length].
  - by rewrite Nat.add_0_r.
  - replace (n + S (length l))%nat with (S n + length l)%nat by lia.
    apply IH, Hf, Hst.
Qed.

Lemma annotate_document_within (seen : gset (Z * str)) (d : Document)
    (ps missing : list str) (rfs : list RedFlag)
    (ais : list (gmap str str)) :
  annotated_within d ps (length missing + length rfs + length ais)
    (annotate_document seen d ps missing rfs ais).
Proof.
  unfold annotate_document.
  apply foldl_within.
  { intros n st sug. unfold annotate_suggestion.
    rewrite find_paragraph_indexes_guarded.
    apply annotate_once_within, target_range,
      find_paragraph_indexes_range. }
  apply foldl_within.
  { intros n st rf. unfold annotate_red_flag.
    rewrite find_paragraph_indexes_guarded.
    apply annotate_once_within, target_range,
      find_paragraph_indexes_range. }
  apply (foldl_within d ps _ missing) with (n := 0%nat).
  { intros n st clause. unfold annotate_clause.
    apply annotate_once_within, target_range,
      find_paragraph_indexes_range. }
  split; [done|]. split; [constructor | done].
Qed.

(** X8.  Step 7 makes at most one call per missing clause, red flag and
    suggestion; every call goes to an index between 0 and the last
    extracted paragraph; the annotated document is exactly what these
    calls, made in order, produce; and it has as many paragraphs as the
    document that was opened. *)
Theorem annotate_document_calls (seen : gset (Z * str)) (d : Document)
    (ps missing : list str) (rfs : list RedFlag)
    (ais : list (gmap str str)) :
  let st := annotate_document seen d ps missing rfs ais in
  (length (calls st) ≤ length missing + length rfs + length ais)%nat
  ∧ Forall (λ c, 0 ≤ call_index c
                 ≤ Z.max 0 (Z.of_nat (length ps) - 1)) (calls st)
  ∧ doc st = replay d (calls st)
  ∧ length (doc st) = length d.
Proof.
  intros st.
  destruct (annotate_document_within seen d ps missing rfs ais)
    as (Hn & Hr & Hd).
  repeat split; try done. subst st. rewrite Hd. apply replay_length.
Qed.

Lemma annotate_once_again (st : annotation) (index : Z)
    (c c' h h' : str) :
  strip (lower c') = strip (lower c) →
  annotate_once (annotate_once st index c h) index c' h'
  = annotate_once st index c h.
Proof.
  intros Hc.
  assert (Hk : dedup_key index c' = dedup_key index c).
  { unfold dedup_key. by rewrite Hc. }
  unfold annotate_once at 2.
  destruct (bool_decide_reflect (dedup_key index c ∈ seen_comments st))
    as [Hin|Hnot].
  - unfold annotate_once. rewrite Hk.
    by rewrite !(bool_decide_eq_true_2 _ Hin).
  - unfold annotate_once. cbn [seen_comments]. rewrite Hk.
    assert (Hin : dedup_key index c
                  ∈ seen_comments st ∪ {[dedup_key index c]})
      by set_solver.
    rewrite (bool_decide_eq_true_2 _ Hin).
    by rewrite (bool_decide_eq_false_2 _ Hnot).
Qed.

(** X9.  Asking again for a comment on the same paragraph whose text
    differs from an earlier one only in letter case or in blanks around it
    changes nothing: no call is made, whatever the highlight. *)
Theorem annotate_once_repeated (st : annotation) (index : Z)
    (c c' h h' : str) :
  strip (lower c') = strip (lower c) →
  annotate_once (annotate_once st index c h) index c' h'
  = annotate_once st index c h.
Proof. apply annotate_once_again. Qed.

Lemma annotate_once_repeated_witness :
  let st := {| doc := [[]]; seen_comments := ∅; calls := [] |} in
  annotate_once (annotate_once st 0 "Red flag: x" "RED") 0
    "  RED FLAG: X " "YELLOW"
  = annotate_once st 0 "Red flag: x" "RED".
Proof.
  intros st.
  apply (annotate_once_repeated st 0 "Red flag: x" "  RED FLAG: X "
           "RED" "YELLOW").
  vm_compute; reflexivity.
Defined.

End AnnotationStep.

(** ** The rule engine *)

Section RuleEngine.

Lemma red_flags_distinct :
  jurisdiction_flag ≠ ambiguity_flag
  ∧ jurisdiction_flag ≠ signatory_flag
  ∧ ambiguity_flag ≠ signatory_flag.
Proof. repeat split; discriminate. Qed.

(** X10.  The red flags come out in a fixed order (wrong jurisdiction,
    ambiguous language, missing signatory section), each at most once; the
    first is present exactly when the text mentions the UAE Federal Court
    in any letter case, the second exactly when one of the four hedge
    phrases occurs; and neither depends on the document type. *)
Theorem find_red_flags_shape (di : DocInfo) (dt : option str) :
  let text := lower (default "" (full_text di)) in
  let flags := find_red_flags di dt in
  flags `sublist_of` [jurisdiction_flag; ambiguity_flag; signatory_flag]
  ∧ (jurisdiction_flag ∈ flags ↔ contains "uae federal court" text = true)
  ∧ (ambiguity_flag ∈ flags
     ↔ ∃ m, m ∈ ambiguous_markers ∧ contains m text = true)
  ∧ filter (λ f, f ≠ signatory_flag) flags = find_red_flags di None.
Proof.
  intros text flags. subst flags. unfold find_red_flags. fold text.
  destruct red_flags_distinct as (H12 & H13 & H23).
  assert (Hex : existsb (λ m, contains m text) ambiguous_markers = true
                ↔ ∃ m, m ∈ ambiguous_markers ∧ contains m text = true).
  { rewrite existsb_exists. split; intros (m & Hm & Hc); exists m;
      (split; [by apply list_elem_of_In | done]). }
  rewrite <- Hex. clear Hex.
  cbn [in_requires_signature andb].
  destruct (contains "uae federal court" text);
    destruct (existsb _ ambiguous_markers);
    destruct (in_requires_signature dt && _);
    cbn [app];
    (split; [repeat (apply sublist_skip || apply sublist_cons
                     || apply sublist_nil_l)|]);
    (split; [rewrite ?elem_of_cons, elem_of_nil; naive_solver|]);
    (split; [rewrite ?elem_of_cons, elem_of_nil; naive_solver|]);
    repeat (rewrite filter_cons_True by done
            || rewrite filter_cons_False by (intros H; by apply H)
            || rewrite filter_nil); done.
Qed.

Lemma filter_sublist_impl {A} (P Q : A → Prop) `{!∀ x, Decision (P x)}
    `{!∀ x, Decision (Q x)} (l : list A) :
  (∀ x, P x → Q x) → filter P l `sublist_of` filter Q l.
Proof.
  intros HPQ. induction l as [|x l IH]; [done|].
  rewrite !filter_cons.
  destruct (decide (P x)) as [HP|HP], (decide (Q x)) as [HQ|HQ].
  - by apply sublist_skip.
  - by destruct HQ; auto.
  - by apply sublist_cons.
  - done.
Qed.

Lemma check_required_clauses_absent (di : DocInfo) (dt : str)
    (rules : Rules) :
  check_required_clauses di dt rules =
    absent_keywords (default "" (full_text di))
      (trimmed_keywords (required_keywords rules dt)).
Proof. rewrite check_required_clauses_required. apply missing_loop_spec. Qed.

(** X11.  Every keyword reported missing is non-empty, carries no blanks
    around it and does not occur in the lowercased text; no more keywords
    are reported than the rule set requires; and for ASCII text, putting
    more ASCII text before or after the full text can only remove keywords
    from the report, in place. *)
Theorem check_required_clauses_sound (di : DocInfo) (dt : str)
    (rules : Rules) :
  let text := default "" (full_text di) in
  let missing := check_required_clauses di dt rules in
  Forall (λ k, k ≠ [] ∧ strip k = k
               ∧ contains (lower k) (lower text) = false) missing
  ∧ (length missing ≤ length (required_keywords rules dt))%nat
  ∧ ∀ before after,
      isascii before = true → isascii text = true → isascii after = true →
      check_required_clauses
        {| paragraphs := paragraphs di; headings := headings di;
           full_text := Some (before ++ text ++ after) |} dt rules
      `sublist_of` missing.
Proof.
  intros text missing. subst missing.
  rewrite check_required_clauses_absent. fold text.
  split; [|split].
  - apply Forall_forall. unfold absent_keywords, trimmed_keywords.
    intros k Hk.
    apply list_elem_of_filter in Hk as [Hc Hk].
    apply list_elem_of_filter in Hk as [Hne Hk].
    apply list_elem_of_fmap in Hk as (k0 & -> & _).
    split; [done|]. split; [apply strip_strip | done].
  - unfold absent_keywords, trimmed_keywords.
    etrans; [apply length_filter|]. etrans; [apply length_filter|].
    by rewrite length_fmap.
  - intros before after _ _ _. rewrite check_required_clauses_absent.
    cbn [full_text default from_option].
    apply filter_sublist_impl. intros k Hk. cbv beta in Hk |- *.
    destruct (contains (lower k) (lower text)) eqn:Hc; [|done].
    unfold id in Hk. rewrite !lower_app in Hk.
    apply contains_spec in Hc as (p & q & Hc).
    assert (Hin : contains (lower k)
                    (lower before ++ lower text ++ lower after) = true).
    { apply contains_spec. exists (lower before ++ p), (q ++ lower after).
      rewrite Hc. by rewrite <- !app_assoc. }
    congruence.
Qed.

Lemma check_required_clauses_sound_witness :
  let di := extracted ["Quorum: two directors"] [] in
  let rules := {| clauses_per_doc :=
                    Some {[ "Board Resolution" :=
                              Some ["Quorum"; "Signature"; "Date"] ]};
                  required_documents := [] |} in
  check_required_clauses
    {| paragraphs := paragraphs di; headings := headings di;
       full_text := Some ("Board Resolution. " ++ "Quorum: two directors"
                          ++ " Signature: A. Owner") |}
    "Board Resolution" rules
  `sublist_of` check_required_clauses di "Board Resolution" rules.
Proof.
  intros di rules.
  apply (proj2 (proj2 (check_required_clauses_sound di "Board Resolution"
                         rules))
           "Board Resolution. " " Signature: A. Owner"); reflexivity.
Defined.

Lemma clause_issue_fields (dt clause : str) :
  clause_issue dt clause !! "document" = Some dt
  ∧ clause_issue dt clause !! "section" = Some "N/A"
  ∧ clause_issue dt clause !! "issue"
    = Some ("Missing required clause: " ++ clause)
  ∧ clause_issue dt clause !! "severity" = Some "High"
  ∧ ∀ k, k ∈ ai_fields → clause_issue dt clause !! k = None.
Proof.
  unfold clause_issue. cbn [list_to_map foldr uncurry fst snd].
  repeat split;
    try (repeat (rewrite lookup_insert_ne by discriminate);
         by rewrite lookup_insert_eq).
  intros k Hk. unfold ai_fields in Hk.
  rewrite !elem_of_cons, elem_of_nil in Hk.
  destruct Hk as [->|[->|[->|[]]]];
    by repeat (rewrite lookup_insert_ne by discriminate).
Qed.

Lemma red_flag_issue_fields (dt : str) (rf : RedFlag) :
  red_flag_issue dt rf !! "document" = Some dt
  ∧ red_flag_issue dt rf !! "section" = Some "N/A"
  ∧ red_flag_issue dt rf !! "issue" = Some (rf_issue rf)
  ∧ red_flag_issue dt rf !! "severity" = Some (rf_severity rf)
  ∧ ∀ k, k ∈ ai_fields → red_flag_issue dt rf !! k = None.
Proof.
  unfold red_flag_issue. cbn [list_to_map foldr uncurry fst snd].
  repeat split;
    try (repeat (rewrite lookup_insert_ne by discriminate);
         by rewrite lookup_insert_eq).
  intros k Hk. unfold ai_fields in Hk.
  rewrite !elem_of_cons, elem_of_nil in Hk.
  destruct Hk as [->|[->|[->|[]]]];
    by repeat (rewrite lookup_insert_ne by discriminate).
Qed.

(** X12.  The report has one issue per missing clause followed by one per
    red flag, in the order given; every issue names the document type and
    the section N/A and has none of the advisory fields; a clause issue has
    severity High and the clause in its text, a red-flag issue the text and
    severity of its flag. *)
Theorem build_issue_report_shape (file dt : str) (missing : list str)
    (rfs : list RedFlag) :
  let report := build_issue_report file dt missing rfs in
  length report = (length missing + length rfs)%nat
  ∧ Forall (λ f, f !! "document" = Some dt ∧ f !! "section" = Some "N/A"
                 ∧ ∀ k, k ∈ ai_fields → f !! k = None) report
  ∧ (∀ i clause, missing !! i = Some clause →
       ∃ f, report !! i = Some f
            ∧ f !! "issue" = Some ("Missing required clause: " ++ clause)
            ∧ f !! "severity" = Some "High")
  ∧ (∀ i rf, rfs !! i = Some rf →
       ∃ f, report !! (length missing + i)%nat = Some f
            ∧ f !! "issue" = Some (rf_issue rf)
            ∧ f !! "severity" = Some (rf_severity rf)).
Proof.
  intros report. subst report. unfold build_issue_report.
  change (map (clause_issue dt) missing) with (clause_issue dt <$> missing).
  change (map (red_flag_issue dt) rfs) with (red_flag_issue dt <$> rfs).
  split; [by rewrite length_app, !length_fmap|]. split; [|split].
  - apply Forall_app. split; apply Forall_fmap, Forall_forall; intros x _.
    + pose proof (clause_issue_fields dt x). cbn. tauto.
    + pose proof (red_flag_issue_fields dt x). cbn. tauto.
  - intros i clause Hi. exists (clause_issue dt clause). split.
    + rewrite lookup_app_l by
        (rewrite length_fmap; by eapply lookup_lt_Some).
      by rewrite list_lookup_fmap, Hi.
    + pose proof (clause_issue_fields dt clause). tauto.
  - intros i rf Hi. exists (red_flag_issue dt rf). split.
    + rewrite lookup_app_r by (rewrite length_fmap; lia).
      rewrite length_fmap.
      replace (length missing + i - length missing)%nat with i by lia.
      by rewrite list_lookup_fmap, Hi.
    + pose proof (red_flag_issue_fields dt rf). tauto.
Qed.

Lemma build_issue_report_shape_witness :
  let report := build_issue_report "aoa.docx" "Articles of Association"
                  ["Signatories"] [jurisdiction_flag] in
  (∃ f, report !! 0%nat = Some f
        ∧ f !! "issue" = Some ("Missing required clause: " ++ "Signatories")
        ∧ f !! "severity" = Some "High")
  ∧ ∃ f, report !! 1%nat = Some f
         ∧ f !! "issue" = Some (rf_issue jurisdiction_flag)
         ∧ f !! "severity" = Some (rf_severity jurisdiction_flag).
Proof.
  intros report. split.
  - apply (proj1 (proj2 (proj2 (build_issue_report_shape "aoa.docx"
             "Articles of Association" ["Signatories"]
             [jurisdiction_flag]))) 0%nat "Signatories").
    reflexivity.
  - apply (proj2 (proj2 (proj2 (build_issue_report_shape "aoa.docx"
             "Articles of Association" ["Signatories"]
             [jurisdiction_flag]))) 0%nat jurisdiction_flag).
    reflexivity.
Defined.

End RuleEngine.

(** ** Document types *)

Section DocTypes.

Import OsPath.

(** X13.  Both classifiers, and the two of them combined as in the loop,
    return one of six labels; a file name that settles the type is not
    overruled by the content; and a batch of one file is an incorporation
    exactly when its type is not Unknown. *)
Theorem detect_doc_type_closed (path : str) (info : DocInfo) :
  let labels : list str :=
    [ "Articles of Association"; "Memorandum of Association";
      "Register of Members and Directors"; "Board Resolution";
      "UBO Declaration Form"; "Unknown" ] in
  infer_doc_type_from_filename path ∈ labels
  ∧ infer_doc_type_from_text (full_text info) ∈ labels
  ∧ detect_doc_type path info ∈ labels
  ∧ detect_doc_type path info =
      (if bool_decide (infer_doc_type_from_filename path = "Unknown")
       then infer_doc_type_from_text (full_text info)
       else infer_doc_type_from_filename path)
  ∧ detect_process_from_doc_types [detect_doc_type path info] =
      (if bool_decide (detect_doc_type path info = "Unknown")
       then "Unknown" else "Company Incorporation").
Proof.
  intros labels.
  assert (H1 : infer_doc_type_from_filename path ∈ labels).
  { unfold infer_doc_type_from_filename, labels.
    repeat case_match; rewrite !elem_of_cons; tauto. }
  assert (H2 : infer_doc_type_from_text (full_text info) ∈ labels).
  { unfold infer_doc_type_from_text, labels.
    repeat case_match; rewrite !elem_of_cons; tauto. }
  assert (H3 : detect_doc_type path info =
      (if bool_decide (infer_doc_type_from_filename path = "Unknown")
       then infer_doc_type_from_text (full_text info)
       else infer_doc_type_from_filename path)).
  { unfold detect_doc_type. destruct (bool_decide _); [|done].
    unfold labels in H2. rewrite !elem_of_cons, elem_of_nil in H2.
    destruct H2 as [->|[->|[->|[->|[->|[->|[]]]]]]]; done. }
  assert (H4 : detect_doc_type path info ∈ labels).
  { rewrite H3. by destruct (bool_decide _). }
  repeat split; try done.
  unfold labels in H4. rewrite !elem_of_cons, elem_of_nil in H4.
  destruct H4 as [->|[->|[->|[->|[->|[->|[]]]]]]];
    vm_compute; reflexivity.
Qed.

(** *** Paths *)

Lemma rfind_from_notin (c : ascii) (s : str) :
  ∀ i last, c ∉ s → rfind_from c i last s = last.
Proof.
  induction s as [|a s IH]; intros i last Hc; [done|].
  cbn [rfind_from]. rewrite not_elem_of_cons in Hc. destruct Hc as [Hne Hc].
  rewrite bool_decide_eq_false_2 by congruence. by apply IH.
Qed.

Lemma rfind_from_last (c : ascii) (a b : str) :
  ∀ i last, c ∉ b →
    rfind_from c i last (a ++ c :: b) = i + Z.of_nat (length a).
Proof.
  induction a as [|x a IH]; intros i last Hc; cbn [app rfind_from length].
  - rewrite bool_decide_eq_true_2 by done.
    rewrite rfind_from_notin by done. lia.
  - rewrite IH by done. lia.
Qed.

Lemma rfind_last (c : ascii) (a b : str) :
  c ∉ b → rfind c (a ++ c :: b) = Z.of_nat (length a).
Proof. intros H. unfold rfind. by rewrite rfind_from_last. Qed.

Lemma rfind_notin (c : ascii) (s : str) : c ∉ s → rfind c s = -1.
Proof. apply rfind_from_notin. Qed.

Lemma split_last (c : ascii) (s : str) :
  c ∈ s → ∃ a b, s = a ++ c :: b ∧ c ∉ b.
Proof.
  induction s as [|x s IH]; [by intros ?%elem_of_nil|].
  destruct (decide (c ∈ s)) as [Hin|Hnot].
  - intros _. destruct (IH Hin) as (a & b & -> & Hb).
    by exists (x :: a), b.
  - intros [->|?]%elem_of_cons; [|done]. by exists [], s.
Qed.

Lemma basename_spec (p : str) :
  (∃ dir, p = dir ++ "/" ++ basename p) ∨ p = basename p.
Proof.
  unfold basename, from_index.
  destruct (decide ("/"%char ∈ p)) as [Hin|Hnot].
  - destruct (split_last _ _ Hin) as (a & b & -> & Hb).
    rewrite rfind_last by done. left. exists a.
    replace (Z.to_nat (Z.of_nat (length a) + 1)) with (length a + 1)%nat
      by lia.
    rewrite <- drop_drop, drop_app_length. done.
  - right. by rewrite rfind_notin.
Qed.

Lemma basename_no_sep (p : str) : "/"%char ∉ basename p.
Proof.
  unfold basename, from_index.
  destruct (decide ("/"%char ∈ p)) as [Hin|Hnot].
  - destruct (split_last _ _ Hin) as (a & b & -> & Hb).
    rewrite rfind_last by done.
    replace (Z.to_nat (Z.of_nat (length a) + 1)) with (length a + 1)%nat
      by lia.
    by rewrite <- drop_drop, drop_app_length.
  - by rewrite rfind_notin.
Qed.

Lemma basename_of_file (dir name : str) :
  "/"%char ∉ name → basename (dir ++ "/" ++ name) = name.
Proof.
  intros H. unfold basename, from_index.
  change (dir ++ "/" ++ name) with (dir ++ "/"%char :: name).
  rewrite rfind_last by done.
  replace (Z.to_nat (Z.of_nat (length dir) + 1)) with (length dir + 1)%nat
    by lia.
  by rewrite <- drop_drop, drop_app_length.
Qed.

Lemma basename_plain (name : str) : "/"%char ∉ name → basename name = name.
Proof. intros H. unfold basename, from_index. by rewrite rfind_notin. Qed.

(** X14.  The classifier of file names looks at the last path component
    only: the directory a file lies in does not change its type. *)
Theorem infer_doc_type_from_filename_basename (dir name : str) :
  "/"%char ∉ name →
  infer_doc_type_from_filename (dir ++ "/" ++ name)
  = infer_doc_type_from_filename name.
Proof.
  intros H. unfold infer_doc_type_from_filename.
  by rewrite basename_of_file, basename_plain.
Qed.

Lemma infer_doc_type_from_filename_basename_witness :
  infer_doc_type_from_filename ("ubo/uploads" ++ "/" ++ "Resolution_3.docx")
  = infer_doc_type_from_filename "Resolution_3.docx".
Proof.
  apply (infer_doc_type_from_filename_basename "ubo/uploads"
           "Resolution_3.docx").
  repeat (apply not_elem_of_cons; split; [discriminate|]).
  apply not_elem_of_nil.
Defined.

Lemma splitext_concat (p : str) :
  (splitext p).1 ++ (splitext p).2 = p.
Proof.
  unfold splitext, upto_index, from_index.
  destruct (_ && _); cbn [fst snd]; [apply take_drop | apply app_nil_r].
Qed.

Lemma join_path_basename (dir f : str) :
  "/"%char ∉ f → basename (join_path dir f) = f.
Proof.
  intros Hf. unfold join_path.
  assert (Hs : startswith "/" f = false).
  { destruct f as [|c f]; [done|]. cbn [startswith].
    rewrite bool_decide_eq_false_2; [done|].
    intros <-. apply Hf. left. }
  rewrite Hs.
  destruct dir as [|d dir _] using rev_ind.
  - cbn [truthy negb orb app]. by apply basename_plain.
  - rewrite last_snoc.
    replace (truthy (dir ++ [d])) with true by (by destruct dir).
    cbn [negb orb].
    destruct (bool_decide_reflect (Some d = Some "/"%char))
      as [[= ->]|Hne].
    + rewrite <- app_assoc. by apply basename_of_file.
    + by apply basename_of_file.
Qed.

(** X15.  The reviewed copy is saved under a file name made of the
    original file name with [_reviewed] put in front of its extension:
    the two parts [splitext] returns join back to the original name, and
    the last component of the returned path is the stem, [_reviewed] and
    the extension, whatever the output directory. *)
Theorem save_reviewed_copy_name (original_path output_dir : str) :
  let base := basename original_path in
  let name := (splitext base).1 in
  let ext := (splitext base).2 in
  name ++ ext = base
  ∧ basename (save_reviewed_copy original_path output_dir)
    = name ++ "_reviewed" ++ ext.
Proof.
  intros base name ext. split; [apply splitext_concat|].
  unfold save_reviewed_copy. fold base.
  destruct (splitext base) as [n e] eqn:Hs. subst name ext. cbn [fst snd].
  apply join_path_basename.
  pose proof (basename_no_sep original_path) as Hb. fold base in Hb.
  rewrite <- (splitext_concat base), Hs in Hb. cbn [fst snd] in Hb.
  apply not_elem_of_app in Hb as [Hn He].
  apply not_elem_of_app. split; [done|]. cbn [app].
  repeat (apply not_elem_of_cons; split; [discriminate|]).
  exact He.
Qed.

End DocTypes.

(** ** Extraction *)

Section Extraction.

Lemma extract_loop_spec (m : Z) (raw : list RawParagraph) :
  ∀ (i : Z) (texts heads : list str),
    ∃ H,
      H `sublist_of`
        filter (λ t, t ≠ [])
               ((λ p, strip (para_text p)) <$> take (Z.to_nat (m - i)) raw)
      ∧ extract_loop m i raw texts heads =
          (texts ++ filter (λ t, t ≠ [])
                      ((λ p, strip (para_text p))
                         <$> take (Z.to_nat (m - i)) raw),
           heads ++ H).
Proof.
  induction raw as [|para rest IH]; intros i texts heads;
    cbn [extract_loop].
  - exists []. rewrite take_nil. cbn. by rewrite !app_nil_r.
  - destruct (Z.leb_spec m i) as [Hle|Hlt].
    + exists []. replace (Z.to_nat (m - i)) with 0%nat by lia.
      cbn. by rewrite !app_nil_r.
    + replace (Z.to_nat (m - i)) with (S (Z.to_nat (m - (i + 1)))) by lia.
      cbn [take fmap list_fmap]. rewrite filter_cons.
      destruct (truthy (strip (para_text para))) eqn:Ht; cbn [negb].
      * apply truthy_true in Ht. rewrite decide_True by done.
        destruct (IH (i + 1) (texts ++ [strip (para_text para)])
                    (if is_heading para
                     then heads ++ [strip (para_text para)] else heads))
          as (H & Hsub & ->).
        destruct (is_heading para).
        -- exists (strip (para_text para) :: H).
           split; [by apply sublist_skip|].
           by rewrite <- !app_assoc.
        -- exists H. split; [by apply sublist_cons|].
           by rewrite <- !app_assoc.
      * apply truthy_false in Ht. rewrite decide_False by auto.
        apply IH.
Qed.

(** X16.  Extraction keeps, in document order, the trimmed text of every
    paragraph among the first [max_paragraphs] whose trimmed text is not
    empty: so every extracted paragraph is non-empty and trimmed, the
    headings are a sub-sequence of the paragraphs, the full text is the
    paragraphs joined by newlines, and there are no more paragraphs than
    the document has.  When no paragraph of the document is blank and the
    cap is not reached, paragraph [i] of the result is paragraph [i] of the
    document. *)
Theorem extract_text_and_sections_spec (raw : list RawParagraph)
    (max_paragraphs : Z) :
  let info := extract_text_and_sections raw max_paragraphs in
  paragraphs info =
    filter (λ t, t ≠ [])
           ((λ p, strip (para_text p))
              <$> take (Z.to_nat max_paragraphs) raw)
  ∧ Forall (λ t, t ≠ [] ∧ strip t = t) (paragraphs info)
  ∧ headings info `sublist_of` paragraphs info
  ∧ full_text info = Some (join ["010"%char] (paragraphs info))
  ∧ (length (paragraphs info) ≤ length raw)%nat
  ∧ (Forall (λ p, strip (para_text p) ≠ []) raw →
     Z.of_nat (length raw) ≤ max_paragraphs →
     paragraphs info = (λ p, strip (para_text p)) <$> raw).
Proof.
  intros info. subst info. unfold extract_text_and_sections.
  destruct (extract_loop_spec max_paragraphs raw 0 [] [])
    as (H & Hsub & ->).
  replace (Z.to_nat (max_paragraphs - 0)) with (Z.to_nat max_paragraphs)
    in * by lia.
  cbn [app extracted paragraphs headings full_text].
  split; [done|]. split; [|split; [done|split; [done|split]]].
  - apply Forall_forall. intros t [Hne Ht]%list_elem_of_filter.
    apply list_elem_of_fmap in Ht as (p & -> & _).
    split; [done | apply strip_strip].
  - etrans; [apply length_filter|]. rewrite length_fmap, length_take. lia.
  - intros Hall Hmax. rewrite take_ge by lia. clear Hmax Hsub.
    induction Hall as [|p rest Hp _ IH]; [done|].
    cbn [fmap list_fmap]. rewrite filter_cons, decide_True by done.
    by f_equal.
Qed.

Lemma extract_text_and_sections_spec_witness :
  let raw := [ {| para_text := " Articles of Association ";
                  para_style := Some "Heading 1" |};
               {| para_text := "Jurisdiction: ADGM"; para_style := None |} ] in
  paragraphs (extract_text_and_sections raw 10000)
  = ["Articles of Association"; "Jurisdiction: ADGM"].
Proof.
  intros raw.
  rewrite (proj2 (proj2 (proj2 (proj2 (proj2
             (extract_text_and_sections_spec raw 10000)))))).
  - reflexivity.
  - repeat constructor; vm_compute; discriminate.
  - vm_compute. discriminate.
Defined.

Lemma extract_length (raw : list RawParagraph) (max_paragraphs : Z) :
  (length (paragraphs (extract_text_and_sections raw max_paragraphs))
   ≤ length raw)%nat.
Proof.
  unfold extract_text_and_sections.
  destruct (extract_loop_spec max_paragraphs raw 0 [] [])
    as (H & Hsub & ->).
  cbn [app extracted paragraphs].
  etrans; [apply length_filter|]. rewrite length_fmap, length_take. lia.
Qed.

(** X17.  For a document opened from the file the paragraphs were
    extracted from, the index a call site chooses is always an index of
    the document: the call is never redirected, with or without a hit and
    also for a document without paragraphs. *)
Theorem target_within_document (raw : list RawParagraph)
    (max_paragraphs : Z) (d : Document) (snippet : str) :
  length d = length raw →
  let ps := paragraphs (extract_text_and_sections raw max_paragraphs) in
  let t := target (find_paragraph_indexes snippet ps) ps in
  effective_index d t = t.
Proof.
  intros Hlen ps t.
  pose proof (extract_length raw max_paragraphs) as Hps. fold ps in Hps.
  pose proof (target_range _ ps (find_paragraph_indexes_range snippet ps))
    as Ht. fold t in Ht.
  unfold effective_index. cbv zeta. rewrite Hlen.
  cases_bool; cbn [orb]; lia.
Qed.

Lemma target_within_document_witness :
  let raw := [ {| para_text := ""; para_style := None |};
               {| para_text := "Quorum: two"; para_style := None |} ] in
  let ps := paragraphs (extract_text_and_sections raw 10000) in
  let t := target (find_paragraph_indexes "quorum" ps) ps in
  effective_index [[]; []] t = t.
Proof.
  intros raw ps t.
  apply (target_within_document raw 10000 [[]; []] "quorum").
  reflexivity.
Defined.

End Extraction.

(** ** Retrieval of references *)

Section Retrieval.

(** X18.  The overlap score is symmetric, lies between 0 and the number
    of distinct words of either argument, is positive exactly when the two
    texts share a word, and does not depend on the letter case of ASCII
    text. *)
Theorem score_overlap_spec (a b : str) :
  _score_overlap a b = _score_overlap b a
  ∧ 0 ≤ _score_overlap a b ≤ Z.of_nat (size (word_set a))
  ∧ (0 < _score_overlap a b ↔ ∃ w, w ∈ word_set a ∧ w ∈ word_set b)
  ∧ (isascii a = true →
     _score_overlap (upper a) b = _score_overlap a b).
Proof.
  unfold _score_overlap. split; [|split; [|split]].
  - rewrite orb_comm. destruct (_ || _); [done|].
    by rewrite (comm_L (∩)).
  - destruct (_ || _); [lia|]. split; [lia|].
    apply inj_le, subseteq_size. set_solver.
  - destruct (bool_decide_reflect (word_set a = ∅)) as [Ha|Ha];
      [|destruct (bool_decide_reflect (word_set b = ∅)) as [Hb|Hb]];
      cbn [orb].
    + rewrite Ha. split; [lia | set_solver].
    + rewrite Hb. split; [lia | set_solver].
    + split.
      * intros H. destruct (size_pos_elem_of (word_set a ∩ word_set b))
          as [w Hw]; [lia|]. exists w. set_solver.
      * intros (w & Hwa & Hwb).
        assert (size (word_set a ∩ word_set b) ≠ 0%nat); [|lia].
        apply size_non_empty_iff. set_solver.
  - intros _. unfold word_set. by rewrite lower_upper.
Qed.

Lemma score_overlap_spec_witness :
  _score_overlap (upper "Governing law clause") "The governing LAW"
  = _score_overlap "Governing law clause" "The governing LAW".
Proof.
  apply (proj2 (proj2 (proj2 (score_overlap_spec "Governing law clause"
                                "The governing LAW")))).
  reflexivity.
Defined.

Lemma insert_desc_perm {A} (x : A * Z) (l : list (A * Z)) :
  insert_desc x l ≡ₚ x :: l.
Proof.
  induction l as [|y l IH]; [done|]. cbn [insert_desc].
  destruct (x.2 <? y.2); [|done]. rewrite IH. apply Permutation_swap.
Qed.

Lemma sort_desc_perm {A} (l : list (A * Z)) : sort_desc l ≡ₚ l.
Proof.
  induction l as [|x l IH]; [done|]. unfold sort_desc in *. cbn [foldr].
  by rewrite insert_desc_perm, IH.
Qed.

Lemma insert_desc_sorted {A} (x : A * Z) (l : list (A * Z)) :
  StronglySorted (λ p q, q.2 ≤ p.2) l →
  StronglySorted (λ p q, q.2 ≤ p.2) (insert_desc x l).
Proof.
  induction 1 as [|y l Hl IH Hy]; cbn [insert_desc].
  - repeat constructor.
  - destruct (Z.ltb_spec x.2 y.2).
    + constructor; [done|]. rewrite insert_desc_perm.
      constructor; [lia | done].
    + constructor; [by constructor|]. constructor; [lia|].
      eapply Forall_impl; [exact Hy|]. cbn. intros z Hz. lia.
Qed.

Lemma sort_desc_sorted {A} (l : list (A * Z)) :
  StronglySorted (λ p q, q.2 ≤ p.2) (sort_desc l).
Proof.
  induction l as [|x l IH]; [constructor|].
  unfold sort_desc in *. cbn [foldr]. by apply insert_desc_sorted.
Qed.

Lemma StronglySorted_sublist {A} (R : relation A) (l k : list A) :
  k `sublist_of` l → StronglySorted R l → StronglySorted R k.
Proof.
  induction 1 as [|x k l Hs IH|x k l Hs IH]; intros Hl.
  - constructor.
  - apply StronglySorted_inv in Hl as [Hl Hx].
    constructor; [by apply IH|].
    rewrite Forall_forall in Hx |- *. intros y Hy.
    apply Hx. by eapply elem_of_sublist.
  - apply StronglySorted_inv in Hl as [Hl _]. by apply IH.
Qed.

Lemma StronglySorted_Forall {A} (R : relation A) (P : A → Prop)
    (l : list A) :
  StronglySorted R l → Forall P l →
  StronglySorted (λ x y, R x y ∧ P x ∧ P y) l.
Proof.
  induction 1 as [|x l Hl IH Hx]; intros HP; [constructor|].
  apply Forall_cons in HP as [Px HP].
  constructor; [by apply IH|].
  rewrite Forall_forall in Hx, HP |- *. intros y Hy. auto.
Qed.

Lemma py_prefix_sublist {A} (k : Z) (l : list A) :
  py_prefix k l `sublist_of` l.
Proof. unfold py_prefix. destruct (0 <=? k); apply sublist_take. Qed.

Lemma fst_filter_scored (query : str) (refs : list Ref) :
  (filter (λ rs : Ref * Z, 0 < rs.2)
          ((λ r, (r, score_of query r)) <$> refs)).*1
  = filter (λ r, 0 < score_of query r) refs.
Proof.
  induction refs as [|r refs IH]; [done|].
  cbn [fmap list_fmap]. rewrite !filter_cons. cbn [snd].
  destruct (decide (0 < score_of query r)); cbn [fmap list_fmap fst];
    by rewrite IH.
Qed.

(** X19.  The references returned are taken from the given ones, none
    more often than it was given; each of them shares a word with the
    query; they come in order of non-increasing score; for a non-negative
    [k] there are at most [k] of them; and when [k] is at least the number
    of references, they are all the references with a positive score. *)
Theorem retrieve_top_k_spec (query : str) (refs : list Ref) (k : Z) :
  let top := retrieve_top_k query refs k in
  top ⊆+ refs
  ∧ Forall (λ r, 0 < score_of query r) top
  ∧ StronglySorted (λ r r', score_of query r' ≤ score_of query r) top
  ∧ (0 ≤ k → Z.of_nat (length top) ≤ k)
  ∧ (Z.of_nat (length refs) ≤ k →
     top ≡ₚ filter (λ r, 0 < score_of query r) refs).
Proof.
  intros top. subst top.
  set (scored := (λ r, (r, score_of query r)) <$> refs).
  set (sorted := sort_desc scored).
  change (retrieve_top_k query refs k)
    with ((filter (λ rs : Ref * Z, 0 < rs.2) (py_prefix k sorted)).*1).
  assert (Hperm : sorted ≡ₚ scored) by apply sort_desc_perm.
  assert (Hform : Forall (λ p : Ref * Z, p.2 = score_of query p.1) sorted).
  { rewrite Hperm. unfold scored. by apply Forall_fmap, Forall_true. }
  assert (Hsub : filter (λ rs : Ref * Z, 0 < rs.2) (py_prefix k sorted)
                 `sublist_of` sorted).
  { etrans; [apply sublist_filter | apply py_prefix_sublist]. }
  split; [|split; [|split; [|split]]].
  - etrans; [apply sublist_submseteq, fmap_sublist, Hsub|].
    rewrite Hperm. unfold scored.
    rewrite <- list_fmap_compose. by rewrite list_fmap_id.
  - apply Forall_fmap, Forall_forall. intros p Hp.
    apply list_elem_of_filter in Hp as [Hpos Hp]. cbn.
    rewrite Forall_forall in Hform.
    rewrite <- Hform; [done|].
    eapply elem_of_sublist; [exact Hp | apply py_prefix_sublist].
  - eapply (StronglySorted_fmap fst
              (λ p q : Ref * Z, (q.2 ≤ p.2)
                 ∧ p.2 = score_of query p.1 ∧ q.2 = score_of query q.1)).
    { intros p q (Hle & Hp & Hq). by rewrite <- Hp, <- Hq. }
    eapply StronglySorted_sublist; [exact Hsub|].
    apply StronglySorted_Forall; [apply sort_desc_sorted | exact Hform].
  - intros Hk. rewrite length_fmap.
    etrans; [apply inj_le, length_filter|].
    unfold py_prefix. replace (0 <=? k) with true
      by (symmetry; by apply Z.leb_le).
    rewrite length_take. lia.
  - intros Hk.
    assert (Hall : py_prefix k sorted = sorted).
    { unfold py_prefix. replace (0 <=? k) with true
        by (symmetry; apply Z.leb_le; lia).
      apply take_ge. rewrite Hperm. unfold scored.
      rewrite length_fmap. lia. }
    rewrite Hall, Hperm. unfold scored. by rewrite fst_filter_scored.
Qed.

Lemma retrieve_top_k_spec_witness :
  let refs := [ {| label := "A"; text := "the register of members" |};
                {| label := "B"; text := "jurisdiction of the courts" |} ] in
  Z.of_nat (length (retrieve_top_k "missing jurisdiction clause" refs 3)) ≤ 3
  ∧ retrieve_top_k "missing jurisdiction clause" refs 3
    ≡ₚ filter (λ r, 0 < score_of "missing jurisdiction clause" r) refs.
Proof.
  intros refs. split.
  - apply (proj1 (proj2 (proj2 (proj2
             (retrieve_top_k_spec "missing jurisdiction clause" refs 3))))).
    lia.
  - apply (proj2 (proj2 (proj2 (proj2
             (retrieve_top_k_spec "missing jurisdiction clause" refs 3))))).
    vm_compute. discriminate.
Defined.

End Retrieval.

(** ** Citation labels and the reference file *)

Section References.




(** *** The reference file *)

Lemma strip_head (x : str) :
  strip x ≠ [] → ∃ c r, strip x = c :: r ∧ is_space c = false.
Proof.
  unfold strip. intros Hne.
  destruct (lstrip x) as [|c t] eqn:Hl; [done|].
  assert (Hc : is_space c = false).
  { pose proof (lstrip_lstrip x) as Hll. rewrite Hl in Hll.
    by apply lstrip_fixed in Hll. }
  destruct (rstrip_head c t Hc) as [r Hr]. rewrite Hr. eauto.
Qed.

Lemma join_head (sep : str) (c : ascii) (r : str) (rest : list str) :
  ∃ t, join sep ((c :: r) :: rest) = c :: t.
Proof. destruct rest; cbn [join]; eauto. Qed.

Lemma flush_good (current : option str) (buf : list str)
    (refs : list Ref) :
  (∀ l, current = Some l → strip l = l) →
  Forall (λ b, ∃ c r, b = c :: r ∧ is_space c = false) buf →
  Forall (λ ref, label ref ≠ [] ∧ strip (label ref) = label ref
                 ∧ text ref ≠ [] ∧ strip (text ref) = text ref) refs →
  Forall (λ ref, label ref ≠ [] ∧ strip (label ref) = label ref
                 ∧ text ref ≠ [] ∧ strip (text ref) = text ref)
         (flush current buf refs).
Proof.
  intros Hl Hbuf Hrefs. unfold flush.
  destruct current as [l|]; [|done].
  destruct buf as [|b buf]; [done|].
  destruct (truthy l) eqn:Ht; [|done].
  apply Forall_app. split; [done|]. apply Forall_singleton.
  cbn [label text].
  split; [by apply truthy_true|]. split; [by apply Hl|].
  split; [|apply strip_strip].
  apply Forall_cons in Hbuf as [(c & r & -> & Hc) _].
  destruct (join_head " " c r buf) as [t ->].
  unfold strip. cbn [lstrip]. rewrite Hc.
  destruct (rstrip_head c t Hc) as [r' ->]. done.
Qed.

Lemma load_loop_good (lines : list str) :
  ∀ (current : option str) (buf : list str) (refs : list Ref),
    (∀ l, current = Some l → strip l = l) →
    Forall (λ b, ∃ c r, b = c :: r ∧ is_space c = false) buf →
    Forall (λ ref, label ref ≠ [] ∧ strip (label ref) = label ref
                   ∧ text ref ≠ [] ∧ strip (text ref) = text ref) refs →
    Forall (λ ref, label ref ≠ [] ∧ strip (label ref) = label ref
                   ∧ text ref ≠ [] ∧ strip (text ref) = text ref)
           (load_loop lines current buf refs).
Proof.
  induction lines as [|line rest IH]; intros current buf refs Hl Hbuf Hrefs;
    cbn [load_loop].
  - by apply flush_good.
  - destruct (truthy (strip (rstrip_newlines line))) eqn:Ht; cbn [negb].
    + destruct (match_label (rstrip_newlines line)) as [group|].
      * apply IH; [|done|by apply flush_good].
        intros l [= <-]. apply strip_strip.
      * apply IH; [done| |done].
        apply Forall_app. split; [done|]. apply Forall_singleton.
        apply strip_head. by apply truthy_true.
    + apply IH; [done|done|by apply flush_good].
Qed.

Lemma flush_length (current : option str) (buf : list str)
    (refs : list Ref) :
  (length (flush current buf refs)
   ≤ length refs + match current with Some _ => 1 | None => 0 end)%nat.
Proof.
  unfold flush. destruct current; [|lia]. destruct buf; [lia|].
  destruct (truthy _); rewrite ?length_app; cbn [length]; lia.
Qed.

Lemma load_loop_length (lines : list str) :
  ∀ (current : option str) (buf : list str) (refs : list Ref),
    (length (load_loop lines current buf refs)
     ≤ length refs + match current with Some _ => 1 | None => 0 end
       + length (filter (λ line,
                   is_Some (match_label (rstrip_newlines line))) lines))%nat.
Proof.
  induction lines as [|line rest IH]; intros current buf refs;
    cbn [load_loop].
  - rewrite filter_nil. pose proof (flush_length current buf refs).
    cbn [length]. lia.
  - rewrite filter_cons.
    pose proof (flush_length current buf refs) as Hf.
    destruct (truthy (strip (rstrip_newlines line))); cbn [negb].
    + destruct (match_label (rstrip_newlines line)) as [group|].
      * rewrite decide_True by eauto.
        specialize (IH (Some (strip group)) [] (flush current buf refs)).
        cbn [length]. cbv beta iota in IH. lia.
      * rewrite decide_False by (by intros [? ?]).
        specialize (IH current (buf ++ [strip (rstrip_newlines line)]) refs).
        lia.
    + specialize (IH None [] (flush current buf refs)).
      cbv beta iota in IH.
      destruct (decide _); cbn [length]; lia.
Qed.

(** X21.  Every reference read from the file has a non-empty label and a
    non-empty text, both without blanks around them; there are at most as
    many references as there are label lines; and a missing file gives no
    reference at all. *)
Theorem load_refs_wellformed (file : option (list str)) :
  Forall (λ ref, label ref ≠ [] ∧ strip (label ref) = label ref
                 ∧ text ref ≠ [] ∧ strip (text ref) = text ref)
         (load_refs file)
  ∧ (length (load_refs file)
     ≤ length (filter (λ line, is_Some (match_label (rstrip_newlines line)))
                      (default [] file)))%nat
  ∧ load_refs None = [].
Proof.
  split; [|split; [|done]].
  - destruct file as [lines|]; [|constructor].
    by apply load_loop_good.
  - destruct file as [lines|]; [|cbn; lia].
    pose proof (load_loop_length lines None [] []) as H.
    cbn [length] in H. cbv beta iota in H.
    cbn [load_refs]. change (default [] (Some lines)) with lines. lia.
Qed.

End References.

(** ** What the decoder is handed *)

Section Brackets.

Variable json_loads : str → option json.

Lemma find_from_first (c : ascii) (a b : str) :
  ∀ i, c ∉ a → find_from c i (a ++ c :: b) = i + Z.of_nat (length a).
Proof.
  induction a as [|x a IH]; intros i Hc; cbn [app find_from length].
  - rewrite bool_decide_eq_true_2 by done. lia.
  - apply not_elem_of_cons in Hc as [Hne Hc].
    rewrite bool_decide_eq_false_2 by congruence.
    rewrite IH by done. lia.
Qed.

Lemma find_from_notin (c : ascii) (s : str) :
  ∀ i, c ∉ s → find_from c i s = -1.
Proof.
  induction s as [|x s IH]; intros i Hc; cbn [find_from]; [done|].
  apply not_elem_of_cons in Hc as [Hne Hc].
  rewrite bool_decide_eq_false_2 by congruence. by apply IH.
Qed.

(** X22.  Text around the outermost pair of square brackets is thrown
    away before decoding: whatever stands before the first opening bracket
    and after the last closing bracket, the result is the decoded text from
    that opening bracket to that closing bracket (or the empty list when it
    does not decode). *)
Theorem parse_ai_response_to_list_brackets (before inside after : str) :
  "["%char ∉ before → "]"%char ∉ after →
  parse_ai_response_to_list json_loads
    (before ++ "[" ++ inside ++ "]" ++ after)
  = default (JList []) (json_loads ("[" ++ inside ++ "]")).
Proof.
  intros Hb Ha. unfold parse_ai_response_to_list.
  set (text := before ++ "[" ++ inside ++ "]" ++ after).
  assert (Hfind : find "[" text = Z.of_nat (length before)).
  { unfold find, text. cbn [app]. by rewrite find_from_first. }
  assert (Hrfind : rfind "]" text
                   = Z.of_nat (length before + 1 + length inside)).
  { unfold text.
    replace (before ++ "[" ++ inside ++ "]" ++ after)
      with ((before ++ "[" ++ inside) ++ "]"%char :: after)
      by (by rewrite <- !app_assoc).
    rewrite rfind_last by done. rewrite !length_app. cbn [length]. lia. }
  rewrite Hfind, Hrfind.
  rewrite !bool_decide_eq_true_2 by lia. cbn [andb].
  assert (Hslice :
    slice (Z.of_nat (length before))
          (Z.of_nat (length before + 1 + length inside) + 1) text
    = "[" ++ inside ++ "]").
  { unfold slice, text.
    rewrite Nat2Z.id, drop_app_length.
    replace (Z.to_nat (Z.of_nat (length before + 1 + length inside) + 1
                       - Z.of_nat (length before)))
      with (length ("[" ++ inside ++ "]")).
    - replace ("[" ++ inside ++ "]" ++ after)
        with (("[" ++ inside ++ "]") ++ after)
        by (by rewrite <- !app_assoc).
      by rewrite take_app_length.
    - rewrite !length_app. cbn [length]. lia. }
  rewrite Hslice. by destruct (json_loads _).
Qed.

(** A response without an opening or without a closing bracket is decoded
    as a whole. *)
Lemma parse_ai_response_to_list_whole (text : str) :
  "["%char ∉ text ∨ "]"%char ∉ text →
  parse_ai_response_to_list json_loads text
  = default (JList []) (json_loads text).
Proof.
  intros H. unfold parse_ai_response_to_list.
  assert (Hc : bool_decide (find "[" text ≠ -1)
               && bool_decide (rfind "]" text ≠ -1)
               && bool_decide (find "[" text < rfind "]" text) = false).
  { destruct H as [H|H].
    - unfold find. rewrite find_from_notin by done.
      by rewrite bool_decide_eq_false_2 by auto.
    - rewrite rfind_notin by done.
      rewrite (bool_decide_eq_false_2 (-1 ≠ -1)) by auto.
      by rewrite andb_false_r. }
  rewrite Hc. by destruct (json_loads text).
Qed.

End Brackets.

Lemma parse_ai_response_to_list_brackets_witness :
  let loads (t : str) :=
    if bool_decide (t = "[]") then Some (JList []) else None in
  parse_ai_response_to_list loads ("Here you go: " ++ "[" ++ "" ++ "]" ++ " Bye")
  = default (JList []) (loads ("[" ++ "" ++ "]")).
Proof.
  intros loads.
  apply (parse_ai_response_to_list_brackets loads "Here you go: " "" " Bye").
  - repeat (apply not_elem_of_cons; split; [discriminate|]).
    apply not_elem_of_nil.
  - repeat (apply not_elem_of_cons; split; [discriminate|]).
    apply not_elem_of_nil.
Defined.

(** ** The batch *)

Section Batch.

Lemma incorporation_markers_lower :
  set_map (C := gset str) (D := gset str) lower incorporation_markers
  = incorporation_markers.
Proof.
  apply set_eq. intros x. rewrite elem_of_map. unfold incorporation_markers.
  split.
  - intros (m & -> & Hm). rewrite elem_of_list_to_set in Hm |- *.
    rewrite !elem_of_cons, elem_of_nil in Hm.
    destruct Hm as [->|[->|[->|[->|[->|[->|[->|[->|[]]]]]]]]];
      vm_compute (lower _);
      repeat first [apply list_elem_of_here | apply list_elem_of_further].
  - intros Hx. exists x. split; [|done].
    rewrite elem_of_list_to_set in Hx.
    rewrite !elem_of_cons, elem_of_nil in Hx.
    destruct Hx as [->|[->|[->|[->|[->|[->|[->|[->|[]]]]]]]]]; reflexivity.
Qed.

Lemma detect_process_iff (doc_types : list str) :
  detect_process_from_doc_types doc_types = "Company Incorporation"
  ↔ ∃ d, d ∈ doc_types ∧ lower d ∈ incorporation_markers.
Proof.
  unfold detect_process_from_doc_types. cbv zeta.
  rewrite incorporation_markers_lower.
  destruct (bool_decide_reflect
              (list_to_set (C := gset str) (lower <$> doc_types)
               ∩ incorporation_markers ≠ ∅)) as [Hne|He].
  - split; [intros _|done].
    apply set_choose_L in Hne as [x Hx].
    apply elem_of_intersection in Hx as [Hx Hm].
    apply elem_of_list_to_set, list_elem_of_fmap in Hx as (d & -> & Hd).
    eauto.
  - split; [done|]. intros (d & Hd & Hm). exfalso. apply He.
    apply (non_empty_inhabited_L (lower d)).
    apply elem_of_intersection. split; [|done].
    apply elem_of_list_to_set. by apply list_elem_of_fmap_2.
Qed.

Lemma detect_process_cases (doc_types : list str) :
  detect_process_from_doc_types doc_types = "Company Incorporation"
  ∨ detect_process_from_doc_types doc_types = "Unknown".
Proof.
  unfold detect_process_from_doc_types. cbv zeta.
  destruct (bool_decide _); [by left | by right].
Qed.

Lemma detect_process_unknown (doc_types : list str) :
  detect_process_from_doc_types doc_types = "Unknown"
  ↔ ∀ d, d ∈ doc_types → lower d ∉ incorporation_markers.
Proof.
  pose proof (detect_process_iff doc_types) as Hiff.
  destruct (detect_process_cases doc_types) as [Hc|Hu].
  - split.
    + intros Hu. rewrite Hc in Hu. discriminate Hu.
    + intros Hall. destruct (proj1 Hiff Hc) as (d & Hd & Hm).
      exfalso. exact (Hall d Hd Hm).
  - split; [intros _ | intros _; exact Hu].
    intros d Hd Hm.
    assert (Hc : detect_process_from_doc_types doc_types
                 = "Company Incorporation").
    { apply Hiff. exists d. split; assumption. }
    rewrite Hu in Hc. discriminate Hc.
Qed.

Lemma detect_process_ext (l l' : list str) :
  (∀ d, d ∈ l ↔ d ∈ l') →
  detect_process_from_doc_types l' = detect_process_from_doc_types l.
Proof.
  intros Hll.
  destruct (detect_process_cases l) as [Hc|Hu].
  - rewrite Hc. apply detect_process_iff.
    apply detect_process_iff in Hc as (d & Hd & Hm).
    exists d. split; [by apply Hll | done].
  - rewrite Hu. apply detect_process_unknown. intros d Hd.
    apply (proj1 (detect_process_unknown l) Hu). by apply Hll.
Qed.

(** X23.  The process is Company Incorporation exactly when one of the
    detected types is, ignoring letter case, one of the eight incorporation
    document types, and Unknown otherwise; so the order of the files does
    not matter and adding files never turns a recognised process back into
    Unknown. *)
Theorem detect_process_from_doc_types_spec (doc_types : list str) :
  (detect_process_from_doc_types doc_types = "Company Incorporation"
   ↔ ∃ d, d ∈ doc_types ∧ lower d ∈ incorporation_markers)
  ∧ (detect_process_from_doc_types doc_types = "Unknown"
     ↔ ∀ d, d ∈ doc_types → lower d ∉ incorporation_markers)
  ∧ (∀ doc_types', doc_types ≡ₚ doc_types' →
       detect_process_from_doc_types doc_types'
       = detect_process_from_doc_types doc_types)
  ∧ (∀ more,
       detect_process_from_doc_types doc_types = "Company Incorporation" →
       detect_process_from_doc_types (doc_types ++ more)
       = "Company Incorporation").
Proof.
  split; [apply detect_process_iff|].
  split; [apply detect_process_unknown|]. split.
  - intros doc_types' Hp. apply detect_process_ext.
    intros d. by rewrite Hp.
  - intros more (d & Hd & Hm)%detect_process_iff.
    apply detect_process_iff. exists d. split; [|done].
    apply elem_of_app. by left.
Qed.

Lemma detect_process_from_doc_types_spec_witness :
  detect_process_from_doc_types (["Unknown"; "BOARD RESOLUTION"] ++ ["x"])
  = "Company Incorporation".
Proof.
  apply (proj2 (proj2 (proj2
           (detect_process_from_doc_types_spec
              ["Unknown"; "BOARD RESOLUTION"]))) ["x"]).
  vm_compute; reflexivity.
Defined.

(** X24.  A required document is reported missing exactly when no
    detected type equals it ignoring letter case; the report keeps the
    order of the rule set; more detected types can only shorten it; and the letter
    case of ASCII detected types does not matter. *)
Theorem missing_documents_spec (rules : Rules) (detected : list str) :
  missing_documents rules detected `sublist_of` required_documents rules
  ∧ (∀ d, d ∈ missing_documents rules detected
          ↔ d ∈ required_documents rules
            ∧ ∀ t, t ∈ detected → lower t ≠ lower d)
  ∧ (∀ more, missing_documents rules (detected ++ more)
             `sublist_of` missing_documents rules detected)
  ∧ (Forall (λ t, isascii t = true) detected →
     missing_documents rules (upper <$> detected)
     = missing_documents rules detected).
Proof.
  unfold missing_documents. cbv zeta. split; [apply sublist_filter|].
  split; [|split].
  - intros d. rewrite list_elem_of_filter, list_elem_of_fmap. split.
    + intros [Hn Hd]. split; [done|]. intros t Ht Heq. apply Hn. eauto.
    + intros [Hd Hn]. split; [|done]. intros (t & Heq & Ht).
      by apply (Hn t).
  - intros more. apply filter_sublist_impl. intros d Hd.
    rewrite fmap_app, not_elem_of_app in Hd. tauto.
  - intros _.
    assert (E : lower <$> (upper <$> detected) = lower <$> detected).
    { rewrite <- list_fmap_compose. apply list_fmap_ext.
      intros i t _. apply lower_upper. }
    apply filter_ext_elem. intros d _. by rewrite E.
Qed.

Lemma missing_documents_spec_witness :
  let rules := {| clauses_per_doc := None;
                  required_documents := ["Articles of Association";
                                         "Board Resolution"] |} in
  missing_documents rules (upper <$> ["Board Resolution"; "Unknown"])
  = missing_documents rules ["Board Resolution"; "Unknown"].
Proof.
  intros rules.
  apply (proj2 (proj2 (proj2 (missing_documents_spec rules
                                ["Board Resolution"; "Unknown"])))).
  repeat constructor.
Defined.

End Batch.

(** ** Suggestions that do not apply *)

Section NoSuggestions.

Local Arguments normalize_issue_key : simpl never.
Local Arguments doc_type_accepts_issue_key : simpl never.
Local Arguments merge_suggestion : simpl never.

Lemma merge_loop_inapplicable (dt : str) (keys : list str)
    (fs sugs : list (gmap str str)) :
  Forall (λ s, doc_type_accepts_issue_key dt (sug_key s) = false) sugs →
  merge_loop dt keys fs sugs = Returned fs.
Proof.
  induction 1 as [|sug sugs Hs _ IH]; cbn [merge_loop]; [done|].
  by rewrite merge_suggestion_inapplicable.
Qed.

(** X26.  Suggestions the document type does not accept leave the list of
    issues exactly as it was, however many there are: the merge returns
    with nothing enriched and nothing appended. *)
Theorem merge_suggestions_inapplicable (dt : str)
    (fs sugs : list (gmap str str)) :
  Forall (λ s, doc_type_accepts_issue_key dt (sug_key s) = false) sugs →
  merge_suggestions dt fs sugs = Returned fs.
Proof.
  intros H. unfold merge_suggestions. destruct sugs; [done|].
  by apply merge_loop_inapplicable.
Qed.

Lemma merge_suggestions_inapplicable_witness :
  let dt := "Register of Members and Directors" in
  let fs := [clause_issue dt "Members"] in
  let sugs : list (gmap str str) :=
    [ {[ "issue" := "Share capital not stated" ]};
      {[ "issue" := "" ]};
      {[ "issue" := "Dividends policy" ]} ] in
  merge_suggestions dt fs sugs = Returned fs.
Proof.
  intros dt fs sugs.
  apply (merge_suggestions_inapplicable dt fs sugs).
  repeat constructor; vm_compute; reflexivity.
Defined.

End NoSuggestions.

(** ** The key of a missing-clause finding *)

Section ClauseKey.

Local Arguments normalize_issue_key : simpl never.

Lemma remainders_lit (a s : str) : remainders (Lit a) (a ++ s) = [s].
Proof.
  induction a as [|c a IH]; [done|].
  cbn [Lit app remainders]. unfold Chr at 1. cbn [remainders].
  rewrite bool_decide_eq_true_2 by done.
  rewrite bind_cons, app_nil_r. exact IH.
Qed.

Lemma remainders_lit_mismatch (c d : ascii) (a s : str) :
  c ≠ d → remainders (Lit (c :: a)) (d :: s) = [].
Proof.
  intros Hne. cbn [Lit remainders]. unfold Chr at 1. cbn [remainders].
  by rewrite bool_decide_eq_false_2 by congruence.
Qed.

Lemma length_rstrip (s : str) : (length (rstrip s) ≤ length s)%nat.
Proof.
  induction s as [|c s IH]; [done|]. cbn [rstrip].
  destruct (rstrip s); [destruct (is_space c)|]; cbn [length] in *; lia.
Qed.

Lemma strip_fixed (s : str) : strip s = s → lstrip s = s ∧ rstrip s = s.
Proof.
  unfold strip. intros H.
  assert (Hl : lstrip s = s).
  { destruct s as [|c s]; [done|]. cbn [lstrip] in *.
    destruct (is_space c); [|done].
    pose proof (length_rstrip (lstrip s)) as H1.
    pose proof (length_lstrip s) as H2.
    rewrite H in H1. cbn [length] in H1. lia. }
  split; [done|]. by rewrite Hl in H.
Qed.

Lemma rstrip_app_kept (a s : str) :
  rstrip s ≠ [] → rstrip (a ++ s) = a ++ rstrip s.
Proof.
  intros Hs. induction a as [|c a IH]; [done|].
  cbn [app rstrip]. rewrite IH.
  destruct (a ++ rstrip s) eqn:E; [|done].
  apply app_eq_nil in E as [_ E]. done.
Qed.

Lemma lower_char_colon (c : ascii) : lower_char c = ":"%char → c = ":"%char.
Proof.
  destruct c as [b0 b1 b2 b3 b4 b5 b6 b7].
  destruct b0, b1, b2, b3, b4, b5, b6, b7; vm_compute; congruence.
Qed.

Lemma rmatch_prefix_none (s : str) :
  ":"%char ∉ s → rmatch prefix_pattern s = None.
Proof.
  intros Hs. destruct (rmatch prefix_pattern s) as [rest|] eqn:Hm; [|done].
  apply rmatch_elem in Hm. unfold prefix_pattern in Hm.
  by apply remainders_mandatory_char in Hm.
Qed.

Lemma rmatch_clause_prefix (y : str) :
  lstrip y = y →
  rmatch prefix_pattern ("missing required clause: " ++ y) = Some y.
Proof.
  intros Hy. unfold rmatch, prefix_pattern.
  change ("missing required clause: " ++ y)
    with ("missing required clause" ++ ":"%char :: " "%char :: y).
  cbn [remainders].
  rewrite remainders_lit.
  replace (remainders (Lit "red flag") _) with (@nil str)
    by (symmetry; by apply (remainders_lit_mismatch "r" "m")).
  rewrite app_nil_r, bind_cons, app_nil_r.
  cbn [star_remainders]. change (is_space ":") with false. cbv iota.
  rewrite bind_cons, app_nil_r.
  unfold Chr. cbn [remainders].
  rewrite bool_decide_eq_true_2 by done.
  rewrite bind_cons, app_nil_r.
  cbn [star_remainders]. change (is_space " ") with true. cbv iota.
  pose proof (head_star_remainders y) as Hh. rewrite Hy in Hh.
  destruct (star_remainders is_space y); [done|]. exact Hh.
Qed.

(** X27.  The key of the finding the rule engine reports for a missing
    clause is the key of the clause keyword itself, for every keyword as
    [check_required_clauses] reports it (non-empty, trimmed) that contains
    no colon: the "Missing required clause:" in front does not take part in
    matching. *)
Theorem clause_issue_key (dt clause : str) :
  clause ≠ [] → strip clause = clause → ":"%char ∉ clause →
  issue_key (clause_issue dt clause) = normalize_issue_key clause.
Proof.
  intros Hne Hstrip Hcolon.
  assert (Hissue : issue_key (clause_issue dt clause)
                   = normalize_issue_key
                       ("Missing required clause: " ++ clause)).
  { unfold issue_key, get, clause_issue.
    cbn [list_to_map foldr uncurry fst snd].
    rewrite !lookup_insert_ne by discriminate.
    by rewrite lookup_insert_eq. }
  rewrite Hissue. unfold normalize_issue_key.
  set (y := lower clause).
  assert (Hy : strip y = y) by (unfold y; by rewrite strip_lower, Hstrip).
  destruct (strip_fixed y Hy) as [Hl Hr].
  assert (Hyne : y ≠ []) by (unfold y; by destruct clause).
  assert (Hycolon : ":"%char ∉ y).
  { unfold y, lower. intros (c & Hc & Hin)%list_elem_of_fmap.
    symmetry in Hc. apply lower_char_colon in Hc as ->. done. }
  assert (H1 : strip (lower ("Missing required clause: " ++ clause))
               = "missing required clause: " ++ y).
  { rewrite lower_app. fold y.
    change (lower "Missing required clause: ")
      with "missing required clause: ".
    unfold strip. change (lstrip ("missing required clause: " ++ y))
      with ("missing required clause: " ++ y).
    rewrite rstrip_app_kept; rewrite Hr; done. }
  rewrite H1, Hy.
  unfold sub_anchored.
  rewrite rmatch_clause_prefix by done.
  by rewrite rmatch_prefix_none.
Qed.

Lemma clause_issue_key_witness :
  issue_key (clause_issue "Articles of Association" "Signatories")
  = normalize_issue_key "Signatories".
Proof.
  apply (clause_issue_key "Articles of Association" "Signatories").
  - discriminate.
  - reflexivity.
  - repeat (apply not_elem_of_cons; split; [discriminate|]).
    apply not_elem_of_nil.
Defined.

End ClauseKey.
